(** * LetterSkull front end: a shallow embedding of its decoding, gallery,
      indexer-proxy and mint-reconciliation logic, with the properties the
      specification states about them.

    Layout: the platform functions the sources call ([atob],
    [decodeURIComponent], [BigInt], [Array.prototype.sort], ...) come first,
    modelled after their standards (HTML, ECMA-262); then one module per
    source file; then the notions the statements need beyond the sources;
    then the lemmas and the theorems. *)

From Stdlib Require Import String Ascii.
From Stdlib Require Import NArith ZArith List Bool Lia.
From Stdlib Require Import Sorted Permutation.
Import ListNotations.

Set Implicit Arguments.

(* ===================================================================== *)
(** * JavaScript values used by the sources *)
(* ===================================================================== *)

Module JS.

Local Open Scope N_scope.

(** A JavaScript string is a sequence of UTF-16 code units. *)
Definition jsstring := list N.

(** A string literal of the source (ASCII only). *)
Definition lit (s : string) : jsstring :=
  List.map N_of_ascii (list_ascii_of_string s).

(** What a [throw] carries.  [Err k m] is an object for which
    [e instanceof Error] holds, with [e.message = m]; [NonError] is any other
    thrown value. *)
Inductive errkind := InvalidCharacterError | URIError | SyntaxError | TypeError | OtherError.

Inductive exn :=
| Err (k : errkind) (message : jsstring)
| NonError.

(** The outcome of evaluating an expression that may throw. *)
Inductive completion (A : Type) :=
| Ok (a : A)
| Throw (e : exn).
Arguments Ok {A} a.
Arguments Throw {A} e.

Definition bind {A B} (c : completion A) (k : A -> completion B) : completion B :=
  match c with
  | Ok a => k a
  | Throw e => Throw e
  end.

Notation "'let!' x ':=' c 'in' k" := (bind c (fun x => k))
  (at level 10, x name, c at level 100, k at level 200).

(** [l.map(f)] for a callback that may throw: the first [throw] ends it. *)
Fixpoint mapM {A B} (f : A -> completion B) (l : list A) : completion (list B) :=
  match l with
  | [] => Ok []
  | a :: l' => let! b := f a in let! bs := mapM f l' in Ok (b :: bs)
  end.

(** [String.prototype.startsWith] and [String.prototype.slice(n)]. *)
Fixpoint startsWith (s p : jsstring) {struct p} : bool :=
  match p, s with
  | [], _ => true
  | _ :: _, [] => false
  | c :: p', d :: s' => (c =? d) && startsWith s' p'
  end.

Definition slice_from (n : nat) (s : jsstring) : jsstring := skipn n s.

(* --------------------------------------------------------------------- *)
(** ** [atob]: the forgiving-base64 decode of the HTML standard *)

Definition is_ascii_whitespace (c : N) : bool :=
  (c =? 9) || (c =? 10) || (c =? 12) || (c =? 13) || (c =? 32).

(** Value of a code unit in the standard base64 alphabet [A-Za-z0-9+/]. *)
Definition b64_value (c : N) : option N :=
  if (65 <=? c) && (c <=? 90) then Some (c - 65)
  else if (97 <=? c) && (c <=? 122) then Some (c - 97 + 26)
  else if (48 <=? c) && (c <=? 57) then Some (c - 48 + 52)
  else if c =? 43 then Some 62
  else if c =? 47 then Some 63
  else None.

(** Remove one trailing [=], if there is one. *)
Definition drop_trailing_eq (d : jsstring) : jsstring :=
  match rev d with
  | c :: r => if c =? 61 then rev r else d
  | [] => d
  end.

(** If the length is a multiple of four, remove one or two trailing [=]. *)
Definition strip_padding (d : jsstring) : jsstring :=
  if N.of_nat (length d) mod 4 =? 0
  then drop_trailing_eq (drop_trailing_eq d)
  else d.

Fixpoint sextets (d : jsstring) : option (list N) :=
  match d with
  | [] => Some []
  | c :: d' =>
      match b64_value c, sextets d' with
      | Some v, Some vs => Some (v :: vs)
      | _, _ => None
      end
  end.

(** The bit buffer of the standard, four sextets at a time: 24 bits give
    three bytes; a remainder of 18 bits gives two bytes (the last two bits
    are discarded), one of 12 bits gives one byte (the last four bits are
    discarded). *)
Fixpoint bytes_of_sextets (v : list N) : list N :=
  match v with
  | a :: b :: c :: d :: rest =>
      let n := a * 262144 + b * 4096 + c * 64 + d in
      n / 65536 :: (n / 256) mod 256 :: n mod 256 :: bytes_of_sextets rest
  | [a; b; c] =>
      let n := (a * 4096 + b * 64 + c) / 4 in
      [n / 256; n mod 256]
  | [a; b] => [(a * 64 + b) / 16]
  | _ => []
  end.

(** [atob(data)]: a binary string (every code unit below 256), or an
    [InvalidCharacterError].  The standard counts code points where this
    counts code units; the two differ only on strings with surrogate pairs,
    which are rejected either way. *)
Definition atob (data : jsstring) : completion jsstring :=
  let d := filter (fun c => negb (is_ascii_whitespace c)) data in
  let d := strip_padding d in
  if N.of_nat (length d) mod 4 =? 1
  then Throw (Err InvalidCharacterError (lit "The string to be decoded is not correctly encoded."))
  else match sextets d with
       | None => Throw (Err InvalidCharacterError (lit "The string to be decoded is not correctly encoded."))
       | Some v => Ok (bytes_of_sextets v)
       end.

(* --------------------------------------------------------------------- *)
(** ** [Number.prototype.toString(radix)] on non-negative integers and
       [String.prototype.padStart] with a one-character filler *)

Definition digit_char (d : N) : N :=
  if d <? 10 then 48 + d else 97 + (d - 10).

Fixpoint toString_radix_fuel (fuel : nat) (radix n : N) (acc : jsstring) : jsstring :=
  let acc' := digit_char (n mod radix) :: acc in
  match fuel with
  | O => acc'
  | S f => if n <? radix then acc' else toString_radix_fuel f radix (n / radix) acc'
  end.

(** A number with [k] binary digits has at most [k] digits in any radix. *)
Definition toString_radix (radix n : N) : jsstring :=
  toString_radix_fuel (N.to_nat (N.size n)) radix n [].

Definition padStart (len : nat) (fill : N) (s : jsstring) : jsstring :=
  repeat fill (len - length s) ++ s.

(* --------------------------------------------------------------------- *)
(** ** [decodeURIComponent]: the Decode operation of ECMA-262 with an empty
       set of preserved escapes *)

Definition hex_value (c : N) : option N :=
  if (48 <=? c) && (c <=? 57) then Some (c - 48)
  else if (97 <=? c) && (c <=? 102) then Some (c - 97 + 10)
  else if (65 <=? c) && (c <=? 70) then Some (c - 65 + 10)
  else None.

Definition ParseHexOctet (h1 h2 : N) : option N :=
  match hex_value h1, hex_value h2 with
  | Some a, Some b => Some (a * 16 + b)
  | _, _ => None
  end.

(** Number of leading 1 bits of an octet. *)
Definition leading_ones (B : N) : nat :=
  if negb (N.testbit B 7) then 0
  else if negb (N.testbit B 6) then 1
  else if negb (N.testbit B 5) then 2
  else if negb (N.testbit B 4) then 3
  else if negb (N.testbit B 3) then 4
  else 5.

Definition is_continuation (B : N) : bool := (128 <=? B) && (B <=? 191).

(** The code point a well-formed UTF-8 sequence of octets encodes: the
    trailing octets are continuation octets, the encoding is the shortest
    one, and the code point is neither a surrogate nor above U+10FFFF. *)
Definition utf8_code_point (octets : list N) : option N :=
  match octets with
  | [b0; b1] =>
      let v := (b0 mod 32) * 64 + b1 mod 64 in
      if is_continuation b1 && (128 <=? v) then Some v else None
  | [b0; b1; b2] =>
      let v := (b0 mod 16) * 4096 + (b1 mod 64) * 64 + b2 mod 64 in
      if is_continuation b1 && is_continuation b2 && (2048 <=? v)
         && negb ((55296 <=? v) && (v <=? 57343))
      then Some v else None
  | [b0; b1; b2; b3] =>
      let v := (b0 mod 8) * 262144 + (b1 mod 64) * 4096 + (b2 mod 64) * 64 + b3 mod 64 in
      if is_continuation b1 && is_continuation b2 && is_continuation b3
         && (65536 <=? v) && (v <=? 1114111)
      then Some v else None
  | _ => None
  end.

Definition UTF16EncodeCodePoint (cp : N) : jsstring :=
  if cp <=? 65535 then [cp]
  else [(cp - 65536) / 1024 + 55296; (cp - 65536) mod 1024 + 56320].

Definition uri_malformed : exn := Err URIError (lit "URI malformed").

(** [Decode need octets s]: [need] is the number of continuation escapes
    still to be read for the sequence collected in [octets] (the inner loop
    of the standard); [need = 0] is the outer loop. *)
Fixpoint Decode (need : nat) (octets : list N) (s : jsstring) {struct s} : completion jsstring :=
  match need with
  | O =>
      match s with
      | [] => Ok []
      | c :: s1 =>
          if c =? 37 then
            match s1 with
            | h1 :: h2 :: s2 =>
                match ParseHexOctet h1 h2 with
                | None => Throw uri_malformed
                | Some B =>
                    match leading_ones B with
                    | O => let! r := Decode 0 [] s2 in Ok (B :: r)
                    | 2%nat => Decode 1 [B] s2
                    | 3%nat => Decode 2 [B] s2
                    | 4%nat => Decode 3 [B] s2
                    | _ => Throw uri_malformed
                    end
                end
            | _ => Throw uri_malformed
            end
          else let! r := Decode 0 [] s1 in Ok (c :: r)
      end
  | S k =>
      match s with
      | c :: h1 :: h2 :: s2 =>
          if c =? 37 then
            match ParseHexOctet h1 h2 with
            | None => Throw uri_malformed
            | Some B =>
                match k with
                | O =>
                    match utf8_code_point (octets ++ [B]) with
                    | None => Throw uri_malformed
                    | Some V =>
                        let! r := Decode 0 [] s2 in Ok (UTF16EncodeCodePoint V ++ r)
                    end
                | S _ => Decode k (octets ++ [B]) s2
                end
            end
          else Throw uri_malformed
      | _ => Throw uri_malformed
      end
  end.

Definition decodeURIComponent (s : jsstring) : completion jsstring := Decode 0 [] s.

(* --------------------------------------------------------------------- *)
(** ** Strings as iterables, string equality *)

Definition is_high_surrogate (c : N) : bool := (55296 <=? c) && (c <=? 56319).
Definition is_low_surrogate (c : N) : bool := (56320 <=? c) && (c <=? 57343).

(** [Array.from(s)]: one element per code point, a surrogate pair staying
    together. *)
Fixpoint Array_from (s : jsstring) : list jsstring :=
  match s with
  | [] => []
  | c :: s' =>
      match s' with
      | d :: s'' =>
          if is_high_surrogate c && is_low_surrogate d
          then [c; d] :: Array_from s''
          else [c] :: Array_from s'
      | [] => [[c]]
      end
  end.

(** [c.charCodeAt(0)] on a non-empty string. *)
Definition charCodeAt0 (c : jsstring) : N := hd 0 c.

Fixpoint eqb_string (s t : jsstring) : bool :=
  match s, t with
  | [], [] => true
  | c :: s', d :: t' => (c =? d) && eqb_string s' t'
  | _, _ => false
  end.

(* --------------------------------------------------------------------- *)
(** ** JSON values *)

(** A number literal is kept as mantissa and decimal exponent. *)
#[warnings="-register-all"]
Inductive json :=
| JNull
| JBool (b : bool)
| JNumber (mantissa exponent : Z)
| JString (s : jsstring)
| JArray (elems : list json)
| JObject (props : list (jsstring * json)).

Fixpoint lookup_prop (name : jsstring) (props : list (jsstring * json)) : option json :=
  match props with
  | [] => None
  | (k, v) :: rest => if eqb_string k name then Some v else lookup_prop name rest
  end.

(** Reading the property [name] (not an index, not [length]) of a value that
    came out of [JSON.parse]: [null] has no properties and the read throws;
    primitives and arrays answer [undefined]. *)
Definition get_named_property (name : jsstring) (v : json) : completion (option json) :=
  match v with
  | JNull => Throw (Err TypeError (lit "Cannot read properties of null"))
  | JObject props => Ok (lookup_prop name props)
  | _ => Ok None
  end.

(* --------------------------------------------------------------------- *)
(** ** BigInt: [toString()] and [BigInt(string)] (StringToBigInt) *)

Definition BigInt_toString (z : Z) : jsstring :=
  match z with
  | Z0 => [48]
  | Zpos p => toString_radix 10 (Npos p)
  | Zneg p => 45 :: toString_radix 10 (Npos p)
  end.

(** WhiteSpace and LineTerminator code units, the set that both
    [String.prototype.trim] and StringToBigInt strip. *)
Definition is_StrWhiteSpaceChar (c : N) : bool :=
  (c =? 9) || (c =? 10) || (c =? 11) || (c =? 12) || (c =? 13) || (c =? 32)
  || (c =? 160) || (c =? 5760) || ((8192 <=? c) && (c <=? 8202))
  || (c =? 8232) || (c =? 8233) || (c =? 8239) || (c =? 8287)
  || (c =? 12288) || (c =? 65279).

Fixpoint trimStart (s : jsstring) : jsstring :=
  match s with
  | c :: s' => if is_StrWhiteSpaceChar c then trimStart s' else s
  | [] => []
  end.

Definition trim (s : jsstring) : jsstring := rev (trimStart (rev (trimStart s))).

Fixpoint parse_digits (radix : N) (s : jsstring) (acc : N) : option N :=
  match s with
  | [] => Some acc
  | c :: s' =>
      match hex_value c with
      | Some d => if d <? radix then parse_digits radix s' (acc * radix + d) else None
      | None => None
      end
  end.

(** At least one digit. *)
Definition parse_numeral (radix : N) (s : jsstring) : option N :=
  match s with
  | [] => None
  | _ => parse_digits radix s 0
  end.

(** StringToBigInt: the empty literal is 0; [0x], [0o], [0b] (either case)
    introduce an unsigned literal in that radix; otherwise an optionally
    signed decimal literal. *)
Definition StringToBigInt (s : jsstring) : option Z :=
  match trim s with
  | [] => Some 0%Z
  | c :: rest =>
      let unsigned r d := option_map Z.of_N (parse_numeral r d) in
      match rest with
      | x :: digits =>
          if (c =? 48) && ((x =? 120) || (x =? 88)) then unsigned 16 digits
          else if (c =? 48) && ((x =? 111) || (x =? 79)) then unsigned 8 digits
          else if (c =? 48) && ((x =? 98) || (x =? 66)) then unsigned 2 digits
          else if c =? 43 then unsigned 10 rest
          else if c =? 45 then option_map (fun n => (- Z.of_N n)%Z) (parse_numeral 10 rest)
          else unsigned 10 (c :: rest)
      | [] => unsigned 10 [c]
      end
  end.

(** [BigInt(s)] for a string argument. *)
Definition BigInt_of_string (s : jsstring) : completion Z :=
  match StringToBigInt s with
  | Some z => Ok z
  | None => Throw (Err SyntaxError (lit "Cannot convert string to a BigInt"))
  end.

(* --------------------------------------------------------------------- *)
(** ** [Array.prototype.sort(compare)] *)

(** The standard leaves the sequence of comparisons to the implementation
    and requires stability; a stable insertion sort stands for it.  An
    element goes before the first one it does not compare greater than. *)
Section Sort.
Variable A : Type.
Variable compare : A -> A -> Z.

Fixpoint sort_insert (x : A) (l : list A) : list A :=
  match l with
  | [] => [x]
  | y :: l' => if (compare x y <=? 0)%Z then x :: l else y :: sort_insert x l'
  end.

Definition Array_sort (l : list A) : list A := fold_right sort_insert [] l.
End Sort.

End JS.

(* ===================================================================== *)
(** * Token-URI decoder (gallery page and skull detail page)

    [decodeBase64ToString] and [parseTokenUriToSvg] are declared twice, with
    the same text, in the gallery page and in the detail page; one embedding
    serves both. *)
(* ===================================================================== *)

Module Decoder.
Import JS.
Local Open Scope N_scope.

Definition decodeBase64ToString (b64 : jsstring) : completion jsstring :=
  let! bin := atob b64 in
  let percentEncoded :=
    concat (map (fun c => 37 :: padStart 2 48 (toString_radix 16 (charCodeAt0 c)))
                (Array_from bin)) in
  decodeURIComponent percentEncoded.

Section WithJSON.
(** [JSON.parse] of the platform: a value, or a [SyntaxError]. *)
Variable JSON_parse : jsstring -> completion json.

Definition parseTokenUriToSvg (tokenUri : jsstring) : completion (option jsstring) :=
  let prefix := lit "data:application/json;base64," in
  if negb (startsWith tokenUri prefix) then Ok None
  else
    let jsonB64 := slice_from (length prefix) tokenUri in
    let! jsonStr := decodeBase64ToString jsonB64 in
    let! parsed := JSON_parse jsonStr in
    let! image_prop := get_named_property (lit "image") parsed in
    (* typeof parsed.image === "string" ? parsed.image : null *)
    let image := match image_prop with Some (JString s) => Some s | _ => None end in
    match image with
    | None => Ok None
    | Some [] => Ok None       (* the empty string is falsy *)
    | Some image =>
        let imgPrefix := lit "data:image/svg+xml;base64," in
        if startsWith image imgPrefix
        then let! svg := decodeBase64ToString (slice_from (length imgPrefix) image) in
             Ok (Some svg)
        else Ok None
    end.
End WithJSON.

End Decoder.

(* ===================================================================== *)
(** * Skull gallery page: pagination, merge, sheet compositor *)
(* ===================================================================== *)

Module Gallery.
Import JS.
Local Open Scope Z_scope.

(** [bigint] values are integers; the [number] values of this page (counts,
    watermarks, pixel sizes) are integers too and stay far below 2^53, where
    the arithmetic of doubles is exact: both are modelled by [Z]. *)
Definition ZERO : Z := 0.

Record SkullItem := {
  tokenId : Z;
  svg : option jsstring;
  loading : bool;
  error : option jsstring
}.

Definition clamp (n min max : Z) : Z := Z.max min (Z.min max n).

(** The two contract reads of the page.  A read resolves or rejects. *)
Record PublicClient := {
  read_nextTokenId : completion Z;
  read_tokenURI : Z -> completion jsstring
}.

(** React state of [SkullsGalleryPage] that the loader touches. *)
Record state := {
  mintedCount : Z;
  items : list SkullItem;
  loadingCount : bool;
  loaded : Z
}.

Definition pageSize : Z := 80.

Definition initial : state :=
  {| mintedCount := ZERO; items := []; loadingCount := true; loaded := 0 |}.

(** [Number(mintedCount)], or 0 when that is negative (a [uint256] is
    always finite as a number). *)
Definition maxToLoad (st : state) : Z :=
  let mc := mintedCount st in
  if mc <? 0 then 0 else mc.

(** [fetchMintedCount]: when the read rejects, the [finally] block still
    clears [loadingCount] and the supply is left as it was. *)
Definition fetchMintedCount (publicClient : option PublicClient) (st : state) : state :=
  match publicClient with
  | None => st
  | Some client =>
      match read_nextTokenId client with
      | Ok nextTokenId =>
          {| mintedCount := if nextTokenId >? ZERO then nextTokenId - 1 else ZERO;
             items := items st; loadingCount := false; loaded := loaded st |}
      | Throw _ =>
          {| mintedCount := mintedCount st;
             items := items st; loadingCount := false; loaded := loaded st |}
      end
  end.

(** [for (let i = start; i <= end; i++) batchTokenIds.push(BigInt(i))] *)
Definition batch_ids (start end_ : Z) : list Z :=
  map (fun k => start + Z.of_nat k) (seq 0 (Z.to_nat (end_ - start + 1))).

(** A [Map] keeps its keys in insertion order; [set] on a key that is
    present replaces the value where it stands. *)
Fixpoint Map_set {V : Type} (k : jsstring) (v : V) (m : list (jsstring * V)) : list (jsstring * V) :=
  match m with
  | [] => [(k, v)]
  | (k', v') :: m' =>
      if eqb_string k' k then (k', v) :: m' else (k', v') :: Map_set k v m'
  end.

Definition Map_values {V : Type} (m : list (jsstring * V)) : list V := map snd m.

Definition by_tokenId (a b : SkullItem) : Z :=
  if tokenId a <? tokenId b then -1 else 1.

(** The merge step of [loadMore] (the second [setItems]). *)
Definition merge_results (prev results : list SkullItem) : list SkullItem :=
  let set_item m (it : SkullItem) := Map_set (BigInt_toString (tokenId it)) it m in
  let m := fold_left set_item prev [] in
  let m := fold_left set_item results m in
  Array_sort by_tokenId (Map_values m).

Section WithJSON.
Variable JSON_parse : jsstring -> completion json.

(** One element of the [Promise.all] of [loadMore]. *)
Definition fetch_item (client : PublicClient) (id : Z) : SkullItem :=
  match (let! uri := read_tokenURI client id in
         Decoder.parseTokenUriToSvg JSON_parse uri) with
  | Ok s => {| tokenId := id; svg := s; loading := false; error := None |}
  | Throw e =>
      let msg := match e with
                 | Err _ m => m
                 | NonError => lit "Failed to load tokenURI"
                 end in
      {| tokenId := id; svg := None; loading := false; error := Some msg |}
  end.

(** What one call of [loadMore] does to the state, and the token ids whose
    [tokenURI] it reads, in the order of the batch.  The first [setItems]
    appends the pending items, the second merges the results into what
    the first one left; no other update of the state comes in between.
    [Promise.all] hands the results back in the order of the batch,
    whatever the order in which the reads complete. *)
Definition loadMore (publicClient : option PublicClient) (st : state) : state * list Z :=
  match publicClient with
  | None => (st, [])
  | Some client =>
      if loaded st >=? maxToLoad st then (st, [])
      else
        let start := loaded st + 1 in
        let end_ := Z.min (loaded st + pageSize) (maxToLoad st) in
        let batchTokenIds := batch_ids start end_ in
        let pending :=
          items st ++ map (fun id => {| tokenId := id; svg := None; loading := true;
                                        error := None |}) batchTokenIds in
        let results := map (fetch_item client) batchTokenIds in
        ({| mintedCount := mintedCount st;
            items := merge_results pending results;
            loadingCount := loadingCount st;
            loaded := end_ |},
         batchTokenIds)
  end.
End WithJSON.

(* --------------------------------------------------------------------- *)
(** ** [downloadVisibleSheetPng] *)

Record sheet_opts := {
  svgs : list (Z * jsstring);
  tilePx : Z;
  gapPx : Z;
  cols : Z;
  outScale : option Z
}.

(** One [ctx.drawImage(img, x, y, w, h)]; the image is the SVG rasterised at
    [px] pixels. *)
Record drawImage := {
  img_svg : jsstring;
  img_px : Z;
  dx : Z;
  dy : Z;
  dw : Z;
  dh : Z
}.

Record canvas := {
  width : Z;
  height : Z;
  imageSmoothingEnabled : bool;
  drawn : list drawImage;
  download : jsstring
}.

(** What the browser contributes: whether a 2d context is available and
    whether an SVG loads as an image. *)
Record browser := {
  has_2d_context : bool;
  svg_loads : jsstring -> bool
}.

Inductive sheet_outcome :=
| NothingToDo
| SheetFailed (e : exn)
| SheetSaved (c : canvas).

(** [Math.ceil(a / b)] and [Math.floor(a / b)] on integers, [b] not zero. *)
Definition ceil_div (a b : Z) : Z := - ((- a) / b).
Definition floor_div (a b : Z) : Z := a / b.

Definition downloadVisibleSheetPng (env : browser) (opts : sheet_opts) : sheet_outcome :=
  let outScale := match outScale opts with Some s => s | None => 2 end in
  let n := Z.of_nat (length (svgs opts)) in
  if n =? 0 then NothingToDo
  else
    let rows := ceil_div n (cols opts) in
    let outTile := tilePx opts * outScale in
    let outGap := gapPx opts * outScale in
    let w := cols opts * outTile + (cols opts - 1) * outGap in
    let h := rows * outTile + (rows - 1) * outGap in
    if negb (has_2d_context env)
    then SheetFailed (Err OtherError (lit "Canvas not supported"))
    else if negb (forallb (fun p => svg_loads env (snd p)) (svgs opts))
    then SheetFailed (Err OtherError (lit "Failed to load SVG image"))
    else
      let place (i : nat) (p : Z * jsstring) :=
        let r := floor_div (Z.of_nat i) (cols opts) in
        let c := Z.rem (Z.of_nat i) (cols opts) in
        {| img_svg := snd p; img_px := outTile;
           dx := c * (outTile + outGap); dy := r * (outTile + outGap);
           dw := outTile; dh := outTile |} in
      SheetSaved
        {| width := w; height := h; imageSmoothingEnabled := false;
           drawn := map (fun ip => place (fst ip) (snd ip))
                        (combine (seq 0 (length (svgs opts))) (svgs opts));
           download := lit "letterskull-gallery-"
                       ++ toString_radix 10 (N.of_nat (length (svgs opts)))
                       ++ lit ".png" |}.

(** [downloadableVisible]: the items shown with an SVG. *)
Definition downloadableVisible (its : list SkullItem) : list (Z * jsstring) :=
  flat_map (fun x =>
              match svg x with
              | Some (c :: s) => if negb (loading x) then [(tokenId x, c :: s)] else []
              | _ => []
              end) its.

End Gallery.

(* ===================================================================== *)
(** * Indexer proxy route ([POST /api/get-nfts]) *)
(* ===================================================================== *)

Module Indexer.
Import JS.
Local Open Scope N_scope.

Definition LETTER_CONTRACT_ADDRESS : jsstring :=
  lit "0xb8261f4431928F176c5A07887c8fcAcCd13c6D16".

Definition is_hex_digit (c : N) : bool :=
  match hex_value c with Some _ => true | None => false end.

Definition is_hex_letter (c : N) : bool :=
  ((97 <=? c) && (c <=? 102)) || ((65 <=? c) && (c <=? 70)).

(** [/^[0-9a-fA-F]+$/.test(t)] and [/[a-fA-F]/.test(t)] *)
Definition all_hex_digits (t : jsstring) : bool :=
  match t with
  | [] => false
  | _ => forallb is_hex_digit t
  end.

Definition has_hex_letter (t : jsstring) : bool := existsb is_hex_letter t.

Definition parseAlchemyTokenIdToDecimal (tokenId : jsstring) : completion jsstring :=
  let t := trim tokenId in
  if startsWith t (lit "0x") then
    let! z := BigInt_of_string t in Ok (BigInt_toString z)
  else if all_hex_digits t && has_hex_letter t then
    let! z := BigInt_of_string (lit "0x" ++ t) in Ok (BigInt_toString z)
  else
    let! z := BigInt_of_string t in Ok (BigInt_toString z).

Record LetterItem := {
  tokenId : jsstring;
  name : option jsstring;
  imageUrl : option jsstring;
  tokenUri : option jsstring
}.

(** [typeof v === "object" && v !== null]: objects and arrays. *)
Definition object_props (v : json) : option (list (jsstring * json)) :=
  match v with
  | JObject props => Some props
  | JArray _ => Some []
  | _ => None
  end.

Definition prop (name : string) (v : json) : option json :=
  match object_props v with
  | Some props => lookup_prop (lit name) props
  | None => None
  end.

Definition as_string (v : option json) : option jsstring :=
  match v with
  | Some (JString s) => Some s
  | _ => None
  end.

Definition or_else {A} (a b : option A) : option A :=
  match a with Some _ => a | None => b end.

(** [md.tokenUri] as a string, else [md.tokenUri.raw], else [md.raw.tokenUri]. *)
Definition extractTokenUri (md : json) : option jsstring :=
  or_else (as_string (prop "tokenUri" md))
    (or_else (match prop "tokenUri" md with
              | Some tu => as_string (prop "raw" tu)
              | None => None
              end)
             (match prop "raw" md with
              | Some rawObj => as_string (prop "tokenUri" rawObj)
              | None => None
              end)).

Definition raw_metadata (md : json) : option json :=
  match prop "raw" md with
  | Some rawObj => prop "metadata" rawObj
  | None => None
  end.

Definition extractImageUrl (md : json) : option jsstring :=
  or_else (match prop "image" md with
           | Some image =>
               or_else (as_string (prop "pngUrl" image))
                 (or_else (as_string (prop "cachedUrl" image))
                          (as_string (prop "originalUrl" image)))
           | None => None
           end)
          (match raw_metadata md with
           | Some rawMd => as_string (prop "image" rawMd)
           | None => None
           end).

Definition extractName (md : json) : option jsstring :=
  or_else (as_string (prop "name" md))
          (match raw_metadata md with
           | Some rawMd => as_string (prop "name" rawMd)
           | None => None
           end).

(** An issue of a failed [safeParse]: which field, and why. *)
Record ZodIssue := {
  code : jsstring;
  path : list jsstring;
  message : jsstring
}.

Definition type_name (v : json) : string :=
  match v with
  | JNull => "null"
  | JBool _ => "boolean"
  | JNumber _ _ => "number"
  | JString _ => "string"
  | JArray _ => "array"
  | JObject _ => "object"
  end.

Section Route.
(** [isAddress] of viem. *)
Variable isAddress : jsstring -> bool.
(** The text [JSON.stringify] (or [String]) gives for a thrown value that
    is not an [Error]. *)
Variable stringify_thrown : jsstring.

(** [schema.safeParse(body)] for
    [z.object({ address: z.string().refine(isAddress, ...) })]. *)
Definition safeParse (body : json) : jsstring + list ZodIssue :=
  match body with
  | JObject props =>
      match lookup_prop (lit "address") props with
      | None =>
          inr [{| code := lit "invalid_type"; path := [lit "address"];
                  message := lit "Required" |}]
      | Some (JString a) =>
          if isAddress a then inl a
          else inr [{| code := lit "custom"; path := [lit "address"];
                       message := lit "Invalid Ethereum address format" |}]
      | Some v =>
          inr [{| code := lit "invalid_type"; path := [lit "address"];
                  message := lit "Expected string, received " ++ lit (type_name v) |}]
      end
  | v =>
      inr [{| code := lit "invalid_type"; path := [];
              message := lit "Expected object, received " ++ lit (type_name v) |}]
  end.

Definition toErrorMessage (err : exn) : jsstring :=
  match err with
  | Err _ m => m
  | NonError => stringify_thrown
  end.

(** The indexing SDK: the tokens an owner holds in the Letter contract
    (their [tokenId] strings), and the metadata of one token. *)
Record Alchemy := {
  getNftsForOwner : jsstring -> completion (list jsstring);
  getNftMetadata : jsstring -> completion json
}.

Inductive upstream_call :=
| CallGetNftsForOwner (owner : jsstring)
| CallGetNftMetadata (contract tokenId : jsstring).

Inductive response_body :=
| ErrorDetails (error : jsstring) (details : list ZodIssue)
| ErrorMessage (error : jsstring) (details : jsstring)
| Letters (success : bool) (address letterContract : jsstring) (letters : list LetterItem).

Record response := { status : Z; body : response_body }.

(** [(a, b) => (BigInt(a) < BigInt(b) ? -1 : 1)].  Its arguments are
    outputs of [BigInt.toString], which [BigInt] always reads back; the
    last case stands for the [SyntaxError] that cannot happen. *)
Definition by_value (a b : jsstring) : Z :=
  match StringToBigInt a, StringToBigInt b with
  | Some x, Some y => if (x <? y)%Z then (-1)%Z else 1%Z
  | _, _ => 1%Z
  end.

Definition letter_of (sdk : Alchemy) (tokenIdDec : jsstring) : LetterItem :=
  match getNftMetadata sdk tokenIdDec with
  | Ok md =>
      {| tokenId := tokenIdDec; name := extractName md;
         imageUrl := extractImageUrl md; tokenUri := extractTokenUri md |}
  | Throw _ =>
      {| tokenId := tokenIdDec; name := None; imageUrl := None; tokenUri := None |}
  end.

(** The handler: its response and the calls it made to the indexing
    service.  [request_json] is the outcome of [request.json()]. *)
Definition POST (sdk : Alchemy) (request_json : completion json)
  : response * list upstream_call :=
  let server_error e :=
    {| status := 500;
       body := ErrorMessage (lit "Failed to fetch NFTs") (toErrorMessage e) |} in
  match request_json with
  | Throw e => (server_error e, [])
  | Ok body_ =>
      match safeParse body_ with
      | inr issues =>
          ({| status := 400; body := ErrorDetails (lit "Validation failed") issues |}, [])
      | inl address =>
          match getNftsForOwner sdk address with
          | Throw e => (server_error e, [CallGetNftsForOwner address])
          | Ok owned =>
              match mapM parseAlchemyTokenIdToDecimal owned with
              | Throw e => (server_error e, [CallGetNftsForOwner address])
              | Ok ids =>
                  let tokenIds := Array_sort by_value ids in
                  ({| status := 200;
                      body := Letters true address LETTER_CONTRACT_ADDRESS
                                      (map (letter_of sdk) tokenIds) |},
                   CallGetNftsForOwner address
                     :: map (CallGetNftMetadata LETTER_CONTRACT_ADDRESS) tokenIds)
              end
          end
      end
  end.
End Route.

End Indexer.

(* ===================================================================== *)
(** * Mint page: reconciliation of owned Letters against minted Skulls *)
(* ===================================================================== *)

Module Mint.
Import JS.
Local Open Scope Z_scope.

Definition ZERO : Z := 0.

Record Item := {
  letterTokenId : Z;
  letterName : option jsstring;
  letterImageUrl : option jsstring;
  usedLetter : bool;
  skullTokenId : Z;
  skullNonce : Z;
  skullSvg : option jsstring;
  skullOwner : option jsstring;
  loading : bool
}.

(** The contract reads of the page, each resolving or rejecting. *)
Record PublicClient := {
  usedLetterToken : Z -> completion bool;
  skullOfLetter : Z -> completion Z;
  ownerOf : Z -> completion jsstring;
  nonceOf : Z -> completion Z;
  previewSvg : Z -> Z -> completion jsstring
}.

(** A [readContract] call that was issued. *)
Inductive read :=
| ReadUsedLetterToken (letterTokenId : Z)
| ReadSkullOfLetter (letterTokenId : Z)
| ReadOwnerOf (skullTokenId : Z)
| ReadNonceOf (skullTokenId : Z)
| ReadPreviewSvg (letterTokenId nonce : Z).

(** Asynchronous code that reads the chain: its completion, and the reads it
    issued, in program order. *)
Definition async (A : Type) : Type := completion A * list read.

Definition ret {A} (a : A) : async A := (Ok a, []).

Definition await {A B} (m : async A) (k : A -> async B) : async B :=
  match m with
  | (Ok a, t) => let (r, t') := k a in (r, t ++ t')
  | (Throw e, t) => (Throw e, t)
  end.

(** [Promise.all([p, q])]: both reads are issued; the pair resolves when
    both do and rejects when one does. *)
Definition Promise_all2 {A B} (p : async A) (q : async B) : async (A * B) :=
  match p, q with
  | (Ok a, t), (Ok b, u) => (Ok (a, b), t ++ u)
  | (Throw e, t), (_, u) => (Throw e, t ++ u)
  | (Ok _, t), (Throw e, u) => (Throw e, t ++ u)
  end.

(** [try { ... } catch { return v }] around asynchronous code. *)
Definition try_catch {A} (m : async A) (handler : exn -> A) : A * list read :=
  match m with
  | (Ok a, t) => (a, t)
  | (Throw e, t) => (handler e, t)
  end.

Notation "'await!' x ':=' m 'in' k" := (await m (fun x => k))
  (at level 10, x pattern, m at level 100, k at level 200).

Definition readContract {A} (r : read) (result : completion A) : async A := (result, [r]).

Definition set_loading (b : bool) (x : Item) : Item :=
  {| letterTokenId := letterTokenId x; letterName := letterName x;
     letterImageUrl := letterImageUrl x; usedLetter := usedLetter x;
     skullTokenId := skullTokenId x; skullNonce := skullNonce x;
     skullSvg := skullSvg x; skullOwner := skullOwner x; loading := b |}.

(** The [try] block of the [map] callback of [hydrateSkulls], for one item. *)
Definition hydrate_try (client : PublicClient) (it : Item) : async Item :=
  await! (used, skull) :=
     Promise_all2
       (readContract (ReadUsedLetterToken (letterTokenId it))
                     (usedLetterToken client (letterTokenId it)))
       (readContract (ReadSkullOfLetter (letterTokenId it))
                     (skullOfLetter client (letterTokenId it))) in
  let minted := used || negb (skull =? ZERO) in
  if negb minted || (skull =? ZERO) then
    ret {| letterTokenId := letterTokenId it; letterName := letterName it;
           letterImageUrl := letterImageUrl it;
           usedLetter := used; skullTokenId := skull;
           skullOwner := None; skullNonce := ZERO; skullSvg := None;
           loading := false |}
  else
    await! (owner, nonce) :=
       Promise_all2 (readContract (ReadOwnerOf skull) (ownerOf client skull))
                    (readContract (ReadNonceOf skull) (nonceOf client skull)) in
    await! svg :=
       readContract (ReadPreviewSvg (letterTokenId it) nonce)
                    (previewSvg client (letterTokenId it) nonce) in
    ret {| letterTokenId := letterTokenId it; letterName := letterName it;
           letterImageUrl := letterImageUrl it;
           usedLetter := used; skullTokenId := skull;
           skullOwner := Some owner; skullNonce := nonce; skullSvg := Some svg;
           loading := false |}.

(** The callback: the [try] block, and [{ ...it, loading: false }] when it
    throws. *)
Definition hydrate_item (client : PublicClient) (it : Item) : Item * list read :=
  try_catch (hydrate_try client it) (fun _ => set_loading false it).

(** [hydrateSkulls(current)] run on the page state [items]: the new state
    and the reads issued, item by item.  The first [setItems] marks every
    item as loading; the second one, after the [Promise.all], sees that
    marked state as [prev].  The callback never rejects, so the outer
    [Promise.all] always resolves. *)
Definition hydrateSkulls (publicClient : option PublicClient)
    (current : list Item) (items : list Item) : list Item * list read :=
  match publicClient with
  | None => (items, [])
  | Some client =>
      match current with
      | [] => (items, [])
      | _ =>
          let prev := map (set_loading true) items in
          let settled := map (hydrate_item client) (firstn 80 current) in
          let next := map fst settled in
          (next ++ skipn (length next) prev, concat (map snd settled))
      end
  end.

(** What the page derives from an item when it renders. *)
Definition minted (it : Item) : bool :=
  usedLetter it || negb (skullTokenId it =? ZERO).

Definition disableMint (isPending isConfirming : bool) (it : Item) : bool :=
  minted it || isPending || isConfirming || loading it.

Definition mintable (x : Item) : bool :=
  negb (loading x) && negb (usedLetter x) && (skullTokenId x =? ZERO).

Definition mintableCount (items : list Item) : nat :=
  length (filter mintable items).

(** An entry of the [letters] array the proxy route answers with. *)
Record Letter := {
  tokenId : jsstring;
  name : option jsstring;
  imageUrl : option jsstring
}.

Definition by_letterTokenId (a b : Z * option jsstring * option jsstring) : Z :=
  if fst (fst a) <? fst (fst b) then -1 else 1.

(** The item [loadLettersFromApi] creates for a Letter before any chain read. *)
Definition fresh_item (l : Z * option jsstring * option jsstring) : Item :=
  {| letterTokenId := fst (fst l); letterName := snd (fst l); letterImageUrl := snd l;
     usedLetter := false; skullTokenId := ZERO; skullNonce := ZERO;
     skullSvg := None; skullOwner := None; loading := true |}.

Definition nextItems (letters : list Letter) : completion (list Item) :=
  let! parsed :=
     mapM (fun l => let! id := BigInt_of_string (tokenId l) in
                    Ok (id, name l, imageUrl l)) letters in
  Ok (map fresh_item (Array_sort by_letterTokenId parsed)).

(** [loadLettersFromApi] from the point where the route has answered with
    [letters]: the items are installed and reconciled; a [throw] on the way
    empties the list. *)
Definition loadLettersFromApi (publicClient : option PublicClient)
    (letters : list Letter) : list Item * list read :=
  match nextItems letters with
  | Ok nextItems => hydrateSkulls publicClient nextItems nextItems
  | Throw _ => ([], [])
  end.

End Mint.

(* ===================================================================== *)
(** * Notions used in the statements

    What the specification names without the sources defining it (the text
    encodings, the value of a numeral, sortedness by a key), the views of
    the data that the proofs go through, and the concrete environments the
    examples run in. *)
(* ===================================================================== *)

Import JS.

(** ** Order by a key *)

Definition key_le {A : Type} (key : A -> Z) (a b : A) : Prop := (key a <= key b)%Z.
Definition key_lt {A : Type} (key : A -> Z) (a b : A) : Prop := (key a < key b)%Z.

(** ** Text encodings named by the specification *)

Section Encodings.
Local Open Scope N_scope.

(** A Unicode string is a sequence of scalar values: code points up to
    U+10FFFF that are not surrogates.  In JavaScript it is the string of
    their UTF-16 encodings. *)
Definition is_scalar_value (cp : N) : Prop :=
  cp < 55296 \/ (57344 <= cp /\ cp <= 1114111).

Definition utf16_encode (cps : list N) : jsstring :=
  flat_map UTF16EncodeCodePoint cps.

(** UTF-8 (RFC 3629). *)
Definition utf8_encode_code_point (cp : N) : list N :=
  if cp <? 128 then [cp]
  else if cp <? 2048 then [192 + cp / 64; 128 + cp mod 64]
  else if cp <? 65536 then [224 + cp / 4096; 128 + (cp / 64) mod 64; 128 + cp mod 64]
  else [240 + cp / 262144; 128 + (cp / 4096) mod 64; 128 + (cp / 64) mod 64;
        128 + cp mod 64].

Definition utf8_encode (cps : list N) : list N :=
  flat_map utf8_encode_code_point cps.

(** Standard base64 with padding (RFC 4648, section 4): three octets give
    four characters of the alphabet; a last group of two octets gives three
    characters and one [=], a last group of one octet two characters and
    two [=]. *)
Definition b64_char (v : N) : N :=
  if v <? 26 then 65 + v
  else if v <? 52 then 97 + (v - 26)
  else if v <? 62 then 48 + (v - 52)
  else if v =? 62 then 43
  else 47.

Fixpoint sextets_of_bytes (bs : list N) : list N :=
  match bs with
  | x :: y :: z :: rest =>
      let n := x * 65536 + y * 256 + z in
      n / 262144 :: (n / 4096) mod 64 :: (n / 64) mod 64 :: n mod 64
        :: sextets_of_bytes rest
  | [x; y] =>
      let n := (x * 256 + y) * 4 in
      [n / 4096; (n / 64) mod 64; n mod 64]
  | [x] =>
      let n := x * 16 in
      [n / 64; n mod 64]
  | [] => []
  end.

Fixpoint base64_padding (bs : list N) : jsstring :=
  match bs with
  | _ :: _ :: _ :: rest => base64_padding rest
  | [_; _] => [61]
  | [_] => [61; 61]
  | [] => []
  end.

Definition base64_encode (bs : list N) : jsstring :=
  map b64_char (sextets_of_bytes bs) ++ base64_padding bs.

(** The text [%xx] for an octet, as [decodeBase64ToString] builds it. *)
Definition percent_escape (b : N) : jsstring :=
  [37; digit_char (b / 16); digit_char (b mod 16)].

(** The number of leading 1 bits of an octet, read off its range. *)
Definition leading_ones_by_range (b : N) : nat :=
  if b <? 128 then 0%nat else if b <? 192 then 1%nat else if b <? 224 then 2%nat
  else if b <? 240 then 3%nat else if b <? 248 then 4%nat else 5%nat.

(** ** Numerals *)

Definition is_dec_digit (c : N) : bool := (48 <=? c) && (c <=? 57).

(** The value of a numeral in positional notation. *)
Definition digit_value (c : N) : N :=
  match hex_value c with Some d => d | None => 0 end.

Definition numeral_value (radix : N) (s : jsstring) : N :=
  fold_left (fun acc c => acc * radix + digit_value c) s 0.

(** The integer a decimal string stands for. *)
Definition numeric_value (s : jsstring) : Z :=
  match StringToBigInt s with Some z => z | None => 0%Z end.

End Encodings.

(** ** The indexer route *)

(** A body passes validation exactly when it is an object whose [address]
    property is a string that [isAddress] accepts. *)
Definition well_formed_address_body (isAddress : jsstring -> bool) (b : json) (a : jsstring) : Prop :=
  exists props, b = JObject props /\
                lookup_prop (lit "address") props = Some (JString a) /\
                isAddress a = true.

(** ** The gallery *)

Section GalleryViews.
Import Gallery.
Local Open Scope Z_scope.

(** The values of the [Map] of the merge step, as a list keyed by token
    id: an item replaces the one with its id where it stands, or goes last. *)
Fixpoint upsert (x : SkullItem) (vs : list SkullItem) : list SkullItem :=
  match vs with
  | [] => [x]
  | y :: vs' => if tokenId y =? tokenId x then x :: vs' else y :: upsert x vs'
  end.

Definition upsert_all (l vs : list SkullItem) : list SkullItem :=
  fold_left (fun vs x => upsert x vs) l vs.

Definition entry (x : SkullItem) : jsstring * SkullItem := (BigInt_toString (tokenId x), x).

(** The pending item [loadMore] shows for an id it is about to fetch. *)
Definition placeholder (id : Z) : SkullItem :=
  {| tokenId := id; svg := None; loading := true; error := None |}.

(** What the page holds between two calls of [loadMore]: the fetched
    items of the ids [1 .. loaded], in that order. *)
Definition pages_loaded (JSON_parse : jsstring -> completion json)
    (client : PublicClient) (st : state) : Prop :=
  0 <= loaded st /\
  items st = map (fetch_item JSON_parse client) (batch_ids 1 (loaded st)).

(** A chain on which 200 skulls exist ([nextTokenId] is 201) and no token
    URI can be read. *)
Definition chain_of_200 : PublicClient :=
  {| read_nextTokenId := Ok 201; read_tokenURI := fun _ => Throw NonError |}.

End GalleryViews.

(** ** The mint page *)

Section MintViews.
Import Mint.
Local Open Scope Z_scope.

Definition is_dual_read (r : read) : bool :=
  match r with
  | ReadUsedLetterToken _ => true
  | _ => false
  end.

(** A client for which the contract says "used" while the skull id reads
    zero; the other reads reject. *)
Definition used_without_skull : PublicClient :=
  {| usedLetterToken := fun _ => Ok true;
     skullOfLetter := fun _ => Ok 0;
     ownerOf := fun _ => Throw NonError;
     nonceOf := fun _ => Throw NonError;
     previewSvg := fun _ _ => Throw NonError |}.

(** A chain endpoint that cannot be reached: every read rejects. *)
Definition unreachable_chain : PublicClient :=
  let failed := Err OtherError (lit "HTTP request failed") in
  {| usedLetterToken := fun _ => Throw failed;
     skullOfLetter := fun _ => Throw failed;
     ownerOf := fun _ => Throw failed;
     nonceOf := fun _ => Throw failed;
     previewSvg := fun _ _ => Throw failed |}.

(** A chain on which every Letter has minted Skull 5, but the owner of a
    Skull cannot be read. *)
Definition owner_unreadable : PublicClient :=
  {| usedLetterToken := fun _ => Ok true;
     skullOfLetter := fun _ => Ok 5;
     ownerOf := fun _ => Throw (Err OtherError (lit "HTTP request failed"));
     nonceOf := fun _ => Ok 0;
     previewSvg := fun _ _ => Ok (lit "<svg/>") |}.

End MintViews.

(* ===================================================================== *)
(** * The rest of the pages: grid controls, skull detail page, labels *)
(* ===================================================================== *)

(** ** Gallery page: tile size, column count, what the header shows *)

Module GalleryControls.
Import JS Gallery.
Local Open Scope Z_scope.

(** The two buttons next to the headline: [setTile(t => clamp(t -+ 16, 64, 260))]. *)
Inductive click := Smaller | Larger.

Definition setTile (c : click) (t : Z) : Z :=
  match c with
  | Smaller => clamp (t - 16) 64 260
  | Larger => clamp (t + 16) 64 260
  end.

(** The tile size after a series of clicks, from the initial 140. *)
Definition tile_after (clicks : list click) : Z :=
  fold_left (fun t c => setTile c t) clicks 140.

(** [recomputeCols]: [clientWidth] is the width of the grid element, absent
    while the element is not mounted; the column count is left alone then. *)
Definition recomputeCols (clientWidth : option Z) (tile gap cols : Z) : Z :=
  match clientWidth with
  | None => cols
  | Some w => Z.max 1 (floor_div (w + gap) (tile + gap))
  end.

Definition canLoadMore (st : state) : bool := loaded st <? maxToLoad st.

(** [items.filter((x) => !x.loading && x.svg).length], the "Loaded" figure. *)
Definition loadedCount (its : list SkullItem) : nat :=
  length (filter (fun x => negb (loading x) &&
                           match svg x with Some (_ :: _) => true | _ => false end) its).

(** The "Download sheet PNG" button of the header: the gap of the page is
    the constant 0 and the sheet is asked for at three times the tile size. *)
Definition gap : Z := 0.

Definition downloadButton_disabled (its : list SkullItem) : bool :=
  (length (downloadableVisible its) =? 0)%nat.

Definition downloadButton_onClick (env : browser) (its : list SkullItem) (tile cols : Z)
  : sheet_outcome :=
  downloadVisibleSheetPng env
    {| svgs := downloadableVisible its; tilePx := tile; gapPx := gap; cols := cols;
       outScale := Some 3 |}.

Section WithJSON.
Variable JSON_parse : jsstring -> completion json.

(** [loadMore] called [n] times in a row, each call after the previous one
    has settled: the state, and all the token ids read on the way. *)
Fixpoint loadMore_times (n : nat) (publicClient : option PublicClient) (st : state)
  : state * list Z :=
  match n with
  | O => (st, [])
  | S k =>
      let (st1, ids1) := loadMore_times k publicClient st in
      let (st2, ids2) := loadMore JSON_parse publicClient st1 in
      (st2, ids1 ++ ids2)
  end.

(** The effect that loads the first page, run in a state: its body is
    [if (!loadingCount && mintedCount > ZERO && items.length === 0) loadMore()]. *)
Definition autoLoad (publicClient : option PublicClient) (st : state) : state * list Z :=
  if negb (loadingCount st) && (mintedCount st >? ZERO) && (length (items st) =? 0)%nat
  then loadMore JSON_parse publicClient st
  else (st, []).
End WithJSON.

End GalleryControls.

(** ** Skull detail page *)

Module Detail.
Import JS.
Local Open Scope Z_scope.

(** [/^[0-9]+$/.test(tokenId)] *)
Definition isValid (tokenId : jsstring) : bool :=
  match tokenId with
  | [] => false
  | _ => forallb is_dec_digit tokenId
  end.

Record state := {
  svg : option jsstring;
  loading : bool;
  err : option jsstring
}.

Definition initial : state := {| svg := None; loading := false; err := None |}.

Section WithJSON.
Variable JSON_parse : jsstring -> completion json.

(** [fetchOne]: the state it leaves and the token ids whose [tokenURI] it
    reads.  [BigInt(tokenId)] is evaluated inside the [try]. *)
Definition fetchOne (publicClient : option (Z -> completion jsstring))
    (tokenId : jsstring) (st : state) : state * list Z :=
  match publicClient with
  | None => (st, [])
  | Some readTokenURI =>
      if negb (isValid tokenId) then (st, [])
      else
        let failed (e : exn) :=
          {| svg := None; loading := false;
             err := Some match e with
                         | Err _ m => m
                         | NonError => lit "Failed to load tokenURI"
                         end |} in
        match BigInt_of_string tokenId with
        | Throw e => (failed e, [])
        | Ok id =>
            match (let! uri := readTokenURI id in
                   Decoder.parseTokenUriToSvg JSON_parse uri) with
            | Ok parsed =>
                ({| svg := parsed; loading := false;
                    err := match parsed with
                           | Some (_ :: _) => None
                           | _ => Some (lit "Could not parse on-chain SVG.")
                           end |},
                 [id])
            | Throw e => (failed e, [id])
            end
        end
  end.
End WithJSON.

End Detail.

(** ** Mint page: labels *)

Module MintLabels.
Import JS.





End MintLabels.

(** ** From the route to the mint page *)

(** What the mint page reads of a letter of the route's answer:
    [l.tokenId], [l.name ?? null], [l.imageUrl ?? null]. *)
Definition letter_on_page (l : Indexer.LetterItem) : Mint.Letter :=
  {| Mint.tokenId := Indexer.tokenId l;
     Mint.name := Indexer.name l;
     Mint.imageUrl := Indexer.imageUrl l |}.

(** The decoding of UTF-8 octets that [decodeURIComponent] performs, told
    as a relation: [s] is the text, in UTF-16, that the octets [bs] encode. *)
Definition utf8_text (bs : list N) (s : JS.jsstring) : Prop :=
  exists cps, Forall is_scalar_value cps /\ bs = utf8_encode cps /\ s = utf16_encode cps.

(* ===================================================================== *)
(** * Properties *)
(* ===================================================================== *)

(* --------------------------------------------------------------------- *)
(** ** Sorting *)

Section SortFacts.
Variable A : Type.
Variable compare : A -> A -> Z.

Lemma sort_insert_perm (x : A) (l : list A) :
  Permutation (sort_insert compare x l) (x :: l).
Proof.
  induction l as [|y l IH]; simpl; [reflexivity|].
  destruct (compare x y <=? 0)%Z; [reflexivity|].
  rewrite IH. apply perm_swap.
Qed.

Lemma Array_sort_perm (l : list A) : Permutation (Array_sort compare l) l.
Proof.
  induction l as [|x l IH]; simpl; [reflexivity|].
  rewrite sort_insert_perm. now constructor.
Qed.

Lemma Array_sort_length (l : list A) : length (Array_sort compare l) = length l.
Proof. apply Permutation_length, Array_sort_perm. Qed.

Lemma Array_sort_In (l : list A) (x : A) : In x (Array_sort compare l) <-> In x l.
Proof.
  split; apply Permutation_in; [|symmetry]; apply Array_sort_perm.
Qed.

(** The comparators of the sources all have the shape
    [key a < key b ? -1 : 1]; [ok] delimits the elements on which the
    comparator really has that shape. *)
Variable key : A -> Z.
Variable ok : A -> Prop.
Hypothesis compare_key :
  forall a b, ok a -> ok b -> (compare a b <=? 0)%Z = (key a <? key b)%Z.

Lemma sort_insert_sorted (x : A) (l : list A) :
  ok x -> Forall ok l ->
  StronglySorted (key_le key) l -> StronglySorted (key_le key) (sort_insert compare x l).
Proof.
  intros Hx Hok Hs. induction Hs as [|y l Hs IH Hy]; simpl.
  - repeat constructor.
  - inversion Hok as [|? ? Hoky Hokl]; subst.
    rewrite (compare_key Hx Hoky).
    destruct (Z.ltb_spec (key x) (key y)) as [Hlt|Hge].
    + constructor; [now constructor|].
      constructor; [unfold key_le; lia|].
      eapply Forall_impl; [|exact Hy]. unfold key_le. intros; lia.
    + constructor; [now apply IH|].
      apply (Permutation_Forall (Permutation_sym (sort_insert_perm x l))).
      constructor; [exact Hge|exact Hy].
Qed.

Lemma Array_sort_sorted (l : list A) :
  Forall ok l -> StronglySorted (key_le key) (Array_sort compare l).
Proof.
  induction l as [|x l IH]; intros Hok; simpl; [constructor|].
  inversion Hok; subst.
  apply sort_insert_sorted; auto.
  apply (Permutation_Forall (Permutation_sym (Array_sort_perm l))). assumption.
Qed.

Lemma sorted_le_NoDup_lt (l : list A) :
  StronglySorted (key_le key) l -> NoDup (map key l) -> StronglySorted (key_lt key) l.
Proof.
  induction 1 as [|x l Hs IH Hx]; intros Hnd; [constructor|].
  simpl in Hnd. inversion Hnd as [|? ? Hnotin Hnd']; subst.
  constructor; [now apply IH|].
  rewrite Forall_forall in *. intros y Hy.
  specialize (Hx y Hy). unfold key_le, key_lt in *.
  assert (key x <> key y) by (intros E; apply Hnotin; rewrite E; now apply in_map).
  lia.
Qed.

Lemma Array_sort_strict (l : list A) :
  Forall ok l -> NoDup (map key l) -> StronglySorted (key_lt key) (Array_sort compare l).
Proof.
  intros Hok Hnd. apply sorted_le_NoDup_lt; [now apply Array_sort_sorted|].
  eapply Permutation_NoDup; [|exact Hnd].
  apply Permutation_map. symmetry. apply Array_sort_perm.
Qed.

(** Lists sorted strictly by key are determined by their elements. *)
Lemma strict_sorted_unique (l1 l2 : list A) :
  StronglySorted (key_lt key) l1 -> StronglySorted (key_lt key) l2 ->
  (forall x, In x l1 <-> In x l2) -> l1 = l2.
Proof.
  intros H1. revert l2. induction H1 as [|x l1 Hs1 IH Hx]; intros l2 H2 Hin.
  - destruct l2 as [|y l2]; [reflexivity|].
    exfalso. apply (proj2 (Hin y)). now left.
  - destruct H2 as [|y l2 Hs2 Hy].
    + exfalso. apply (proj1 (Hin x)). now left.
    + rewrite Forall_forall in Hx, Hy.
      assert (Exy : x = y).
      { destruct (proj1 (Hin x) (or_introl eq_refl)) as [E|Hxin]; [now symmetry|].
        destruct (proj2 (Hin y) (or_introl eq_refl)) as [E|Hyin]; [exact E|].
        specialize (Hx y Hyin). specialize (Hy x Hxin).
        unfold key_lt in *. lia. }
      subst y. f_equal. apply IH; [exact Hs2|].
      intros z. split; intros Hz.
      * destruct (proj1 (Hin z) (or_intror Hz)) as [E|Hz']; [|exact Hz'].
        subst z. specialize (Hx x Hz). unfold key_lt in Hx. lia.
      * destruct (proj2 (Hin z) (or_intror Hz)) as [E|Hz']; [|exact Hz'].
        subst z. specialize (Hy x Hz). unfold key_lt in Hy. lia.
Qed.
End SortFacts.

(* --------------------------------------------------------------------- *)
(** ** Mint page *)

Section MintFacts.
Import Mint.
Local Open Scope Z_scope.

Lemma mintable_iff (x : Item) :
  mintable x = true <->
  loading x = false /\ usedLetter x = false /\ skullTokenId x = 0.
Proof.
  unfold mintable, ZERO.
  rewrite !andb_true_iff, !negb_true_iff, Z.eqb_eq. tauto.
Qed.

Lemma minted_iff (x : Item) :
  minted x = true <-> usedLetter x = true \/ skullTokenId x <> 0.
Proof.
  unfold minted, ZERO.
  rewrite orb_true_iff, negb_true_iff, Z.eqb_neq. tauto.
Qed.

Lemma mintableCount_app (l1 l2 : list Item) :
  mintableCount (l1 ++ l2) = (mintableCount l1 + mintableCount l2)%nat.
Proof. unfold mintableCount. now rewrite filter_app, length_app. Qed.

Lemma mintableCount_cons (x : Item) (l : list Item) :
  mintableCount (x :: l) = ((if mintable x then 1 else 0) + mintableCount l)%nat.
Proof. unfold mintableCount. simpl. now destruct (mintable x). Qed.

(** The dual read, when both reads resolve. *)
Lemma hydrate_try_unminted client it used :
  usedLetterToken client (letterTokenId it) = Ok used ->
  skullOfLetter client (letterTokenId it) = Ok 0 ->
  hydrate_try client it =
  (Ok {| letterTokenId := letterTokenId it; letterName := letterName it;
         letterImageUrl := letterImageUrl it;
         usedLetter := used; skullTokenId := 0;
         skullOwner := None; skullNonce := 0; skullSvg := None;
         loading := false |},
   [ReadUsedLetterToken (letterTokenId it); ReadSkullOfLetter (letterTokenId it)]).
Proof.
  intros Hu Hs. unfold hydrate_try, readContract. rewrite Hu, Hs. simpl.
  now rewrite orb_true_r.
Qed.

Lemma hydrate_try_minted client it used skull owner nonce svg :
  usedLetterToken client (letterTokenId it) = Ok used ->
  skullOfLetter client (letterTokenId it) = Ok skull ->
  skull <> 0 ->
  ownerOf client skull = Ok owner ->
  nonceOf client skull = Ok nonce ->
  previewSvg client (letterTokenId it) nonce = Ok svg ->
  hydrate_try client it =
  (Ok {| letterTokenId := letterTokenId it; letterName := letterName it;
         letterImageUrl := letterImageUrl it;
         usedLetter := used; skullTokenId := skull;
         skullOwner := Some owner; skullNonce := nonce; skullSvg := Some svg;
         loading := false |},
   [ReadUsedLetterToken (letterTokenId it); ReadSkullOfLetter (letterTokenId it);
    ReadOwnerOf skull; ReadNonceOf skull; ReadPreviewSvg (letterTokenId it) nonce]).
Proof.
  intros Hu Hs Hne Ho Hn Hp. unfold hydrate_try, readContract. rewrite Hu, Hs. simpl.
  apply Z.eqb_neq in Hne. unfold ZERO. rewrite Hne. simpl.
  rewrite orb_true_r. simpl. rewrite Ho, Hn. simpl. now rewrite Hp.
Qed.

(** When the [try] block throws, the callback answers the item it was
    given, with [loading] cleared. *)
Lemma hydrate_item_catch client it e t :
  hydrate_try client it = (Throw e, t) ->
  hydrate_item client it = (set_loading false it, t).
Proof. intros H. unfold hydrate_item. now rewrite H. Qed.

Lemma hydrate_item_dual_read_fails client it :
  (exists e, usedLetterToken client (letterTokenId it) = Throw e) \/
  (exists e, skullOfLetter client (letterTokenId it) = Throw e) ->
  hydrate_item client it =
  (set_loading false it,
   [ReadUsedLetterToken (letterTokenId it); ReadSkullOfLetter (letterTokenId it)]).
Proof.
  intros H. unfold hydrate_item, hydrate_try, readContract.
  destruct H as [[e H] | [e H]]; rewrite H.
  - now destruct (skullOfLetter client (letterTokenId it)).
  - now destruct (usedLetterToken client (letterTokenId it)).
Qed.

Lemma disableMint_loading p c x : loading x = true -> disableMint p c x = true.
Proof. intros H. unfold disableMint. rewrite H. now rewrite !orb_true_r. Qed.

Lemma disableMint_minted p c x : minted x = true -> disableMint p c x = true.
Proof. intros H. unfold disableMint. now rewrite H. Qed.

Lemma hydrateSkulls_items client current items :
  current <> [] ->
  fst (hydrateSkulls (Some client) current items) =
  map (fun it => fst (hydrate_item client it)) (firstn 80 current)
  ++ skipn (length (firstn 80 current)) (map (set_loading true) items).
Proof.
  intros Hne. unfold hydrateSkulls. destruct current as [|c0 cs]; [congruence|].
  cbv zeta. cbn [fst]. now rewrite !length_map, map_map.
Qed.

Lemma hydrateSkulls_reads client current items :
  snd (hydrateSkulls (Some client) current items) =
  flat_map (fun it => snd (hydrate_item client it)) (firstn 80 current).
Proof.
  unfold hydrateSkulls. destruct current as [|c0 cs]; [reflexivity|].
  cbv zeta. cbn [snd]. now rewrite map_map, flat_map_concat_map.
Qed.

(** Every run of the callback issues the used-flag read exactly once. *)
Lemma hydrate_item_one_dual_read client it :
  length (filter is_dual_read (snd (hydrate_item client it))) = 1%nat.
Proof.
  unfold hydrate_item, hydrate_try, readContract, try_catch, await, Promise_all2, ret.
  destruct (usedLetterToken client (letterTokenId it)) as [u|e],
           (skullOfLetter client (letterTokenId it)) as [k|e']; try reflexivity.
  destruct (negb (u || negb (k =? ZERO)) || (k =? ZERO)); [reflexivity|].
  destruct (ownerOf client k), (nonceOf client k) as [n|]; try reflexivity.
  now destruct (previewSvg client (letterTokenId it) n).
Qed.

Lemma dual_reads_count client (l : list Item) :
  length (filter is_dual_read (flat_map (fun it => snd (hydrate_item client it)) l))
  = length l.
Proof.
  induction l as [|x l IH]; [reflexivity|].
  simpl. rewrite filter_app, length_app, IH, hydrate_item_one_dual_read. reflexivity.
Qed.

End MintFacts.

(** C1. Mint eligibility.  For an item whose reconciliation reads resolve
    (the used flag is [used], the skull id is [skull], and the follow-up
    reads resolve when the skull id is not zero), the item written back
    carries those two reads; it is shown as minted iff [used] holds or
    [skull] is not zero, and it is mintable iff [used] is false and [skull]
    is zero.  Any item counts as mintable exactly when it is not loading,
    its used flag is false and its skull id is zero, and [mintableCount]
    counts exactly those.  When the skull id read is zero, only the two
    reads of the dual read are issued (no owner, nonce or preview read) and
    owner, nonce and SVG are cleared; if moreover [used] holds the item is
    minted, not mintable, and its mint button is disabled. *)
Theorem C1_mint_eligibility
  (client : Mint.PublicClient) (it : Mint.Item) (used : bool) (skull : Z) :
  Mint.usedLetterToken client (Mint.letterTokenId it) = Ok used ->
  Mint.skullOfLetter client (Mint.letterTokenId it) = Ok skull ->
  (skull <> 0%Z -> exists owner nonce svg,
      Mint.ownerOf client skull = Ok owner /\
      Mint.nonceOf client skull = Ok nonce /\
      Mint.previewSvg client (Mint.letterTokenId it) nonce = Ok svg) ->
  let it' := fst (Mint.hydrate_item client it) in
  let reads := snd (Mint.hydrate_item client it) in
  (Mint.usedLetter it' = used /\ Mint.skullTokenId it' = skull /\ Mint.loading it' = false) /\
  (Mint.minted it' = true <-> used = true \/ skull <> 0%Z) /\
  (Mint.mintable it' = true <-> used = false /\ skull = 0%Z) /\
  (forall x, Mint.mintable x = true <->
             Mint.loading x = false /\ Mint.usedLetter x = false /\ Mint.skullTokenId x = 0%Z) /\
  (forall x l, Mint.mintableCount (x :: l) =
               (if Mint.mintable x then 1 else 0) + Mint.mintableCount l) /\
  (skull = 0%Z ->
     reads = [Mint.ReadUsedLetterToken (Mint.letterTokenId it);
              Mint.ReadSkullOfLetter (Mint.letterTokenId it)] /\
     Mint.skullOwner it' = None /\ Mint.skullNonce it' = 0%Z /\ Mint.skullSvg it' = None /\
     (used = true ->
        Mint.minted it' = true /\ Mint.mintable it' = false /\
        forall isPending isConfirming, Mint.disableMint isPending isConfirming it' = true)).
Proof.
  intros Hu Hs Hfollow it' reads.
  assert (Hfields : Mint.usedLetter it' = used /\ Mint.skullTokenId it' = skull
                    /\ Mint.loading it' = false).
  { subst it'. unfold Mint.hydrate_item.
    destruct (Z.eq_dec skull 0) as [->|Hne].
    - rewrite (hydrate_try_unminted client it Hu Hs). now simpl.
    - destruct (Hfollow Hne) as (o & n & sv & Ho & Hn & Hp).
      rewrite (hydrate_try_minted client it Hu Hs Hne Ho Hn Hp). now simpl. }
  split; [exact Hfields|].
  destruct Hfields as (Hused & Hskull & Hload).
  split; [rewrite minted_iff, Hused, Hskull; tauto|].
  split; [rewrite mintable_iff, Hused, Hskull, Hload; tauto|].
  split; [apply mintable_iff|].
  split; [apply mintableCount_cons|].
  intros Hz.
  assert (Hm : used = true -> Mint.minted it' = true).
  { intros Ht. apply minted_iff. left. now rewrite Hused. }
  assert (Hn : used = true -> Mint.mintable it' = false).
  { intros Ht. apply not_true_is_false. rewrite mintable_iff, Hused. intros (_ & Hf & _).
    rewrite Ht in Hf. discriminate. }
  clear Hused Hskull Hload Hfollow. rewrite Hz in Hs.
  assert (E := hydrate_try_unminted client it Hu Hs).
  subst it' reads. unfold Mint.hydrate_item in *. rewrite E in *.
  cbn [fst snd Mint.try_catch] in *.
  split; [reflexivity|]. split; [reflexivity|]. split; [reflexivity|].
  split; [reflexivity|]. intros Ht.
  split; [now apply Hm|]. split; [now apply Hn|].
  intros p c. apply disableMint_minted. now apply Hm.
Qed.

Lemma C1_mint_eligibility_witness :
  let it := Mint.fresh_item (7%Z, None, None) in
  let it' := fst (Mint.hydrate_item used_without_skull it) in
  Mint.minted it' = true /\ Mint.mintable it' = false /\
  snd (Mint.hydrate_item used_without_skull it)
  = [Mint.ReadUsedLetterToken 7; Mint.ReadSkullOfLetter 7].
Proof.
  intros it it'.
  destruct (@C1_mint_eligibility used_without_skull it true 0%Z)
    as (_ & _ & _ & _ & _ & H).
  - reflexivity.
  - reflexivity.
  - intros Hne. exfalso. apply Hne. reflexivity.
  - destruct (H eq_refl) as (Hreads & _ & _ & _ & Hm).
    destruct (Hm eq_refl) as (Hminted & Hnot & _).
    exact (conj Hminted (conj Hnot Hreads)).
Defined.

(** After a failed reconciliation an item is mintable exactly when the flags
    it already carried say so: the loading flag no longer holds it back. *)
Lemma mintable_after_failed_reads client it e t :
  Mint.hydrate_try client it = (Throw e, t) ->
  Mint.mintable (fst (Mint.hydrate_item client it))
  = negb (Mint.usedLetter it) && (Mint.skullTokenId it =? Mint.ZERO)%Z.
Proof.
  intros H. rewrite (hydrate_item_catch client it H). reflexivity.
Qed.

(** C2. Failed reconciliation of a freshly listed Letter.  The item that
    [loadLettersFromApi] creates for Letter 7 is not mintable while it
    loads.  When the reads of its reconciliation reject, the callback
    answers that same item with only [loading] cleared; the item is then
    counted mintable and its mint button is enabled, although no read has
    confirmed that the Letter is unused.  The same happens when the dual
    read resolves and says that the Letter has minted Skull 5, and only
    the read of the owner rejects. *)
Theorem C2_failed_read_leaves_fresh_item_mintable :
  let it := Mint.fresh_item (7%Z, None, None) in
  let it' := fst (Mint.hydrate_item unreachable_chain it) in
  Mint.mintable it = false /\
  it' = Mint.set_loading false it /\
  Mint.mintable it' = true /\
  Mint.disableMint false false it' = false /\
  fst (Mint.loadLettersFromApi (Some unreachable_chain)
         [{| Mint.tokenId := lit "7"; Mint.name := None; Mint.imageUrl := None |}])
  = [it'] /\
  Mint.mintableCount [it'] = 1%nat /\
  Mint.hydrate_item owner_unreadable it
  = (Mint.set_loading false it,
     [Mint.ReadUsedLetterToken 7; Mint.ReadSkullOfLetter 7;
      Mint.ReadOwnerOf 5; Mint.ReadNonceOf 5]) /\
  Mint.mintable (fst (Mint.hydrate_item owner_unreadable it)) = true.
Proof. repeat split. Qed.

(** C9. Reconciliation is bounded to the first 80 items.  When
    [hydrateSkulls] is given more than 80 items, it issues the dual read
    80 times, every read it issues belongs to the reconciliation of one of
    the first 80 items, and an item of the page state at index 80 or beyond
    is written back as it was, with [loading] set by the pre-mark: it is not
    mintable, a list made of such items counts no mintable item, and its
    mint button is disabled. *)
Theorem C9_tail_stays_loading
  (client : Mint.PublicClient) (current items : list Mint.Item) :
  (80 < length current)%nat ->
  let items' := fst (Mint.hydrateSkulls (Some client) current items) in
  let reads := snd (Mint.hydrateSkulls (Some client) current items) in
  length (filter is_dual_read reads) = 80%nat /\
  (forall r, In r reads ->
     exists j it, (j < 80)%nat /\ nth_error current j = Some it /\
                  In r (snd (Mint.hydrate_item client it))) /\
  (forall i x, (80 <= i)%nat -> nth_error items i = Some x ->
     nth_error items' i = Some (Mint.set_loading true x) /\
     Mint.loading (Mint.set_loading true x) = true /\
     Mint.mintable (Mint.set_loading true x) = false /\
     forall isPending isConfirming,
       Mint.disableMint isPending isConfirming (Mint.set_loading true x) = true) /\
  Mint.mintableCount (skipn 80 items') = 0%nat.
Proof.
  intros Hlen items' reads.
  assert (Hne : current <> []) by (destruct current; simpl in *; [lia|congruence]).
  assert (H80 : length (firstn 80 current) = 80%nat) by (rewrite length_firstn; lia).
  assert (Hitems := hydrateSkulls_items client items Hne).
  assert (Hreads := hydrateSkulls_reads client current items).
  fold items' in Hitems. fold reads in Hreads. rewrite H80 in Hitems.
  split; [|split; [|split]].
  - rewrite Hreads, dual_reads_count. exact H80.
  - intros r Hr. rewrite Hreads in Hr. apply in_flat_map in Hr.
    destruct Hr as (it & Hin & Hr).
    apply In_nth_error in Hin. destruct Hin as (j & Hj).
    assert (Hjlt : (j < 80)%nat).
    { rewrite <- H80. apply nth_error_Some. congruence. }
    exists j, it. split; [exact Hjlt|]. split; [|exact Hr].
    now rewrite nth_error_firstn in Hj; destruct (Nat.ltb_spec j 80); [|lia].
  - intros i x Hi Hx. split.
    + rewrite Hitems. rewrite nth_error_app2 by (rewrite length_map, H80; exact Hi).
      rewrite length_map, H80, nth_error_skipn, nth_error_map.
      replace (80 + (i - 80))%nat with i by lia. now rewrite Hx.
    + split; [reflexivity|]. split.
      * unfold Mint.mintable. reflexivity.
      * intros p c. now apply disableMint_loading.
  - rewrite Hitems.
    rewrite skipn_app, length_map, H80, Nat.sub_diag.
    rewrite (skipn_all2 (n := 80)) by (rewrite length_map, H80; lia).
    change (skipn 0 ?l) with l. rewrite app_nil_l.
    unfold Mint.mintableCount.
    rewrite skipn_map. generalize (skipn 80 items). intros l.
    induction l as [|y l IH]; [reflexivity|exact IH].
Qed.

Lemma C9_tail_stays_loading_witness :
  let current := map (fun k => Mint.fresh_item (Z.of_nat k, None, None)) (seq 1 82) in
  let items' := fst (Mint.hydrateSkulls (Some used_without_skull) current current) in
  nth_error items' 81
  = Some (Mint.set_loading true (Mint.fresh_item (82%Z, None, None))) /\
  Mint.mintableCount (skipn 80 items') = 0%nat.
Proof.
  intros current items'.
  destruct (@C9_tail_stays_loading used_without_skull current current)
    as (_ & _ & Htail & Hcount).
  - vm_compute. lia.
  - split; [|exact Hcount].
    apply (Htail 81%nat (Mint.fresh_item (82%Z, None, None))); [lia|reflexivity].
Defined.

(* --------------------------------------------------------------------- *)
(** ** Token-URI decoder: the prefix gate *)

Lemma startsWith_iff (s p : jsstring) :
  startsWith s p = true <-> exists rest, s = p ++ rest.
Proof.
  revert s. induction p as [|c p IH]; intros s; simpl.
  - split; [intros _; now exists s|reflexivity].
  - destruct s as [|d s].
    + split; [discriminate|]. intros (rest & H). discriminate.
    + rewrite andb_true_iff, N.eqb_eq, IH. split.
      * intros (-> & rest & ->). now exists rest.
      * intros (rest & H). injection H as -> ->. split; [reflexivity|now exists rest].
Qed.

(** C3. Prefix gate of the decoder.  Whatever [JSON.parse] does, an input
    that is not the text [data:application/json;base64,] followed by
    something makes [parseTokenUriToSvg] return [null]; it does not throw. *)
Theorem C3_prefix_gate
  (JSON_parse : jsstring -> completion json) (tokenUri : jsstring) :
  (forall rest, tokenUri <> lit "data:application/json;base64," ++ rest) ->
  Decoder.parseTokenUriToSvg JSON_parse tokenUri = Ok None.
Proof.
  intros H. unfold Decoder.parseTokenUriToSvg.
  destruct (startsWith tokenUri (lit "data:application/json;base64,")) eqn:E.
  - apply startsWith_iff in E. destruct E as (rest & E). now apply H in E.
  - reflexivity.
Qed.

Lemma C3_prefix_gate_witness :
  Decoder.parseTokenUriToSvg (fun _ => Throw NonError)
    (lit "data:application/json;base65,e30=") = Ok None.
Proof.
  apply C3_prefix_gate. intros rest H. vm_compute in H. discriminate.
Defined.

(* --------------------------------------------------------------------- *)
(** ** Sheet compositor *)

Lemma nth_error_indexed {A : Type} (l : list A) (start i : nat) (x : A) :
  nth_error l i = Some x ->
  nth_error (combine (seq start (length l)) l) i = Some ((start + i)%nat, x).
Proof.
  revert start i. induction l as [|y l IH]; intros start i H.
  - destruct i; discriminate.
  - destruct i as [|i]; simpl in *.
    + injection H as ->. now rewrite Nat.add_0_r.
    + rewrite (IH (S start) i H). f_equal. f_equal. lia.
Qed.

Lemma ceil_div_spec (n c : Z) :
  (0 < c)%Z -> ((Gallery.ceil_div n c - 1) * c < n <= Gallery.ceil_div n c * c)%Z.
Proof.
  intros Hc. unfold Gallery.ceil_div.
  pose proof (Z.div_mod (- n) c ltac:(lia)) as Hdm.
  pose proof (Z.mod_pos_bound (- n) c Hc) as Hb. nia.
Qed.

(** C7. Geometry of the sheet.  For a non-empty list of [n] tiles, a
    positive column count, an available 2d context and SVGs that all load,
    the canvas is [cols*tile*scale + (cols-1)*gap*scale] wide and
    [rows*tile*scale + (rows-1)*gap*scale] high, where [rows] is the least
    integer with [n <= rows*cols] (the ceiling of [n/cols]); one image is
    drawn per tile, and tile [i] is drawn with side [tile*scale] at column
    [i mod cols] and row [i / cols], that is at
    [(col*(tile*scale+gap*scale), row*(tile*scale+gap*scale))].  With 7
    tiles, 3 columns, tile 140, gap 0 and scale 3 there are 3 rows and the
    canvas is 1260 by 1260. *)
Theorem C7_sheet_geometry (env : Gallery.browser) (opts : Gallery.sheet_opts) :
  let n := Z.of_nat (length (Gallery.svgs opts)) in
  let cols := Gallery.cols opts in
  let tile := Gallery.tilePx opts in
  let gap := Gallery.gapPx opts in
  let scale := match Gallery.outScale opts with Some s => s | None => 2%Z end in
  Gallery.svgs opts <> [] ->
  (0 < cols)%Z ->
  Gallery.has_2d_context env = true ->
  (forall p, In p (Gallery.svgs opts) -> Gallery.svg_loads env (snd p) = true) ->
  exists (c : Gallery.canvas) (rows : Z),
    Gallery.downloadVisibleSheetPng env opts = Gallery.SheetSaved c /\
    ((rows - 1) * cols < n <= rows * cols)%Z /\
    Gallery.width c = (cols * tile * scale + (cols - 1) * gap * scale)%Z /\
    Gallery.height c = (rows * tile * scale + (rows - 1) * gap * scale)%Z /\
    length (Gallery.drawn c) = length (Gallery.svgs opts) /\
    (forall i p, nth_error (Gallery.svgs opts) i = Some p ->
       let row := (Z.of_nat i / cols)%Z in
       let col := (Z.of_nat i mod cols)%Z in
       nth_error (Gallery.drawn c) i =
       Some {| Gallery.img_svg := snd p; Gallery.img_px := (tile * scale)%Z;
               Gallery.dx := (col * (tile * scale + gap * scale))%Z;
               Gallery.dy := (row * (tile * scale + gap * scale))%Z;
               Gallery.dw := (tile * scale)%Z; Gallery.dh := (tile * scale)%Z |}) /\
    (n = 7%Z -> cols = 3%Z -> tile = 140%Z -> gap = 0%Z -> scale = 3%Z ->
     rows = 3%Z /\ Gallery.width c = 1260%Z /\ Gallery.height c = 1260%Z).
Proof.
  intros n cols tile gap scale Hne Hcols Hctx Hloads.
  unfold Gallery.downloadVisibleSheetPng.
  fold n. fold cols. fold tile. fold gap.
  assert (Hn : (n =? 0)%Z = false).
  { apply Z.eqb_neq. subst n. destruct (Gallery.svgs opts); [congruence|simpl; lia]. }
  rewrite Hn, Hctx. simpl negb. cbv iota.
  assert (Hall : forallb (fun p => Gallery.svg_loads env (snd p)) (Gallery.svgs opts) = true)
    by (apply forallb_forall; exact Hloads).
  rewrite Hall. simpl negb. cbv iota.
  pose proof (ceil_div_spec n Hcols) as Hrows.
  eexists. exists (Gallery.ceil_div n cols).
  split; [reflexivity|]. cbn [Gallery.width Gallery.height Gallery.drawn].
  split; [exact Hrows|]. fold scale.
  split; [ring|]. split; [ring|].
  split; [now rewrite length_map, length_combine, length_seq, Nat.min_id|].
  split.
  - intros i p Hi.
    rewrite nth_error_map, (nth_error_indexed _ 0 _ Hi). cbn [option_map fst snd Nat.add].
    unfold Gallery.floor_div. rewrite Z.rem_mod_nonneg by lia. reflexivity.
  - intros H7 H3 Ht Hg Hs.
    assert (Hr : Gallery.ceil_div n cols = 3%Z) by (rewrite H7, H3; reflexivity).
    rewrite Hr, H3, Ht, Hg, Hs. repeat split.
Qed.

Lemma C7_sheet_geometry_witness :
  exists c,
    Gallery.downloadVisibleSheetPng
      {| Gallery.has_2d_context := true; Gallery.svg_loads := fun _ => true |}
      {| Gallery.svgs := map (fun z => (z, lit "<svg/>")) [1; 2; 3; 4; 5; 6; 7]%Z;
         Gallery.tilePx := 140; Gallery.gapPx := 0; Gallery.cols := 3;
         Gallery.outScale := Some 3%Z |}
    = Gallery.SheetSaved c /\
    Gallery.width c = 1260%Z /\ Gallery.height c = 1260%Z.
Proof.
  pose proof (@C7_sheet_geometry
              {| Gallery.has_2d_context := true; Gallery.svg_loads := fun _ => true |}
              {| Gallery.svgs := map (fun z => (z, lit "<svg/>")) [1; 2; 3; 4; 5; 6; 7]%Z;
                 Gallery.tilePx := 140; Gallery.gapPx := 0; Gallery.cols := 3;
                 Gallery.outScale := Some 3%Z |}) as H.
  cbv zeta in H.
  specialize (H ltac:(simpl; discriminate) ltac:(simpl; lia) eq_refl (fun _ _ => eq_refl)).
  destruct H as (c & rows & Hrun & _ & _ & _ & _ & _ & Hex).
  exists c. split; [exact Hrun|].
  destruct Hex as (_ & Hw & Hh); try reflexivity. now split.
Defined.

(* --------------------------------------------------------------------- *)
(** ** Gallery pagination *)

Lemma batch_ids_length (a b : Z) :
  length (Gallery.batch_ids a b) = Z.to_nat (b - a + 1).
Proof. unfold Gallery.batch_ids. now rewrite length_map, length_seq. Qed.

Lemma batch_ids_nth (a b : Z) (k : nat) :
  (k < Z.to_nat (b - a + 1))%nat ->
  nth_error (Gallery.batch_ids a b) k = Some (a + Z.of_nat k)%Z.
Proof.
  intros Hk. unfold Gallery.batch_ids.
  rewrite nth_error_map.
  assert (H : nth_error (seq 0 (Z.to_nat (b - a + 1))) k = Some k).
  { rewrite nth_error_nth' with (d := 0%nat) by (now rewrite length_seq).
    now rewrite seq_nth. }
  now rewrite H.
Qed.

Lemma batch_ids_In (a b x : Z) :
  In x (Gallery.batch_ids a b) <-> (a <= x <= b)%Z.
Proof.
  unfold Gallery.batch_ids. rewrite in_map_iff. split.
  - intros (k & <- & Hk). apply in_seq in Hk. lia.
  - intros H. exists (Z.to_nat (x - a)). split; [lia|]. apply in_seq. lia.
Qed.

(** C6. Pagination step.  The supply stored after the next-id read is
    [nextId - 1] when [nextId > 0] and 0 otherwise.  In a state with that
    supply and a connected client, [loadMore] called with the watermark
    below the supply reads the token URIs of exactly the ids
    [loaded+1 .. min(loaded+80, supply)], in ascending order and without a
    gap, and moves the watermark to the end of that range; called with the
    watermark at or beyond the supply it reads nothing and leaves the state
    as it is. *)
Theorem C6_pagination_step
  (JSON_parse : jsstring -> completion json) (client : Gallery.PublicClient)
  (st0 : Gallery.state) (nextId : Z) :
  Gallery.read_nextTokenId client = Ok nextId ->
  let supply := if (0 <? nextId)%Z then (nextId - 1)%Z else 0%Z in
  Gallery.mintedCount (Gallery.fetchMintedCount (Some client) st0) = supply /\
  Gallery.maxToLoad (Gallery.fetchMintedCount (Some client) st0) = supply /\
  Gallery.pageSize = 80%Z /\
  forall st, Gallery.mintedCount st = supply ->
    let loaded := Gallery.loaded st in
    let last := Z.min (loaded + 80) supply in
    let st' := fst (Gallery.loadMore JSON_parse (Some client) st) in
    let ids := snd (Gallery.loadMore JSON_parse (Some client) st) in
    ((loaded < supply)%Z ->
       Gallery.loaded st' = last /\
       Z.of_nat (length ids) = (last - loaded)%Z /\
       (forall k, (k < length ids)%nat -> nth_error ids k = Some (loaded + 1 + Z.of_nat k)%Z) /\
       (forall id, In id ids <-> (loaded + 1 <= id <= last)%Z)) /\
    ((supply <= loaded)%Z -> st' = st /\ ids = []).
Proof.
  intros Hread supply.
  assert (Hsupply : (0 <= supply)%Z) by (subst supply; destruct (Z.ltb_spec 0 nextId); lia).
  assert (Hmc : Gallery.mintedCount (Gallery.fetchMintedCount (Some client) st0) = supply).
  { unfold Gallery.fetchMintedCount. rewrite Hread. cbn [Gallery.mintedCount].
    unfold Gallery.ZERO, supply. rewrite Z.gtb_ltb. reflexivity. }
  assert (Hmax : forall st, Gallery.mintedCount st = supply -> Gallery.maxToLoad st = supply).
  { intros st H. unfold Gallery.maxToLoad. rewrite H.
    destruct (Z.ltb_spec supply 0); [lia|reflexivity]. }
  split; [exact Hmc|]. split; [now apply Hmax|]. split; [reflexivity|].
  intros st Hst loaded last st' ids.
  subst st' ids. unfold Gallery.loadMore. rewrite (Hmax st Hst). fold loaded.
  unfold Gallery.pageSize. fold last.
  split.
  - intros Hlt. rewrite Z.geb_leb.
    destruct (Z.leb_spec supply loaded) as [Hle|_]; [lia|].
    cbn [fst snd Gallery.loaded].
    assert (Hlast : (loaded + 1 <= last)%Z) by (subst last; lia).
    split; [reflexivity|].
    split; [rewrite batch_ids_length; lia|].
    split.
    + intros k Hk. rewrite batch_ids_length in Hk. now apply batch_ids_nth.
    + intros id. apply batch_ids_In.
  - intros Hge. rewrite Z.geb_leb.
    destruct (Z.leb_spec supply loaded) as [_|Hlt]; [|lia]. now split.
Qed.

Lemma C6_pagination_step_witness :
  let st := Gallery.fetchMintedCount (Some chain_of_200) Gallery.initial in
  Gallery.mintedCount st = 200%Z /\
  Gallery.loaded (fst (Gallery.loadMore (fun _ => Throw NonError) (Some chain_of_200) st))
  = 80%Z /\
  Z.of_nat (length (snd (Gallery.loadMore (fun _ => Throw NonError) (Some chain_of_200) st)))
  = 80%Z.
Proof.
  intros st.
  pose proof (@C6_pagination_step (fun _ => Throw NonError) chain_of_200
                Gallery.initial 201%Z eq_refl) as H.
  cbv zeta in H. destruct H as (Hmc & _ & _ & Hstep).
  split; [exact Hmc|].
  destruct (Hstep st Hmc) as (Hmore & _).
  destruct (Hmore ltac:(vm_compute; reflexivity)) as (Hloaded & Hlen & _).
  split; [exact Hloaded|exact Hlen].
Defined.

(* --------------------------------------------------------------------- *)
(** ** Indexer proxy route *)

Lemma mapM_length {A B : Type} (f : A -> completion B) (l : list A) (r : list B) :
  mapM f l = Ok r -> length r = length l.
Proof.
  revert r. induction l as [|a l IH]; intros r H; simpl in H.
  - injection H as <-. reflexivity.
  - destruct (f a) as [b|e]; [|discriminate]. simpl in H.
    destruct (mapM f l) as [bs|e]; [|discriminate]. simpl in H.
    injection H as <-. simpl. f_equal. now apply IH.
Qed.

Lemma mapM_Forall2 {A B : Type} (f : A -> completion B) (l : list A) (r : list B) :
  mapM f l = Ok r -> Forall2 (fun a b => f a = Ok b) l r.
Proof.
  revert r. induction l as [|a l IH]; intros r H; simpl in H.
  - injection H as <-. constructor.
  - destruct (f a) as [b|e] eqn:E; [|discriminate]. simpl in H.
    destruct (mapM f l) as [bs|e]; [|discriminate]. simpl in H.
    injection H as <-. constructor; [exact E|now apply IH].
Qed.

Lemma safeParse_accepts isAddress b a :
  Indexer.safeParse isAddress b = inl a <-> well_formed_address_body isAddress b a.
Proof.
  unfold Indexer.safeParse, well_formed_address_body. split.
  - destruct b as [| | | |els|props]; try discriminate.
    destruct (lookup_prop (lit "address") props) as [[| | |s| |]|] eqn:E; try discriminate.
    destruct (isAddress s) eqn:Ea; [|discriminate].
    intros H. injection H as <-. now exists props.
  - intros (props & -> & Hl & Ha). now rewrite Hl, Ha.
Qed.

Lemma safeParse_rejects isAddress b :
  (forall a, ~ well_formed_address_body isAddress b a) ->
  exists issue,
    Indexer.safeParse isAddress b = inr [issue] /\
    ((exists props, b = JObject props) -> Indexer.path issue = [lit "address"]).
Proof.
  intros H. destruct (Indexer.safeParse isAddress b) as [a|issues] eqn:E.
  - apply safeParse_accepts in E. now apply H in E.
  - revert E. unfold Indexer.safeParse.
    destruct b as [| | | |els|props];
      try (intros E; injection E as <-; eexists; split; [reflexivity|];
           intros (props' & Hp); discriminate).
    destruct (lookup_prop (lit "address") props) as [[| | |s| |]|];
      try (intros E; injection E as <-; eexists; split; reflexivity).
    destruct (isAddress s); [discriminate|].
    intros E; injection E as <-; eexists; split; reflexivity.
Qed.

(** C8. Error contract of the route.  A request whose JSON body is not an
    object with a well-formed [address] string is answered with status 400,
    the error [Validation failed] and one issue naming the field and the
    reason, and no call to the indexing service is made.  A request with a
    valid body for which the ownership query of the indexing service throws
    is answered with status 500 and the error [Failed to fetch NFTs].  When
    the query and the normalisation of the token ids succeed, the answer is
    status 200 with [success: true], the address, the Letter contract and
    one letter per owned token; a metadata read that throws only leaves the
    name, image and token URI of its letter empty. *)
Theorem C8_proxy_error_contract
  (isAddress : jsstring -> bool) (stringify_thrown : jsstring)
  (sdk : Indexer.Alchemy) (b : json) :
  let run := Indexer.POST isAddress stringify_thrown sdk (Ok b) in
  ((forall a, ~ well_formed_address_body isAddress b a) ->
     exists issue,
       run = ({| Indexer.status := 400;
                 Indexer.body := Indexer.ErrorDetails (lit "Validation failed") [issue] |},
              []) /\
       ((exists props, b = JObject props) -> Indexer.path issue = [lit "address"])) /\
  (forall a e,
     well_formed_address_body isAddress b a ->
     Indexer.getNftsForOwner sdk a = Throw e ->
     fst run = {| Indexer.status := 500;
                  Indexer.body :=
                    Indexer.ErrorMessage (lit "Failed to fetch NFTs")
                      (Indexer.toErrorMessage stringify_thrown e) |}) /\
  (forall a owned ids,
     well_formed_address_body isAddress b a ->
     Indexer.getNftsForOwner sdk a = Ok owned ->
     mapM Indexer.parseAlchemyTokenIdToDecimal owned = Ok ids ->
     exists letters,
       fst run = {| Indexer.status := 200;
                    Indexer.body :=
                      Indexer.Letters true a Indexer.LETTER_CONTRACT_ADDRESS letters |} /\
       length letters = length owned /\
       Permutation (map Indexer.tokenId letters) ids /\
       (forall l e, In l letters ->
          Indexer.getNftMetadata sdk (Indexer.tokenId l) = Throw e ->
          Indexer.name l = None /\ Indexer.imageUrl l = None /\ Indexer.tokenUri l = None)).
Proof.
  intros run. subst run. unfold Indexer.POST. split; [|split].
  - intros H. destruct (safeParse_rejects H) as (issue & E & Hp).
    exists issue. rewrite E. split; [reflexivity|exact Hp].
  - intros a e Hb Hthrow. apply safeParse_accepts in Hb. now rewrite Hb, Hthrow.
  - intros a owned ids Hb Hown Hids. apply safeParse_accepts in Hb.
    rewrite Hb, Hown, Hids. eexists. split; [reflexivity|]. split; [|split].
    3:{ intros l e Hl Hthrow. apply in_map_iff in Hl. destruct Hl as (x & <- & _).
        assert (Hx : Indexer.tokenId (Indexer.letter_of sdk x) = x)
          by (unfold Indexer.letter_of; now destruct (Indexer.getNftMetadata sdk x)).
        rewrite Hx in Hthrow. unfold Indexer.letter_of. rewrite Hthrow. now repeat split. }
    + rewrite length_map, Array_sort_length. exact (mapM_length _ _ Hids).
    + rewrite map_map. cbn [Indexer.tokenId].
      assert (E : map (fun x => Indexer.tokenId (Indexer.letter_of sdk x))
                      (Array_sort Indexer.by_value ids) = Array_sort Indexer.by_value ids).
      { rewrite <- (map_id (Array_sort Indexer.by_value ids)) at 2.
        apply map_ext. intros x. unfold Indexer.letter_of.
        now destruct (Indexer.getNftMetadata sdk x). }
      rewrite E. apply Array_sort_perm.
Qed.

Lemma C8_proxy_error_contract_witness :
  exists issue,
    Indexer.POST (fun _ => false) []
      {| Indexer.getNftsForOwner := fun _ => Ok [];
         Indexer.getNftMetadata := fun _ => Ok JNull |}
      (Ok (JObject [(lit "address", JString (lit "0x12"))]))
    = ({| Indexer.status := 400;
          Indexer.body := Indexer.ErrorDetails (lit "Validation failed") [issue] |}, []).
Proof.
  pose proof (@C8_proxy_error_contract (fun _ => false) []
                {| Indexer.getNftsForOwner := fun _ => Ok [];
                   Indexer.getNftMetadata := fun _ => Ok JNull |}
                (JObject [(lit "address", JString (lit "0x12"))])) as H.
  cbv zeta in H. destruct H as (H400 & _).
  destruct H400 as (issue & Hrun & _).
  - intros a (props & _ & _ & Ha). discriminate.
  - exists issue. exact Hrun.
Defined.

(* --------------------------------------------------------------------- *)
(** ** Numerals: [toString] and [BigInt] are inverse to each other *)

Local Open Scope N_scope.

(** Checking a property of all numbers below a bound by evaluation. *)
Lemma N_below_forallb (P : N -> bool) (n : nat) :
  forallb P (map N.of_nat (seq 0 n)) = true ->
  forall x, x < N.of_nat n -> P x = true.
Proof.
  intros H x Hx. rewrite forallb_forall in H. apply H.
  apply in_map_iff. exists (N.to_nat x). split; [lia|]. apply in_seq. lia.
Qed.

Lemma hex_value_digit_char (d : N) : d < 16 -> hex_value (digit_char d) = Some d.
Proof.
  intros Hd.
  pose proof (N_below_forallb
                (fun d => match hex_value (digit_char d) with
                          | Some d' => d' =? d
                          | None => false
                          end) 16 eq_refl Hd) as H.
  cbv beta in H. destruct (hex_value (digit_char d)) as [d'|]; [|discriminate].
  apply N.eqb_eq in H. now subst.
Qed.

Lemma toString_radix_fuel_app (f : nat) (r n : N) (acc : jsstring) :
  toString_radix_fuel f r n acc = toString_radix_fuel f r n [] ++ acc.
Proof.
  revert n acc. induction f as [|f IH]; intros n acc; simpl; [reflexivity|].
  destruct (n <? r); [reflexivity|].
  rewrite IH. rewrite (IH _ [_]). now rewrite <- app_assoc.
Qed.

Lemma toString_radix_fuel_nonempty (f : nat) (r n : N) (acc : jsstring) :
  toString_radix_fuel f r n acc <> [].
Proof.
  revert n acc. induction f as [|f IH]; intros n acc; simpl; [discriminate|].
  destruct (n <? r); [discriminate|apply IH].
Qed.

Lemma parse_digits_app (r : N) (s t : jsstring) (a : N) :
  parse_digits r (s ++ t) a =
  match parse_digits r s a with
  | Some v => parse_digits r t v
  | None => None
  end.
Proof.
  revert a. induction s as [|c s IH]; intros a; simpl; [reflexivity|].
  destruct (hex_value c) as [d|]; [|reflexivity].
  destruct (d <? r); [apply IH|reflexivity].
Qed.

Lemma parse_toString_fuel (r : N) (f : nat) (n : N) :
  2 <= r <= 16 ->
  n < r ^ N.of_nat (S f) ->
  parse_digits r (toString_radix_fuel f r n []) 0 = Some n.
Proof.
  intros Hr. revert n. induction f as [|f IH]; intros n Hn.
  - simpl. change (N.of_nat 1) with 1 in Hn. rewrite N.pow_1_r in Hn.
    rewrite N.mod_small by exact Hn.
    rewrite hex_value_digit_char by lia.
    destruct (N.ltb_spec n r); [reflexivity|lia].
  - cbn [toString_radix_fuel].
    assert (Hmod : n mod r < r) by (apply N.mod_lt; lia).
    destruct (N.ltb_spec n r) as [Hlt|Hge].
    + rewrite N.mod_small by exact Hlt. simpl.
      rewrite hex_value_digit_char by lia.
      destruct (N.ltb_spec n r); [reflexivity|lia].
    + rewrite toString_radix_fuel_app, parse_digits_app.
      rewrite IH.
      * simpl. rewrite hex_value_digit_char by lia.
        destruct (N.ltb_spec (n mod r) r); [|lia].
        f_equal. rewrite (N.div_mod n r) at 3 by lia. lia.
      * apply N.Div0.div_lt_upper_bound.
        replace (N.of_nat (S (S f))) with (N.succ (N.of_nat (S f))) in Hn by lia.
        now rewrite N.pow_succ_r' in Hn.
Qed.

Lemma parse_toString_radix (r n : N) :
  2 <= r <= 16 -> parse_numeral r (toString_radix r n) = Some n.
Proof.
  intros Hr. unfold parse_numeral, toString_radix.
  pose proof (@toString_radix_fuel_nonempty (N.to_nat (N.size n)) r n []) as Hne.
  destruct (toString_radix_fuel (N.to_nat (N.size n)) r n []) eqn:E; [congruence|].
  rewrite <- E. apply parse_toString_fuel; [exact Hr|].
  rewrite Nat2N.inj_succ, N2Nat.id, N.pow_succ_r'.
  pose proof (N.size_gt n) as Hsz.
  assert (2 ^ N.size n <= r ^ N.size n) by (apply N.pow_le_mono_l; lia).
  nia.
Qed.

Lemma is_dec_digit_bounds (c : N) : is_dec_digit c = true <-> 48 <= c <= 57.
Proof. unfold is_dec_digit. rewrite andb_true_iff, !N.leb_le. tauto. Qed.

Lemma digit_char_dec (d : N) : d < 10 -> is_dec_digit (digit_char d) = true.
Proof.
  intros Hd. unfold digit_char. destruct (N.ltb_spec d 10); [|lia].
  apply is_dec_digit_bounds. lia.
Qed.

Lemma toString_10_fuel_digits (f : nat) (n : N) (acc : jsstring) :
  Forall (fun c => is_dec_digit c = true) acc ->
  Forall (fun c => is_dec_digit c = true) (toString_radix_fuel f 10 n acc).
Proof.
  revert n acc. induction f as [|f IH]; intros n acc Hacc.
  - simpl. constructor; [|exact Hacc]. apply digit_char_dec. now apply N.mod_lt.
  - cbn [toString_radix_fuel].
    assert (Forall (fun c => is_dec_digit c = true) (digit_char (n mod 10) :: acc)).
    { constructor; [|exact Hacc]. apply digit_char_dec. now apply N.mod_lt. }
    destruct (n <? 10); [assumption|now apply IH].
Qed.

Lemma toString_10_digits (n : N) :
  Forall (fun c => is_dec_digit c = true) (toString_radix 10 n).
Proof. apply toString_10_fuel_digits. constructor. Qed.

(** Deciding a test of a code unit against a constant from known bounds. *)
Ltac decide_tests :=
  repeat match goal with
    | |- context [N.eqb ?a ?b] => destruct (N.eqb_spec a b); [exfalso; lia|]
    | |- context [N.eqb ?a ?b] => destruct (N.eqb_spec a b); [|exfalso; lia]
    | |- context [N.leb ?a ?b] => destruct (N.leb_spec a b); [|exfalso; lia]
    | |- context [N.leb ?a ?b] => destruct (N.leb_spec a b); [exfalso; lia|]
    | |- context [N.ltb ?a ?b] => destruct (N.ltb_spec a b); [|exfalso; lia]
    | |- context [N.ltb ?a ?b] => destruct (N.ltb_spec a b); [exfalso; lia|]
    end.

Lemma dec_digit_not_space (c : N) :
  is_dec_digit c = true -> is_StrWhiteSpaceChar c = false.
Proof.
  intros H. apply is_dec_digit_bounds in H. unfold is_StrWhiteSpaceChar.
  decide_tests. reflexivity.
Qed.

Lemma trimStart_no_space (s : jsstring) :
  Forall (fun c => is_StrWhiteSpaceChar c = false) s -> trimStart s = s.
Proof. intros H. destruct H as [|c s Hc Hs]; simpl; [reflexivity|now rewrite Hc]. Qed.

Lemma trim_no_space (s : jsstring) :
  Forall (fun c => is_StrWhiteSpaceChar c = false) s -> trim s = s.
Proof.
  intros H. unfold trim. rewrite (trimStart_no_space H).
  rewrite trimStart_no_space; [apply rev_involutive|].
  now apply Forall_rev.
Qed.

(** On a string of decimal digits, [BigInt] reads the decimal numeral. *)
Lemma StringToBigInt_decimal (s : jsstring) :
  s <> [] -> Forall (fun c => is_dec_digit c = true) s ->
  StringToBigInt s = option_map Z.of_N (parse_numeral 10 s).
Proof.
  intros Hne Hd. unfold StringToBigInt.
  rewrite trim_no_space
    by (eapply Forall_impl; [|exact Hd]; intros c; apply dec_digit_not_space).
  destruct s as [|c [|x ds]]; [congruence|reflexivity|].
  inversion Hd as [|? ? Hc Hd']; subst. inversion Hd' as [|? ? Hx _]; subst.
  apply is_dec_digit_bounds in Hc, Hx.
  decide_tests. cbn [orb]. rewrite !andb_false_r. reflexivity.
Qed.

Lemma StringToBigInt_toString (z : Z) : StringToBigInt (BigInt_toString z) = Some z.
Proof.
  destruct z as [|p|p]; [reflexivity| |].
  - cbn [BigInt_toString].
    rewrite StringToBigInt_decimal.
    + rewrite parse_toString_radix by lia. reflexivity.
    + apply toString_radix_fuel_nonempty.
    + apply toString_10_digits.
  - cbn [BigInt_toString]. unfold StringToBigInt.
    pose proof (toString_10_digits (N.pos p)) as Hd.
    rewrite trim_no_space.
    + pose proof (@toString_radix_fuel_nonempty (N.to_nat (N.size (N.pos p))) 10 (N.pos p) [])
        as Hne.
      fold (toString_radix 10 (N.pos p)) in Hne.
      pose proof (parse_toString_radix (r := 10) (N.pos p) ltac:(lia)) as Hp.
      destruct (toString_radix 10 (N.pos p)) as [|x ds]; [congruence|].
      inversion Hd as [|? ? Hx _]; subst. apply is_dec_digit_bounds in Hx.
      cbn [andb N.eqb Pos.eqb]. rewrite Hp. reflexivity.
    + constructor; [reflexivity|].
      eapply Forall_impl; [|exact Hd]. intros c; apply dec_digit_not_space.
Qed.

Lemma BigInt_toString_inj (a b : Z) : BigInt_toString a = BigInt_toString b -> a = b.
Proof.
  intros H. apply (f_equal StringToBigInt) in H.
  rewrite !StringToBigInt_toString in H. now injection H.
Qed.

Lemma eqb_string_eq (s t : jsstring) : eqb_string s t = true <-> s = t.
Proof.
  revert t. induction s as [|c s IH]; intros [|d t]; simpl; try (split; congruence).
  rewrite andb_true_iff, N.eqb_eq, IH. split; [intros (-> & ->); reflexivity|].
  intros H. now injection H.
Qed.

Lemma eqb_string_toString (a b : Z) :
  eqb_string (BigInt_toString a) (BigInt_toString b) = (a =? b)%Z.
Proof.
  destruct (Z.eqb_spec a b) as [->|Hne].
  - now apply eqb_string_eq.
  - apply not_true_is_false. rewrite eqb_string_eq. intros H.
    now apply BigInt_toString_inj in H.
Qed.

(* --------------------------------------------------------------------- *)
(** ** Gallery merge *)

Section MergeFacts.
Import Gallery.
Local Open Scope Z_scope.

Lemma Map_set_entries (x : SkullItem) (vs : list SkullItem) :
  Map_set (BigInt_toString (tokenId x)) x (map entry vs) = map entry (upsert x vs).
Proof.
  induction vs as [|y vs IH]; simpl; [reflexivity|].
  rewrite eqb_string_toString.
  destruct (tokenId y =? tokenId x) eqn:E; simpl.
  - apply Z.eqb_eq in E. unfold entry at 2. now rewrite E.
  - now rewrite IH.
Qed.

Lemma fold_Map_set_entries (l vs : list SkullItem) :
  fold_left (fun m (it : SkullItem) => Map_set (BigInt_toString (tokenId it)) it m)
            l (map entry vs)
  = map entry (upsert_all l vs).
Proof.
  revert vs. induction l as [|x l IH]; intros vs; simpl; [reflexivity|].
  now rewrite Map_set_entries, IH.
Qed.

Lemma merge_results_eq (prev results : list SkullItem) :
  merge_results prev results
  = Array_sort by_tokenId (upsert_all (prev ++ results) []).
Proof.
  unfold merge_results, Map_values.
  change (@nil (jsstring * SkullItem)) with (map entry []).
  rewrite !fold_Map_set_entries, map_map. cbn [entry snd]. rewrite map_id.
  unfold upsert_all. now rewrite fold_left_app.
Qed.

Lemma upsert_In (x y : SkullItem) (vs : list SkullItem) :
  NoDup (map tokenId vs) ->
  (In y (upsert x vs) <-> y = x \/ (In y vs /\ tokenId y <> tokenId x)).
Proof.
  induction vs as [|z vs IH]; intros Hnd; simpl.
  - intuition.
  - inversion Hnd as [|? ? Hz Hnd']; subst.
    destruct (Z.eqb_spec (tokenId z) (tokenId x)) as [E|E]; simpl.
    + split.
      * intros [<-|Hy]; [now left|]. right. split; [now right|].
        intros E'. apply Hz. rewrite E, <- E'. now apply in_map.
      * intros [->|([<-|Hy] & Hne)]; [now left|congruence|now right].
    + rewrite (IH Hnd'). split.
      * intros [<-|[->|(Hy & Hne)]]; [right; split; [now left|exact E]|now left|].
        right. split; [now right|exact Hne].
      * intros [->|([<-|Hy] & Hne)]; [right; now left|now left|].
        right. right. now split.
Qed.

Lemma upsert_ids (x : SkullItem) (vs : list SkullItem) (i : Z) :
  In i (map tokenId (upsert x vs)) <-> i = tokenId x \/ In i (map tokenId vs).
Proof.
  induction vs as [|z vs IH]; simpl; [intuition|].
  destruct (Z.eqb_spec (tokenId z) (tokenId x)) as [E|E]; simpl.
  - rewrite E. intuition.
  - rewrite IH. intuition.
Qed.

Lemma upsert_NoDup (x : SkullItem) (vs : list SkullItem) :
  NoDup (map tokenId vs) -> NoDup (map tokenId (upsert x vs)).
Proof.
  induction vs as [|z vs IH]; intros Hnd; simpl.
  - constructor; [intros []|constructor].
  - inversion Hnd as [|? ? Hz Hnd']; subst.
    destruct (Z.eqb_spec (tokenId z) (tokenId x)) as [E|E]; simpl.
    + rewrite <- E. now constructor.
    + constructor; [|now apply IH].
      rewrite upsert_ids. intros [E'|Hin]; [congruence|contradiction].
Qed.

Lemma upsert_all_snoc (l : list SkullItem) (x : SkullItem) (vs : list SkullItem) :
  upsert_all (l ++ [x]) vs = upsert x (upsert_all l vs).
Proof. unfold upsert_all. now rewrite fold_left_app. Qed.

Lemma upsert_all_NoDup (l : list SkullItem) :
  NoDup (map tokenId (upsert_all l [])).
Proof.
  induction l as [|x l IH] using rev_ind; [constructor|].
  rewrite upsert_all_snoc. now apply upsert_NoDup.
Qed.

(** Last writer wins: an item is in the map after [l ++ r] iff it is there
    after [r] alone, or it was there after [l] and [r] does not hold its id. *)
Lemma upsert_all_app_In (l r : list SkullItem) (y : SkullItem) :
  In y (upsert_all (l ++ r) []) <->
  In y (upsert_all r []) \/
  (In y (upsert_all l []) /\ ~ In (tokenId y) (map tokenId r)).
Proof.
  induction r as [|x r IH] using rev_ind.
  - rewrite app_nil_r. simpl. intuition.
  - rewrite app_assoc, !upsert_all_snoc.
    rewrite !upsert_In by apply upsert_all_NoDup.
    rewrite IH, map_app, in_app_iff. simpl. intuition congruence.
Qed.

Lemma upsert_all_distinct_In (r : list SkullItem) (y : SkullItem) :
  NoDup (map tokenId r) -> (In y (upsert_all r []) <-> In y r).
Proof.
  induction r as [|x r IH] using rev_ind; intros Hnd; [reflexivity|].
  rewrite upsert_all_snoc, upsert_In by apply upsert_all_NoDup.
  rewrite map_app in Hnd. apply NoDup_app_remove_r in Hnd as Hnd'.
  rewrite (IH Hnd'), in_app_iff. simpl. split.
  - intuition.
  - intros [Hy|[->|[]]]; [|now left]. right. split; [exact Hy|].
    intros E. apply NoDup_remove_2 in Hnd. apply Hnd.
    rewrite app_nil_r, <- E. now apply in_map.
Qed.

Lemma by_tokenId_key (a b : SkullItem) :
  (by_tokenId a b <=? 0) = (tokenId a <? tokenId b).
Proof. unfold by_tokenId. now destruct (tokenId a <? tokenId b). Qed.

Lemma merge_results_In (prev results : list SkullItem) (y : SkullItem) :
  In y (merge_results prev results) <->
  In y (upsert_all results []) \/
  (In y (upsert_all prev []) /\ ~ In (tokenId y) (map tokenId results)).
Proof. now rewrite merge_results_eq, Array_sort_In, upsert_all_app_In. Qed.

Lemma merge_results_sorted (prev results : list SkullItem) :
  StronglySorted (key_lt tokenId) (merge_results prev results).
Proof.
  rewrite merge_results_eq.
  apply Array_sort_strict with (ok := fun _ => True).
  - intros a b _ _. apply by_tokenId_key.
  - apply Forall_forall. trivial.
  - apply upsert_all_NoDup.
Qed.

Lemma key_lt_map (l : list SkullItem) :
  StronglySorted (key_lt tokenId) l <-> StronglySorted Z.lt (map tokenId l).
Proof.
  induction l as [|x l IH]; simpl.
  - split; constructor.
  - split; intros H; inversion H as [|? ? Hs Hx]; subst; constructor;
      try (now apply IH).
    + rewrite Forall_map. exact Hx.
    + rewrite Forall_map in Hx. exact Hx.
Qed.

Lemma sorted_lt_NoDup (l : list Z) : StronglySorted Z.lt l -> NoDup l.
Proof.
  induction 1 as [|x l Hs IH Hx]; constructor; [|exact IH].
  intros Hin. rewrite Forall_forall in Hx. specialize (Hx x Hin). lia.
Qed.

End MergeFacts.

Section PageFacts.
Import Gallery.
Local Open Scope Z_scope.

Lemma affine_seq_sorted (a : Z) (n s : nat) :
  StronglySorted Z.lt (map (fun k => a + Z.of_nat k) (seq s n)).
Proof.
  revert s. induction n as [|n IH]; intros s; simpl; constructor; [apply IH|].
  rewrite Forall_map, Forall_forall. intros k Hk. apply in_seq in Hk. lia.
Qed.

Lemma batch_ids_sorted (a b : Z) : StronglySorted Z.lt (batch_ids a b).
Proof. apply affine_seq_sorted. Qed.

Lemma affine_seq_shift (a : Z) (n m s : nat) :
  map (fun k => a + Z.of_nat k) (seq (n + s) m)
  = map (fun k => a + Z.of_nat n + Z.of_nat k) (seq s m).
Proof.
  revert s. induction m as [|m IH]; intros s; simpl; [reflexivity|].
  f_equal; [lia|]. rewrite <- IH. now rewrite Nat.add_succ_r.
Qed.

Lemma batch_ids_app (a b c : Z) :
  a <= b + 1 -> b <= c ->
  batch_ids a b ++ batch_ids (b + 1) c = batch_ids a c.
Proof.
  intros Hab Hbc. unfold batch_ids.
  replace (Z.to_nat (c - a + 1)) with (Z.to_nat (b - a + 1) + Z.to_nat (c - (b + 1) + 1))%nat
    by lia.
  rewrite seq_app, map_app. f_equal.
  rewrite Nat.add_0_l, <- (Nat.add_0_r (Z.to_nat (b - a + 1))) at 1.
  rewrite affine_seq_shift. apply map_ext. intros k. lia.
Qed.

Lemma batch_ids_of_nat (n : nat) : batch_ids 1 (Z.of_nat n) = map Z.of_nat (seq 1 n).
Proof.
  unfold batch_ids. replace (Z.to_nat (Z.of_nat n - 1 + 1)) with n by lia.
  rewrite <- seq_shift, map_map. apply map_ext. intros k. lia.
Qed.

Lemma sorted_app (l1 l2 : list SkullItem) :
  StronglySorted (key_lt tokenId) l1 -> StronglySorted (key_lt tokenId) l2 ->
  (forall x y, In x l1 -> In y l2 -> tokenId x < tokenId y) ->
  StronglySorted (key_lt tokenId) (l1 ++ l2).
Proof.
  intros H1 H2 H. induction H1 as [|x l1 Hs IH Hx]; simpl; [exact H2|].
  constructor.
  - apply IH. intros a b Ha Hb. apply H; [now right|exact Hb].
  - apply Forall_app. split; [exact Hx|].
    apply Forall_forall. intros y Hy. apply H; [now left|exact Hy].
Qed.

(** One page: the items that were there stay, the placeholders of the page
    are superseded by its results, and the order is that of the ids. *)
Lemma merge_page (prev : list SkullItem) (batch : list Z) (f : Z -> SkullItem) :
  (forall id, tokenId (f id) = id) ->
  StronglySorted (key_lt tokenId) prev ->
  StronglySorted Z.lt batch ->
  (forall x id, In x prev -> In id batch -> tokenId x < id) ->
  merge_results (prev ++ map placeholder batch) (map f batch) = prev ++ map f batch.
Proof.
  intros Hf Hprev Hbatch Hlt.
  assert (Hids : map tokenId (map f batch) = batch).
  { rewrite map_map. rewrite <- (map_id batch) at 2. apply map_ext. exact Hf. }
  assert (Hph : map tokenId (map placeholder batch) = batch).
  { rewrite map_map. rewrite <- (map_id batch) at 2. now apply map_ext. }
  assert (Hnd : NoDup batch) by now apply sorted_lt_NoDup.
  assert (Hpd : NoDup (map tokenId prev)).
  { apply sorted_lt_NoDup. now apply key_lt_map. }
  apply strict_sorted_unique with (key := tokenId).
  - apply merge_results_sorted.
  - apply sorted_app; [exact Hprev| |].
    + apply key_lt_map. now rewrite Hids.
    + intros x y Hx Hy. apply Hlt; [exact Hx|].
      rewrite <- Hids. now apply in_map.
  - intros y. rewrite merge_results_In, upsert_all_app_In.
    rewrite !upsert_all_distinct_In by (rewrite ?Hids, ?Hph; assumption).
    rewrite Hids, Hph, in_app_iff. split.
    + intros [Hy|([Hy|(Hy & _)] & Hn)]; [now right| |now left].
      exfalso. apply Hn. rewrite <- Hph. now apply in_map.
    + intros [Hy|Hy]; [|now left]. right.
      assert (Hn : ~ In (tokenId y) batch).
      { intros Hin. specialize (Hlt y (tokenId y) Hy Hin). lia. }
      split; [right; now split|exact Hn].
Qed.

Section WithClient.
Variable JSON_parse : jsstring -> completion json.
Variable client : PublicClient.

Lemma fetch_item_tokenId (id : Z) : tokenId (fetch_item JSON_parse client id) = id.
Proof.
  unfold fetch_item.
  now destruct (let! uri := read_tokenURI client id in
                Decoder.parseTokenUriToSvg JSON_parse uri).
Qed.

Lemma pages_loaded_sorted (l : Z) :
  StronglySorted (key_lt tokenId) (map (fetch_item JSON_parse client) (batch_ids 1 l)).
Proof.
  apply key_lt_map. rewrite map_map.
  rewrite (map_ext _ (fun x => x) fetch_item_tokenId), map_id.
  apply batch_ids_sorted.
Qed.

Lemma loadMore_page (st : state) :
  pages_loaded JSON_parse client st -> loaded st < mintedCount st ->
  let last := Z.min (loaded st + 80) (mintedCount st) in
  loadMore JSON_parse (Some client) st =
  ({| mintedCount := mintedCount st;
      items := map (fetch_item JSON_parse client) (batch_ids 1 last);
      loadingCount := loadingCount st;
      loaded := last |},
   batch_ids (loaded st + 1) last).
Proof.
  intros (H0 & Hitems) Hlt last. unfold loadMore, maxToLoad.
  destruct (Z.ltb_spec (mintedCount st) 0) as [Hneg|_]; [lia|].
  rewrite Z.geb_leb. destruct (Z.leb_spec (mintedCount st) (loaded st)) as [Hle|_]; [lia|].
  unfold pageSize. fold last. f_equal. f_equal.
  change (fun id => {| tokenId := id; svg := None; loading := true; error := None |})
    with placeholder.
  rewrite Hitems, merge_page.
  - rewrite <- map_app, batch_ids_app by (subst last; lia). reflexivity.
  - apply fetch_item_tokenId.
  - apply pages_loaded_sorted.
  - apply batch_ids_sorted.
  - intros x id Hx Hid. apply in_map_iff in Hx. destruct Hx as (i & <- & Hi).
    rewrite fetch_item_tokenId. apply batch_ids_In in Hi, Hid. lia.
Qed.
End WithClient.

End PageFacts.

Lemma NoDup_map_eq {A B : Type} (f : A -> B) (l : list A) (a b : A) :
  NoDup (map f l) -> In a l -> In b l -> f a = f b -> a = b.
Proof.
  induction l as [|x l IH]; intros Hnd Ha Hb E; [destruct Ha|].
  simpl in Hnd. inversion Hnd as [|? ? Hx Hnd']; subst.
  destruct Ha as [<-|Ha], Hb as [<-|Hb]; auto.
  - exfalso. apply Hx. rewrite E. now apply in_map.
  - exfalso. apply Hx. rewrite <- E. now apply in_map.
Qed.

(** C5. Gallery merge.  (1) Whatever was shown and whatever results come
    in, the merged collection is strictly ascending by token id, hence has
    no two items with one id.  (2) The merge does not depend on the order of
    the results of a page.  (3) A result supersedes any entry with its id:
    it is in the merged collection, and it is the only item there with that
    id.  (4) After any [loadMore] that fetches a page, the items of the
    gallery are strictly ascending by token id.  (5) With a supply of at
    least 160, starting from the empty gallery,
    the first [loadMore] reads the ids 1..80, the second the ids 81..160,
    and whatever the order in which the results of each page reach its
    merge step, the gallery then holds exactly 160 items, the fetched items
    of the ids 1..160 in ascending order. *)
Theorem C5_gallery_merge
  (JSON_parse : jsstring -> completion json) (client : Gallery.PublicClient) :
  (forall prev results,
     StronglySorted Z.lt (map Gallery.tokenId (Gallery.merge_results prev results)) /\
     NoDup (map Gallery.tokenId (Gallery.merge_results prev results))) /\
  (forall prev results results',
     NoDup (map Gallery.tokenId results) -> Permutation results results' ->
     Gallery.merge_results prev results' = Gallery.merge_results prev results) /\
  (forall prev results r,
     NoDup (map Gallery.tokenId results) -> In r results ->
     In r (Gallery.merge_results prev results) /\
     forall old, In old (Gallery.merge_results prev results) ->
                 Gallery.tokenId old = Gallery.tokenId r -> old = r) /\
  (forall st,
     (Gallery.loaded st < Gallery.maxToLoad st)%Z ->
     StronglySorted Z.lt
       (map Gallery.tokenId
            (Gallery.items (fst (Gallery.loadMore JSON_parse (Some client) st))))) /\
  (forall st,
     Gallery.items st = [] -> Gallery.loaded st = 0%Z -> (160 <= Gallery.mintedCount st)%Z ->
     let fetch := Gallery.fetch_item JSON_parse client in
     let page1 := Gallery.loadMore JSON_parse (Some client) st in
     let page2 := Gallery.loadMore JSON_parse (Some client) (fst page1) in
     let ids1 := map Z.of_nat (seq 1 80) in
     let ids2 := map Z.of_nat (seq 81 80) in
     snd page1 = ids1 /\ snd page2 = ids2 /\
     Gallery.items (fst page2) = map fetch (map Z.of_nat (seq 1 160)) /\
     length (Gallery.items (fst page2)) = 160%nat /\
     map Gallery.tokenId (Gallery.items (fst page2)) = map Z.of_nat (seq 1 160) /\
     forall results1 results2,
       Permutation (map fetch ids1) results1 ->
       Permutation (map fetch ids2) results2 ->
       Gallery.merge_results
         (Gallery.merge_results (Gallery.items st ++ map placeholder ids1) results1
          ++ map placeholder ids2) results2
       = Gallery.items (fst page2)).
Proof.
  assert (Hsorted : forall prev results,
             StronglySorted Z.lt (map Gallery.tokenId (Gallery.merge_results prev results))).
  { intros. apply key_lt_map, merge_results_sorted. }
  assert (Hperm : forall prev results results',
             NoDup (map Gallery.tokenId results) -> Permutation results results' ->
             Gallery.merge_results prev results' = Gallery.merge_results prev results).
  { intros prev results results' Hnd Hp.
    assert (Hnd' : NoDup (map Gallery.tokenId results')).
    { eapply Permutation_NoDup; [|exact Hnd]. now apply Permutation_map. }
    apply strict_sorted_unique with (key := Gallery.tokenId);
      try apply merge_results_sorted.
    intros y. rewrite !merge_results_In.
    rewrite (@upsert_all_distinct_In results y Hnd), (@upsert_all_distinct_In results' y Hnd').
    assert (Hin : In y results' <-> In y results)
      by (split; apply Permutation_in; [symmetry|]; exact Hp).
    assert (Hid : In (Gallery.tokenId y) (map Gallery.tokenId results')
                  <-> In (Gallery.tokenId y) (map Gallery.tokenId results)).
    { split; apply Permutation_in; apply Permutation_map; [symmetry|]; exact Hp. }
    tauto. }
  split; [|split; [exact Hperm|split; [|split]]].
  - intros prev results. split; [apply Hsorted|]. apply sorted_lt_NoDup, Hsorted.
  - intros prev results r Hnd Hr.
    assert (Hin : In r (Gallery.merge_results prev results)).
    { apply merge_results_In. left. now apply upsert_all_distinct_In. }
    split; [exact Hin|]. intros old Hold Hid.
    pose proof (sorted_lt_NoDup (Hsorted prev results)) as Hnd'.
    exact (NoDup_map_eq Gallery.tokenId _ _ _ Hnd' Hold Hin Hid).
  - intros st Hlt. unfold Gallery.loadMore. rewrite Z.geb_leb.
    destruct (Z.leb_spec (Gallery.maxToLoad st) (Gallery.loaded st)); [lia|].
    cbn [fst Gallery.items]. apply Hsorted.
  - intros st Hitems Hloaded Hsupply fetch page1 page2 ids1 ids2.
    assert (Hinv : pages_loaded JSON_parse client st).
    { split; [lia|]. rewrite Hitems, Hloaded. reflexivity. }
    assert (E1 := loadMore_page Hinv ltac:(lia)).
    cbv zeta in E1. rewrite Hloaded in E1.
    replace (Z.min (0 + 80) (Gallery.mintedCount st)) with 80%Z in E1 by lia.
    fold page1 in E1.
    assert (Hinv1 : pages_loaded JSON_parse client (fst page1)).
    { rewrite E1. split; [cbn; lia|reflexivity]. }
    assert (E2 := loadMore_page Hinv1 ltac:(rewrite E1; cbn; lia)).
    cbv zeta in E2. fold page2 in E2. rewrite E1 in E2.
    cbn [fst Gallery.loaded Gallery.mintedCount Gallery.loadingCount] in E2.
    replace (Z.min (80 + 80) (Gallery.mintedCount st)) with 160%Z in E2 by lia.
    rewrite E2, ?E1. cbn [fst snd Gallery.items]. clear E1 E2 page1 page2 Hinv Hinv1.
    assert (B1 : Gallery.batch_ids 1 80 = ids1) by reflexivity.
    assert (B2 : Gallery.batch_ids 81 160 = ids2) by reflexivity.
    assert (B : Gallery.batch_ids 1 160 = map Z.of_nat (seq 1 160)) by reflexivity.
    assert (Hcat : ids1 ++ ids2 = map Z.of_nat (seq 1 160)) by reflexivity.
    assert (Hids : forall l, map Gallery.tokenId (map fetch l) = l).
    { intros l. rewrite map_map. rewrite <- (map_id l) at 2.
      apply map_ext. apply fetch_item_tokenId. }
    assert (S1 : StronglySorted Z.lt ids1) by (rewrite <- B1; apply batch_ids_sorted).
    assert (S2 : StronglySorted Z.lt ids2) by (rewrite <- B2; apply batch_ids_sorted).
    split; [exact B1|]. split; [exact B2|]. rewrite B.
    split; [reflexivity|]. split; [now rewrite !length_map, length_seq|].
    split; [apply Hids|].
    intros results1 results2 P1 P2.
    assert (N1 : NoDup (map Gallery.tokenId (map fetch ids1)))
      by (rewrite Hids; now apply sorted_lt_NoDup).
    assert (N2 : NoDup (map Gallery.tokenId (map fetch ids2)))
      by (rewrite Hids; now apply sorted_lt_NoDup).
    rewrite (Hperm _ _ _ N2 P2), (Hperm _ _ _ N1 P1).
    rewrite Hitems.
    rewrite (@merge_page [] ids1 fetch);
      [|apply fetch_item_tokenId|constructor|exact S1|intros x id []].
    rewrite (@merge_page _ ids2 fetch).
    + cbn [app]. now rewrite <- map_app, Hcat.
    + apply fetch_item_tokenId.
    + cbn [app]. apply key_lt_map. now rewrite Hids.
    + exact S2.
    + cbn [app]. intros x id Hx Hid.
      apply in_map_iff in Hx. destruct Hx as (i & <- & Hi).
      unfold fetch. rewrite fetch_item_tokenId.
      rewrite <- B1 in Hi. rewrite <- B2 in Hid.
      apply batch_ids_In in Hi, Hid. lia.
Qed.

Lemma C5_gallery_merge_witness :
  let a := {| Gallery.tokenId := 2; Gallery.svg := None; Gallery.loading := true;
              Gallery.error := None |} in
  let b := {| Gallery.tokenId := 1; Gallery.svg := None; Gallery.loading := true;
              Gallery.error := None |} in
  let a' := {| Gallery.tokenId := 2; Gallery.svg := Some (lit "<svg/>");
               Gallery.loading := false; Gallery.error := None |} in
  let b' := {| Gallery.tokenId := 1; Gallery.svg := None; Gallery.loading := false;
               Gallery.error := Some (lit "timeout") |} in
  Gallery.merge_results [a; b] [b'; a'] = Gallery.merge_results [a; b] [a'; b'] /\
  In a' (Gallery.merge_results [a; b] [a'; b']).
Proof.
  intros a b a' b'.
  destruct (@C5_gallery_merge (fun _ => Throw NonError) chain_of_200)
    as (_ & Hperm & Hsup & _ & _).
  assert (Hnd : NoDup (map Gallery.tokenId [a'; b'])).
  { simpl. constructor; [intros [H|[]]; discriminate|].
    constructor; [intros []|constructor]. }
  split.
  - apply Hperm; [exact Hnd|apply perm_swap].
  - apply Hsup; [exact Hnd|now left].
Defined.


(* --------------------------------------------------------------------- *)
(** ** Token-id normalisation *)

Lemma parse_digits_value (r : N) (s : jsstring) (a : N) :
  Forall (fun c => exists d, hex_value c = Some d /\ d < r) s ->
  parse_digits r s a = Some (fold_left (fun acc c => acc * r + digit_value c) s a).
Proof.
  intros H. revert a. induction H as [|c s (d & Hd & Hlt) Hs IH]; intros a; simpl.
  - reflexivity.
  - rewrite Hd. destruct (N.ltb_spec d r); [|lia].
    rewrite IH. unfold digit_value. now rewrite Hd.
Qed.

Ltac bool_bounds :=
  repeat match goal with
    | H : andb _ _ = true |- _ => apply andb_true_iff in H; destruct H
    | H : N.leb _ _ = true |- _ => apply N.leb_le in H
    | H : N.eqb _ _ = true |- _ => apply N.eqb_eq in H
    end.

Lemma hex_digit_value (c : N) :
  Indexer.is_hex_digit c = true -> exists d, hex_value c = Some d /\ d < 16.
Proof.
  unfold Indexer.is_hex_digit, hex_value.
  destruct ((48 <=? c) && (c <=? 57)) eqn:E1;
    [|destruct ((97 <=? c) && (c <=? 102)) eqn:E2;
      [|destruct ((65 <=? c) && (c <=? 70)) eqn:E3]];
    intros H; try discriminate; bool_bounds; eexists; (split; [reflexivity|lia]).
Qed.

Lemma dec_digit_value (c : N) :
  is_dec_digit c = true -> exists d, hex_value c = Some d /\ d < 10.
Proof.
  intros H. unfold hex_value. unfold is_dec_digit in H. rewrite H.
  bool_bounds. eexists. split; [reflexivity|lia].
Qed.

Lemma hex_digit_not_space (c : N) :
  Indexer.is_hex_digit c = true -> is_StrWhiteSpaceChar c = false.
Proof.
  unfold Indexer.is_hex_digit, hex_value, is_StrWhiteSpaceChar.
  destruct ((48 <=? c) && (c <=? 57)) eqn:E1;
    [|destruct ((97 <=? c) && (c <=? 102)) eqn:E2;
      [|destruct ((65 <=? c) && (c <=? 70)) eqn:E3]];
    intros H; try discriminate; bool_bounds; decide_tests; reflexivity.
Qed.

Lemma hex_digit_not_x (c : N) : Indexer.is_hex_digit c = true -> c <> 120.
Proof. intros H ->. discriminate. Qed.

(** [BigInt] on [0x] followed by hex digits. *)
Lemma StringToBigInt_hex (h : jsstring) :
  h <> [] -> forallb Indexer.is_hex_digit h = true ->
  StringToBigInt (lit "0x" ++ h) = Some (Z.of_N (numeral_value 16 h)).
Proof.
  intros Hne Hh. rewrite forallb_forall in Hh. unfold StringToBigInt.
  rewrite trim_no_space.
  - cbn [lit list_ascii_of_string map app N_of_ascii N.eqb Pos.eqb andb orb].
    change (N_of_ascii "0") with 48. change (N_of_ascii "x") with 120.
    cbn [N.eqb Pos.eqb andb orb].
    unfold parse_numeral. destruct h as [|c h]; [congruence|].
    rewrite parse_digits_value; [reflexivity|].
    apply Forall_forall. intros d Hd. apply hex_digit_value. now apply Hh.
  - constructor; [reflexivity|]. constructor; [reflexivity|].
    apply Forall_forall. intros d Hd. apply hex_digit_not_space. now apply Hh.
Qed.

Lemma hex_digits_no_0x (t : jsstring) :
  forallb Indexer.is_hex_digit t = true -> startsWith t (lit "0x") = false.
Proof.
  intros H. destruct t as [|c [|d t]]; [reflexivity| |].
  - cbn. now rewrite andb_false_r.
  - cbn in H. apply andb_true_iff in H. destruct H as (_ & H).
    apply andb_true_iff in H. destruct H as (Hd & _).
    apply hex_digit_not_x in Hd.
    cbn [lit list_ascii_of_string map startsWith].
    change (N_of_ascii "x") with 120.
    destruct (N.eqb_spec 120 d); [congruence|]. now rewrite andb_false_r.
Qed.

Lemma dec_digit_is_hex (c : N) : is_dec_digit c = true -> Indexer.is_hex_digit c = true.
Proof.
  intros H. destruct (dec_digit_value c H) as (d & Hd & _).
  unfold Indexer.is_hex_digit. now rewrite Hd.
Qed.

Lemma dec_digits_no_letter (t : jsstring) :
  forallb is_dec_digit t = true -> Indexer.has_hex_letter t = false.
Proof.
  intros H. unfold Indexer.has_hex_letter.
  induction t as [|c t IH]; [reflexivity|].
  cbn in *. apply andb_true_iff in H. destruct H as (Hc & Ht).
  rewrite (IH Ht), orb_false_r.
  apply is_dec_digit_bounds in Hc. unfold Indexer.is_hex_letter.
  decide_tests. reflexivity.
Qed.

(** Every normalised id is the [toString] of an integer. *)
Lemma parseAlchemyTokenIdToDecimal_shape (s d : jsstring) :
  Indexer.parseAlchemyTokenIdToDecimal s = Ok d -> exists z, d = BigInt_toString z.
Proof.
  unfold Indexer.parseAlchemyTokenIdToDecimal, BigInt_of_string.
  destruct (startsWith (trim s) (lit "0x")).
  - destruct (StringToBigInt (trim s)) as [z|]; [|discriminate].
    intros H. injection H as <-. now exists z.
  - destruct (Indexer.all_hex_digits (trim s) && Indexer.has_hex_letter (trim s)).
    + destruct (StringToBigInt (lit "0x" ++ trim s)) as [z|]; [|discriminate].
      intros H. injection H as <-. now exists z.
    + destruct (StringToBigInt (trim s)) as [z|]; [|discriminate].
      intros H. injection H as <-. now exists z.
Qed.

Lemma by_value_key (a b : jsstring) :
  (exists z, a = BigInt_toString z) -> (exists z, b = BigInt_toString z) ->
  (Indexer.by_value a b <=? 0)%Z = (numeric_value a <? numeric_value b)%Z.
Proof.
  intros (x & ->) (y & ->). unfold Indexer.by_value, numeric_value.
  rewrite !StringToBigInt_toString. now destruct (x <? y)%Z.
Qed.

Lemma sorted_ids_values (l : list jsstring) :
  Forall (fun s => exists z, s = BigInt_toString z) l ->
  StronglySorted (key_le numeric_value) l ->
  exists values, l = map BigInt_toString values /\ StronglySorted Z.le values.
Proof.
  intros Hok Hs. induction Hs as [|s l Hs IH Hall].
  - exists []. split; constructor.
  - inversion Hok as [|? ? (z & ->) Hok']; subst.
    destruct (IH Hok') as (vs & -> & Hvs).
    exists (z :: vs). split; [reflexivity|]. constructor; [exact Hvs|].
    rewrite Forall_map in Hall. eapply Forall_impl; [|exact Hall].
    intros v Hv. unfold key_le, numeric_value in Hv.
    now rewrite !StringToBigInt_toString in Hv.
Qed.

(** C10, as amended.  Let [t] be the trimmed input.  If [t] is [0x]
    followed by at least one hex digit, the result is the decimal string of
    the hexadecimal value of those digits.  If [t] consists of hex digits
    only, with at least one letter a-f or A-F, the result is the decimal
    string of the hexadecimal value of [t].  If [t] consists of decimal
    digits only (at least one), the result is the decimal string of the
    decimal value of [t]; so an unprefixed id made of the digits 0-9 is read
    as decimal.  Whenever [t] is not made of hex digits with a letter among
    them, the result is what [BigInt] makes of [t] itself: the decimal
    string of [BigInt(t)], or the [SyntaxError] that [BigInt] throws.  The
    [letters] of a successful answer of the route carry decimal strings of
    integers in ascending order. *)
Theorem C10_token_id_normalisation (tokenId : jsstring) :
  let t := trim tokenId in
  let decimal (n : N) := BigInt_toString (Z.of_N n) in
  (forall h, t = lit "0x" ++ h -> h <> [] -> forallb Indexer.is_hex_digit h = true ->
     Indexer.parseAlchemyTokenIdToDecimal tokenId = Ok (decimal (numeral_value 16 h))) /\
  (t <> [] -> forallb Indexer.is_hex_digit t = true ->
   existsb Indexer.is_hex_letter t = true ->
     Indexer.parseAlchemyTokenIdToDecimal tokenId = Ok (decimal (numeral_value 16 t))) /\
  (t <> [] -> forallb is_dec_digit t = true ->
     Indexer.parseAlchemyTokenIdToDecimal tokenId = Ok (decimal (numeral_value 10 t))) /\
  (Indexer.all_hex_digits t && Indexer.has_hex_letter t = false ->
     Indexer.parseAlchemyTokenIdToDecimal tokenId =
     match StringToBigInt t with
     | Some z => Ok (BigInt_toString z)
     | None => Throw (Err SyntaxError (lit "Cannot convert string to a BigInt"))
     end) /\
  (forall isAddress stringify_thrown sdk request status address contract letters,
     fst (Indexer.POST isAddress stringify_thrown sdk request)
     = {| Indexer.status := status;
          Indexer.body := Indexer.Letters true address contract letters |} ->
     exists values,
       map Indexer.tokenId letters = map BigInt_toString values /\
       StronglySorted Z.le values).
Proof.
  intros t decimal. unfold Indexer.parseAlchemyTokenIdToDecimal. fold t.
  split; [|split; [|split; [|split]]].
  - intros h Ht Hne Hh. rewrite Ht.
    replace (startsWith (lit "0x" ++ h) (lit "0x")) with true
      by (symmetry; apply startsWith_iff; now exists h).
    unfold BigInt_of_string. now rewrite StringToBigInt_hex.
  - intros Hne Hh Hl. rewrite (hex_digits_no_0x _ Hh).
    unfold Indexer.all_hex_digits, Indexer.has_hex_letter.
    destruct t as [|c t'] eqn:Et; [congruence|]. rewrite Hh, Hl. cbn [andb].
    unfold BigInt_of_string. rewrite StringToBigInt_hex; [reflexivity|discriminate|exact Hh].
  - intros Hne Hd.
    assert (Hh : forallb Indexer.is_hex_digit t = true).
    { rewrite forallb_forall in *. intros c Hc. apply dec_digit_is_hex. now apply Hd. }
    rewrite (hex_digits_no_0x _ Hh), (dec_digits_no_letter _ Hd), andb_false_r.
    unfold BigInt_of_string. rewrite forallb_forall in Hd.
    rewrite StringToBigInt_decimal; [|exact Hne|now apply Forall_forall].
    unfold parse_numeral. destruct t as [|c t'] eqn:Et; [congruence|].
    rewrite parse_digits_value; [reflexivity|].
    apply Forall_forall. intros d Hin. apply dec_digit_value. now apply Hd.
  - intros Hno. rewrite Hno. unfold BigInt_of_string.
    destruct (startsWith t (lit "0x")); now destruct (StringToBigInt t).
  - intros isAddress stringify_thrown sdk request status address contract letters.
    unfold Indexer.POST.
    destruct request as [b|e]; [|discriminate].
    destruct (Indexer.safeParse isAddress b) as [a|issues]; [|discriminate].
    destruct (Indexer.getNftsForOwner sdk a) as [owned|e]; [|discriminate].
    destruct (mapM Indexer.parseAlchemyTokenIdToDecimal owned) as [ids|e] eqn:Hids;
      [|discriminate].
    cbn [fst]. intros H. injection H as _ _ _ <-.
    assert (Hok : Forall (fun s => exists z, s = BigInt_toString z) ids).
    { apply mapM_Forall2 in Hids. clear -Hids.
      induction Hids as [|x d l l' Hxd _ IH]; constructor; [|exact IH].
      now apply parseAlchemyTokenIdToDecimal_shape in Hxd. }
    assert (Hok' : Forall (fun s => exists z, s = BigInt_toString z)
                          (Array_sort Indexer.by_value ids)).
    { apply (Permutation_Forall (Permutation_sym (Array_sort_perm _ ids))). exact Hok. }
    assert (E : map Indexer.tokenId (map (Indexer.letter_of sdk) (Array_sort Indexer.by_value ids))
                = Array_sort Indexer.by_value ids).
    { rewrite map_map. rewrite <- (map_id (Array_sort Indexer.by_value ids)) at 2.
      apply map_ext. intros x. unfold Indexer.letter_of.
      now destruct (Indexer.getNftMetadata sdk x). }
    rewrite E. apply sorted_ids_values; [exact Hok'|].
    apply Array_sort_sorted with (ok := fun s => exists z, s = BigInt_toString z);
      [|exact Hok].
    intros x y Hx Hy. now apply by_value_key.
Qed.

Lemma C10_token_id_normalisation_witness :
  Indexer.parseAlchemyTokenIdToDecimal (lit " 0x1F ") = Ok (lit "31") /\
  Indexer.parseAlchemyTokenIdToDecimal (lit "1f") = Ok (lit "31") /\
  Indexer.parseAlchemyTokenIdToDecimal (lit "10") = Ok (lit "10").
Proof.
  split; [|split].
  - apply (proj1 (C10_token_id_normalisation (lit " 0x1F ")) (lit "1F"));
      [reflexivity|discriminate|reflexivity].
  - apply (proj1 (proj2 (C10_token_id_normalisation (lit "1f"))));
      [discriminate|reflexivity|reflexivity].
  - apply (proj1 (proj2 (proj2 (C10_token_id_normalisation (lit "10")))));
      [discriminate|reflexivity].
Defined.

(** C10 as stated does not hold of every input string: on [zz] the
    function throws, and on [0o17], which neither starts with [0x] nor
    consists of hex digits, it answers the octal reading, [15]. *)
Lemma C10_not_every_string :
  ~ (forall tokenId, exists d, Indexer.parseAlchemyTokenIdToDecimal tokenId = Ok d) /\
  Indexer.parseAlchemyTokenIdToDecimal (lit "zz")
  = Throw (Err SyntaxError (lit "Cannot convert string to a BigInt")) /\
  Indexer.parseAlchemyTokenIdToDecimal (lit "0o17") = Ok (lit "15").
Proof.
  split; [|split; reflexivity].
  intros H. destruct (H (lit "zz")) as (d & Hd). discriminate.
Qed.

(* --------------------------------------------------------------------- *)
(** ** Round trip through base64, percent escapes and UTF-8 *)

(** Linear arithmetic with quotients and remainders by constants. *)
Ltac lia_div := zify; Z.to_euclidean_division_equations; lia.

Lemma radix64_digits2 (n : N) : n / 64 * 64 + n mod 64 = n.
Proof. lia_div. Qed.

Lemma radix64_digits3 (n : N) :
  n / 4096 * 4096 + (n / 64) mod 64 * 64 + n mod 64 = n.
Proof.
  replace (n / 4096) with (n / 64 / 64) by (rewrite N.Div0.div_div; reflexivity).
  pose proof (radix64_digits2 n). pose proof (radix64_digits2 (n / 64)). lia.
Qed.

Lemma radix64_digits4 (n : N) :
  n / 262144 * 262144 + (n / 4096) mod 64 * 4096 + (n / 64) mod 64 * 64 + n mod 64 = n.
Proof.
  replace (n / 262144) with (n / 4096 / 64) by (rewrite N.Div0.div_div; reflexivity).
  pose proof (radix64_digits3 n). pose proof (radix64_digits2 (n / 4096)). lia.
Qed.

(** *** base64 *)

Lemma list_ind3 {A : Type} (P : list A -> Prop) :
  P [] -> (forall x, P [x]) -> (forall x y, P [x; y]) ->
  (forall x y z l, P l -> P (x :: y :: z :: l)) ->
  forall l, P l.
Proof.
  intros H0 H1 H2 H3.
  fix IH 1. intros [|x [|y [|z l]]]; [exact H0|apply H1|apply H2|].
  apply H3. apply IH.
Qed.

Lemma b64_value_char (v : N) : v < 64 -> b64_value (b64_char v) = Some v.
Proof.
  intros Hv.
  pose proof (N_below_forallb
                (fun v => match b64_value (b64_char v) with
                          | Some v' => v' =? v
                          | None => false
                          end) 64 eq_refl Hv) as H.
  cbv beta in H. destruct (b64_value (b64_char v)) as [v'|]; [|discriminate].
  apply N.eqb_eq in H. now subst.
Qed.

Lemma b64_char_alphabet (v : N) :
  is_ascii_whitespace (b64_char v) = false /\ b64_char v <> 61.
Proof.
  unfold b64_char, is_ascii_whitespace.
  destruct (N.ltb_spec v 26); [split; [decide_tests; reflexivity|lia]|].
  destruct (N.ltb_spec v 52); [split; [decide_tests; reflexivity|lia]|].
  destruct (N.ltb_spec v 62); [split; [decide_tests; reflexivity|lia]|].
  destruct (v =? 62); split; (reflexivity || discriminate).
Qed.

Lemma sextets_of_bytes_bound (bs : list N) :
  Forall (fun b => b < 256) bs -> Forall (fun v => v < 64) (sextets_of_bytes bs).
Proof.
  induction bs as [|x|x y|x y z l IH] using list_ind3; intros H; cbn [sextets_of_bytes].
  - constructor.
  - inversion H; subst. repeat constructor; lia_div.
  - inversion H as [|? ? Hx H']; subst. inversion H'; subst.
    repeat constructor; lia_div.
  - inversion H as [|? ? Hx H']; subst. inversion H' as [|? ? Hy H'']; subst.
    inversion H'' as [|? ? Hz Hl]; subst.
    repeat (constructor; [lia_div|]). now apply IH.
Qed.

Lemma sextets_b64_chars (vs : list N) :
  Forall (fun v => v < 64) vs -> sextets (map b64_char vs) = Some vs.
Proof.
  induction 1 as [|v vs Hv Hvs IH]; simpl; [reflexivity|].
  now rewrite (b64_value_char Hv), IH.
Qed.

Lemma bytes_of_sextets_of_bytes (bs : list N) :
  Forall (fun b => b < 256) bs -> bytes_of_sextets (sextets_of_bytes bs) = bs.
Proof.
  induction bs as [|x|x y|x y z l IH] using list_ind3; intros H;
    cbn [sextets_of_bytes bytes_of_sextets].
  - reflexivity.
  - inversion H; subst. rewrite radix64_digits2. f_equal. lia_div.
  - inversion H as [|? ? Hx H']; subst. inversion H'; subst.
    rewrite radix64_digits3.
    replace ((x * 256 + y) * 4 / 4) with (x * 256 + y) by lia_div.
    f_equal; [|f_equal]; lia_div.
  - inversion H as [|? ? Hx H']; subst. inversion H' as [|? ? Hy H'']; subst.
    inversion H'' as [|? ? Hz Hl]; subst.
    rewrite radix64_digits4, (IH Hl).
    f_equal; [|f_equal; [|f_equal]]; lia_div.
Qed.

Lemma filter_all {A : Type} (f : A -> bool) (l : list A) :
  Forall (fun x => f x = true) l -> filter f l = l.
Proof. induction 1 as [|x l Hx Hl IH]; simpl; [reflexivity|]. now rewrite Hx, IH. Qed.

Lemma drop_trailing_eq_snoc (l : jsstring) : drop_trailing_eq (l ++ [61]) = l.
Proof.
  unfold drop_trailing_eq. rewrite rev_app_distr. simpl. apply rev_involutive.
Qed.

Lemma drop_trailing_eq_keep (l : jsstring) :
  Forall (fun c => c <> 61) l -> drop_trailing_eq l = l.
Proof.
  intros H. unfold drop_trailing_eq. destruct (rev l) as [|c r] eqn:E; [reflexivity|].
  assert (Hc : In c l) by (apply in_rev; rewrite E; now left).
  rewrite Forall_forall in H. specialize (H c Hc).
  now destruct (N.eqb_spec c 61).
Qed.

(** The encoding is a whole number of groups of four characters: the
    alphabet characters of the sextets, then the padding. *)
Lemma base64_shape (bs : list N) :
  exists k : nat,
    (length (sextets_of_bytes bs) = (4 * k)%nat /\ base64_padding bs = []) \/
    (length (sextets_of_bytes bs) = (4 * k + 2)%nat /\ base64_padding bs = [61; 61]) \/
    (length (sextets_of_bytes bs) = (4 * k + 3)%nat /\ base64_padding bs = [61]).
Proof.
  induction bs as [|x|x y|x y z l IH] using list_ind3.
  - exists 0%nat. now left.
  - exists 0%nat. right. now left.
  - exists 0%nat. right. now right.
  - destruct IH as (k & IH). exists (S k).
    cbn [sextets_of_bytes base64_padding length].
    destruct IH as [(H1 & H2)|[(H1 & H2)|(H1 & H2)]]; rewrite H1, H2;
      [left|right; left|right; right]; (split; [lia|reflexivity]).
Qed.

Lemma atob_base64_encode (bs : list N) :
  Forall (fun b => b < 256) bs -> atob (base64_encode bs) = Ok bs.
Proof.
  intros Hbs. unfold atob, base64_encode.
  set (body := map b64_char (sextets_of_bytes bs)).
  assert (Hbody : Forall (fun c => is_ascii_whitespace c = false /\ c <> 61) body).
  { subst body. apply Forall_map, Forall_forall. intros v _. apply b64_char_alphabet. }
  assert (Hno_eq : Forall (fun c => c <> 61) body)
    by (eapply Forall_impl; [|exact Hbody]; now intros c (_ & H)).
  assert (Hlen : length body = length (sextets_of_bytes bs))
    by (subst body; apply length_map).
  rewrite filter_all.
  2:{ apply Forall_app. split.
      - eapply Forall_impl; [|exact Hbody]. intros c (H & _). now rewrite H.
      - destruct (base64_shape bs) as (k & [(_ & ->)|[(_ & ->)|(_ & ->)]]);
          repeat constructor. }
  assert (Hstrip : strip_padding (body ++ base64_padding bs) = body
                   /\ (N.of_nat (length body) mod 4 =? 1) = false).
  { unfold strip_padding. rewrite length_app, Hlen.
    destruct (base64_shape bs) as (k & [(H1 & H2)|[(H1 & H2)|(H1 & H2)]]);
      rewrite H1, H2; cbn [length].
    - replace (N.of_nat (4 * k + 0) mod 4) with 0 by lia_div.
      replace (N.of_nat (4 * k) mod 4) with 0 by lia_div.
      cbn [N.eqb]. rewrite app_nil_r.
      rewrite (drop_trailing_eq_keep Hno_eq), (drop_trailing_eq_keep Hno_eq). now split.
    - replace (N.of_nat (4 * k + 2 + 2) mod 4) with 0 by lia_div.
      replace (N.of_nat (4 * k + 2) mod 4) with 2 by lia_div.
      cbn [N.eqb]. change (body ++ [61; 61]) with (body ++ [61] ++ [61]).
      rewrite app_assoc, !drop_trailing_eq_snoc. now split.
    - replace (N.of_nat (4 * k + 3 + 1) mod 4) with 0 by lia_div.
      replace (N.of_nat (4 * k + 3) mod 4) with 3 by lia_div.
      cbn [N.eqb]. rewrite drop_trailing_eq_snoc, (drop_trailing_eq_keep Hno_eq).
      now split. }
  destruct Hstrip as (-> & ->).
  subst body. rewrite sextets_b64_chars by now apply sextets_of_bytes_bound.
  now rewrite bytes_of_sextets_of_bytes.
Qed.

(** *** Percent escapes *)

Lemma Array_from_bytes (bs : jsstring) :
  Forall (fun b => b < 256) bs -> Array_from bs = map (fun c => [c]) bs.
Proof.
  induction 1 as [|b bs Hb Hbs IH]; [reflexivity|].
  cbn [Array_from map]. rewrite IH.
  destruct bs as [|d bs']; [reflexivity|].
  unfold is_high_surrogate. now destruct (N.leb_spec 55296 b); [lia|].
Qed.

Lemma hex2_percent_escape (b : N) :
  b < 256 -> 37 :: padStart 2 48 (toString_radix 16 b) = percent_escape b.
Proof.
  intros Hb. unfold percent_escape. f_equal.
  apply eqb_string_eq.
  exact (N_below_forallb
           (fun b => eqb_string (padStart 2 48 (toString_radix 16 b))
                                [digit_char (b / 16); digit_char (b mod 16)])
           256 eq_refl Hb).
Qed.

Lemma percentEncoded_bytes (bs : jsstring) :
  Forall (fun b => b < 256) bs ->
  concat (map (fun c => 37 :: padStart 2 48 (toString_radix 16 (charCodeAt0 c)))
              (Array_from bs))
  = flat_map percent_escape bs.
Proof.
  intros H. rewrite (Array_from_bytes H), map_map, flat_map_concat_map. f_equal.
  apply map_ext_in. intros b Hb. cbn [charCodeAt0 hd].
  apply hex2_percent_escape. rewrite Forall_forall in H. now apply H.
Qed.

Lemma ParseHexOctet_escape (b : N) :
  b < 256 -> ParseHexOctet (digit_char (b / 16)) (digit_char (b mod 16)) = Some b.
Proof.
  intros Hb. unfold ParseHexOctet.
  rewrite !hex_value_digit_char by lia_div. f_equal. lia_div.
Qed.

Lemma leading_ones_spec (b : N) : b < 256 -> leading_ones b = leading_ones_by_range b.
Proof.
  intros Hb. apply Nat.eqb_eq.
  exact (N_below_forallb
           (fun b => Nat.eqb (leading_ones b) (leading_ones_by_range b)) 256 eq_refl Hb).
Qed.

(** *** The steps of [Decode] on an escape *)

Lemma Decode_start (B : N) (s : jsstring) :
  B < 256 ->
  Decode 0 [] (percent_escape B ++ s) =
  match leading_ones B with
  | 0%nat => let! r := Decode 0 [] s in Ok (B :: r)
  | 2%nat => Decode 1 [B] s
  | 3%nat => Decode 2 [B] s
  | 4%nat => Decode 3 [B] s
  | _ => Throw uri_malformed
  end.
Proof.
  intros HB. unfold percent_escape. cbn [app Decode].
  change (37 =? 37) with true. cbv iota. now rewrite (ParseHexOctet_escape HB).
Qed.

Lemma Decode_continue (k : nat) (octets : list N) (B : N) (s : jsstring) :
  B < 256 ->
  Decode (S (S k)) octets (percent_escape B ++ s) = Decode (S k) (octets ++ [B]) s.
Proof.
  intros HB. unfold percent_escape. cbn [app Decode].
  change (37 =? 37) with true. cbv iota. now rewrite (ParseHexOctet_escape HB).
Qed.

Lemma Decode_finish (octets : list N) (B : N) (s : jsstring) :
  B < 256 ->
  Decode 1 octets (percent_escape B ++ s) =
  match utf8_code_point (octets ++ [B]) with
  | None => Throw uri_malformed
  | Some V => let! r := Decode 0 [] s in Ok (UTF16EncodeCodePoint V ++ r)
  end.
Proof.
  intros HB. unfold percent_escape. cbn [app Decode].
  change (37 =? 37) with true. cbv iota. now rewrite (ParseHexOctet_escape HB).
Qed.

(** *** UTF-8 *)

Lemma utf8_two_octets (cp : N) :
  128 <= cp < 2048 ->
  let b0 := 192 + cp / 64 in
  let b1 := 128 + cp mod 64 in
  (192 <= b0 < 224 /\ 128 <= b1 < 192) /\
  (b0 mod 32) * 64 + b1 mod 64 = cp.
Proof. intros H b0 b1. subst b0 b1. split; lia_div. Qed.

Lemma utf8_three_octets (cp : N) :
  2048 <= cp < 65536 ->
  let b0 := 224 + cp / 4096 in
  let b1 := 128 + (cp / 64) mod 64 in
  let b2 := 128 + cp mod 64 in
  (224 <= b0 < 240 /\ 128 <= b1 < 192 /\ 128 <= b2 < 192) /\
  (b0 mod 16) * 4096 + (b1 mod 64) * 64 + b2 mod 64 = cp.
Proof.
  intros H b0 b1 b2. subst b0 b1 b2.
  pose proof (radix64_digits3 cp) as Hr.
  assert (Ha : cp / 4096 < 16) by lia_div.
  assert (Hb : (cp / 64) mod 64 < 64) by (apply N.mod_lt; lia).
  assert (Hc : cp mod 64 < 64) by (apply N.mod_lt; lia).
  revert Hr Ha Hb Hc.
  generalize (cp / 4096) ((cp / 64) mod 64) (cp mod 64). intros a b c Hr Ha Hb Hc.
  split; [lia|]. lia_div.
Qed.

Lemma utf8_four_octets (cp : N) :
  65536 <= cp <= 1114111 ->
  let b0 := 240 + cp / 262144 in
  let b1 := 128 + (cp / 4096) mod 64 in
  let b2 := 128 + (cp / 64) mod 64 in
  let b3 := 128 + cp mod 64 in
  (240 <= b0 < 248 /\ 128 <= b1 < 192 /\ 128 <= b2 < 192 /\ 128 <= b3 < 192) /\
  (b0 mod 8) * 262144 + (b1 mod 64) * 4096 + (b2 mod 64) * 64 + b3 mod 64 = cp.
Proof.
  intros H b0 b1 b2 b3. subst b0 b1 b2 b3.
  pose proof (radix64_digits4 cp) as Hr.
  assert (Ha : cp / 262144 < 8) by lia_div.
  assert (Hb : (cp / 4096) mod 64 < 64) by (apply N.mod_lt; lia).
  assert (Hc : (cp / 64) mod 64 < 64) by (apply N.mod_lt; lia).
  assert (Hd : cp mod 64 < 64) by (apply N.mod_lt; lia).
  revert Hr Ha Hb Hc Hd.
  generalize (cp / 262144) ((cp / 4096) mod 64) ((cp / 64) mod 64) (cp mod 64).
  intros a b c d Hr Ha Hb Hc Hd.
  split; [lia|]. lia_div.
Qed.

Lemma is_continuation_range (b : N) : 128 <= b < 192 -> is_continuation b = true.
Proof. intros H. unfold is_continuation. apply andb_true_iff. rewrite !N.leb_le. lia. Qed.

Lemma leading_ones_range (b : N) (n : nat) :
  b < 256 -> leading_ones_by_range b = n -> leading_ones b = n.
Proof. intros Hb <-. now apply leading_ones_spec. Qed.

Lemma utf8_encode_code_point_octets (cp : N) :
  cp <= 1114111 -> Forall (fun b => b < 256) (utf8_encode_code_point cp).
Proof.
  intros H. unfold utf8_encode_code_point.
  destruct (N.ltb_spec cp 128); [repeat constructor; lia|].
  destruct (N.ltb_spec cp 2048).
  { destruct (@utf8_two_octets cp ltac:(lia)) as ((? & ?) & _). repeat constructor; lia. }
  destruct (N.ltb_spec cp 65536).
  { destruct (@utf8_three_octets cp ltac:(lia)) as ((? & ? & ?) & _).
    repeat constructor; lia. }
  destruct (@utf8_four_octets cp ltac:(lia)) as ((? & ? & ? & ?) & _).
  repeat constructor; lia.
Qed.

(** [Decode] reads back the escapes of the UTF-8 encoding of one scalar
    value as its UTF-16 encoding. *)
Lemma Decode_code_point (cp : N) (s : jsstring) :
  is_scalar_value cp ->
  Decode 0 [] (flat_map percent_escape (utf8_encode_code_point cp) ++ s) =
  let! r := Decode 0 [] s in Ok (UTF16EncodeCodePoint cp ++ r).
Proof.
  intros Hcp.
  assert (Hmax : cp <= 1114111) by (destruct Hcp; lia).
  unfold utf8_encode_code_point.
  destruct (N.ltb_spec cp 128) as [H1|H1].
  { cbn [flat_map]. rewrite app_nil_r, Decode_start by lia.
    rewrite (@leading_ones_range cp 0) by (try lia; unfold leading_ones_by_range;
                                          now destruct (N.ltb_spec cp 128); [|lia]).
    unfold UTF16EncodeCodePoint. now destruct (N.leb_spec cp 65535); [|lia]. }
  destruct (N.ltb_spec cp 2048) as [H2|H2].
  { destruct (@utf8_two_octets cp ltac:(lia)) as ((Hb0 & Hb1) & Hv).
    cbv zeta in Hb0, Hb1, Hv.
    cbn [flat_map]. rewrite app_nil_r, <- app_assoc, Decode_start by lia.
    rewrite (@leading_ones_range _ 2)
      by (try lia; unfold leading_ones_by_range; decide_tests; reflexivity).
    rewrite Decode_finish by lia. cbn [app utf8_code_point].
    rewrite Hv, (is_continuation_range Hb1).
    destruct (N.leb_spec 128 cp); [|lia]. cbn [andb].
    reflexivity. }
  destruct (N.ltb_spec cp 65536) as [H3|H3].
  { destruct (@utf8_three_octets cp ltac:(lia)) as ((Hb0 & Hb1 & Hb2) & Hv).
    cbv zeta in Hb0, Hb1, Hb2, Hv.
    cbn [flat_map]. rewrite app_nil_r, <- !app_assoc, Decode_start by lia.
    rewrite (@leading_ones_range _ 3)
      by (try lia; unfold leading_ones_by_range; decide_tests; reflexivity).
    rewrite Decode_continue, Decode_finish by lia. cbn [app utf8_code_point].
    rewrite Hv, (is_continuation_range Hb1), (is_continuation_range Hb2).
    destruct (N.leb_spec 2048 cp); [|lia]. cbn [andb].
    assert (Hs : (55296 <=? cp) && (cp <=? 57343) = false).
    { apply andb_false_iff. rewrite !N.leb_gt. destruct Hcp; lia. }
    rewrite Hs. reflexivity. }
  destruct (@utf8_four_octets cp ltac:(lia)) as ((Hb0 & Hb1 & Hb2 & Hb3) & Hv).
  cbv zeta in Hb0, Hb1, Hb2, Hb3, Hv.
  cbn [flat_map]. rewrite app_nil_r, <- !app_assoc, Decode_start by lia.
  rewrite (@leading_ones_range _ 4)
    by (try lia; unfold leading_ones_by_range; decide_tests; reflexivity).
  rewrite !Decode_continue, Decode_finish by lia. cbn [app utf8_code_point].
  rewrite Hv, (is_continuation_range Hb1), (is_continuation_range Hb2),
    (is_continuation_range Hb3).
  destruct (N.leb_spec 65536 cp); [|lia].
  destruct (N.leb_spec cp 1114111); [|lia]. reflexivity.
Qed.

Lemma Decode_utf8 (cps : list N) :
  Forall is_scalar_value cps ->
  Decode 0 [] (flat_map percent_escape (utf8_encode cps)) = Ok (utf16_encode cps).
Proof.
  induction 1 as [|cp cps Hcp Hcps IH]; [reflexivity|].
  unfold utf8_encode, utf16_encode in *. cbn [flat_map].
  rewrite flat_map_app, (Decode_code_point _ Hcp), IH. reflexivity.
Qed.

Lemma utf8_encode_octets (cps : list N) :
  Forall is_scalar_value cps -> Forall (fun b => b < 256) (utf8_encode cps).
Proof.
  induction 1 as [|cp cps Hcp Hcps IH]; [constructor|].
  unfold utf8_encode in *. cbn [flat_map]. apply Forall_app. split; [|exact IH].
  apply utf8_encode_code_point_octets. destruct Hcp; lia.
Qed.

(** C4. Round trip of text.  For every Unicode string, given as its
    sequence of scalar values, [decodeBase64ToString] applied to the
    standard base64 encoding of its UTF-8 octets returns, without throwing,
    the JavaScript string of that text (its UTF-16 code units): [atob]
    yields the octets, each octet becomes a two-digit escape [%xx], and
    [decodeURIComponent] reads the escapes back as UTF-8, multi-octet
    sequences included. *)
Theorem C4_utf8_round_trip (cps : list N) :
  Forall is_scalar_value cps ->
  atob (base64_encode (utf8_encode cps)) = Ok (utf8_encode cps) /\
  Decoder.decodeBase64ToString (base64_encode (utf8_encode cps)) = Ok (utf16_encode cps).
Proof.
  intros H. pose proof (utf8_encode_octets H) as Hoct.
  pose proof (atob_base64_encode Hoct) as Hatob.
  split; [exact Hatob|].
  unfold Decoder.decodeBase64ToString. rewrite Hatob. cbn [bind].
  rewrite (percentEncoded_bytes Hoct). unfold decodeURIComponent.
  now apply Decode_utf8.
Qed.

(** The text made of h, e with acute accent, the euro sign and U+1F600: one,
    two, three and four octets. *)
Lemma C4_utf8_round_trip_witness :
  Decoder.decodeBase64ToString (lit "aMOp4oKs8J+YgA==")
  = Ok [104; 233; 8364; 55357; 56832].
Proof.
  refine (proj2 (@C4_utf8_round_trip [104; 233; 8364; 128512] _)).
  repeat constructor; unfold is_scalar_value; lia.
Defined.

(* ===================================================================== *)
(** * Further properties of the pages *)
(* ===================================================================== *)

(* --------------------------------------------------------------------- *)
(** ** Grid controls *)

Section ControlFacts.
Import Gallery GalleryControls.
Local Open Scope Z_scope.

Lemma clamp_bounds (n lo hi : Z) :
  lo <= clamp n lo hi /\ (lo <= hi -> clamp n lo hi <= hi) /\
  (lo <= n <= hi -> clamp n lo hi = n).
Proof. unfold clamp. lia. Qed.

Lemma tile_after_range (clicks : list click) : 64 <= tile_after clicks <= 260.
Proof.
  unfold tile_after.
  assert (H : forall t, 64 <= t <= 260 ->
              64 <= fold_left (fun t c => setTile c t) clicks t <= 260).
  { induction clicks as [|c cs IH]; intros t Ht; simpl; [lia|].
    apply IH. destruct c; unfold setTile, clamp; lia. }
  apply H. lia.
Qed.

Lemma recomputeCols_positive (w tile gap cols : Z) :
  1 <= recomputeCols (Some w) tile gap cols.
Proof. unfold recomputeCols. lia. Qed.

(** X1. Tile size.  [clamp] never answers below its lower bound, never
    above its upper bound when the bounds are in order, and leaves a value
    between the bounds alone.  Whatever series of clicks on the two size
    buttons, the tile size stays between 64 and 260 pixels. *)
Theorem X1_tile_size_in_range (n lo hi : Z) (clicks : list click) :
  lo <= clamp n lo hi /\
  (lo <= hi -> clamp n lo hi <= hi) /\
  (lo <= n <= hi -> clamp n lo hi = n) /\
  64 <= tile_after clicks <= 260.
Proof.
  destruct (clamp_bounds n lo hi) as (H1 & H2 & H3).
  repeat split; auto; apply tile_after_range.
Qed.

Lemma X1_tile_size_in_range_witness :
  clamp 300 64 260 <= 260 /\ clamp 100 64 260 = 100 /\
  64 <= tile_after [Larger; Larger; Larger; Larger; Larger; Larger; Larger; Larger; Larger]
     <= 260.
Proof.
  destruct (X1_tile_size_in_range 300 64 260 []) as (_ & Hhi & _ & _).
  destruct (X1_tile_size_in_range 100 64 260
              [Larger; Larger; Larger; Larger; Larger; Larger; Larger; Larger; Larger])
    as (_ & _ & Hid & Htile).
  split; [apply Hhi; lia|]. split; [apply Hid; lia|exact Htile].
Defined.

(** X2. Column count.  With a mounted grid of width [w] and a positive
    tile-plus-gap pitch, [recomputeCols] answers at least one column; when
    one tile fits, it answers the largest number of tiles that fit side by
    side with their gaps; when none fits, it answers one.  While the grid is
    not mounted the column count is kept. *)
Theorem X2_columns_fit (w tile gap cols : Z) :
  0 < tile + gap ->
  let c := recomputeCols (Some w) tile gap cols in
  1 <= c /\
  (tile <= w -> c * tile + (c - 1) * gap <= w /\ w < (c + 1) * tile + c * gap) /\
  (w < tile -> c = 1) /\
  recomputeCols None tile gap cols = cols.
Proof.
  intros Hp c. subst c. unfold recomputeCols, floor_div.
  pose proof (Z.div_mod (w + gap) (tile + gap) ltac:(lia)) as Hdm.
  pose proof (Z.mod_pos_bound (w + gap) (tile + gap) Hp) as Hb.
  set (q := (w + gap) / (tile + gap)) in *.
  set (r := (w + gap) mod (tile + gap)) in *.
  split; [lia|]. split; [|split; [|reflexivity]].
  - intros Hw. assert (1 <= q) by nia.
    rewrite Z.max_r by lia. nia.
  - intros Hw. assert (q <= 0) by nia. lia.
Qed.

Lemma X2_columns_fit_witness :
  recomputeCols (Some 1000) 140 0 6 = 7 /\ 7 * 140 <= 1000 < 8 * 140.
Proof.
  pose proof (@X2_columns_fit 1000 140 0 6 ltac:(lia)) as H. cbv zeta in H.
  split; [reflexivity|]. destruct H as (_ & H & _).
  specialize (H ltac:(lia)). change (recomputeCols (Some 1000) 140 0 6) with 7 in H. lia.
Defined.

End ControlFacts.

(* --------------------------------------------------------------------- *)
(** ** Sheet export *)

Section SheetFacts.
Import Gallery.
Local Open Scope Z_scope.

(** What a saved sheet was made from. *)
Lemma sheet_saved_inv (env : browser) (opts : sheet_opts) (c : canvas) :
  downloadVisibleSheetPng env opts = SheetSaved c ->
  let scale := match outScale opts with Some s => s | None => 2 end in
  let n := Z.of_nat (length (svgs opts)) in
  let rows := ceil_div n (cols opts) in
  let T := tilePx opts * scale in
  let G := gapPx opts * scale in
  svgs opts <> [] /\ has_2d_context env = true /\
  forallb (fun p => svg_loads env (snd p)) (svgs opts) = true /\
  width c = cols opts * T + (cols opts - 1) * G /\
  height c = rows * T + (rows - 1) * G /\
  imageSmoothingEnabled c = false /\
  download c = lit "letterskull-gallery-"
               ++ toString_radix 10 (N.of_nat (length (svgs opts))) ++ lit ".png" /\
  length (drawn c) = length (svgs opts) /\
  forall i d, nth_error (drawn c) i = Some d ->
    exists p, nth_error (svgs opts) i = Some p /\
      d = {| img_svg := snd p; img_px := T;
             dx := Z.rem (Z.of_nat i) (cols opts) * (T + G);
             dy := (Z.of_nat i / cols opts) * (T + G);
             dw := T; dh := T |}.
Proof.
  unfold downloadVisibleSheetPng.
  destruct (Z.of_nat (length (svgs opts)) =? 0) eqn:En; [discriminate|].
  destruct (has_2d_context env); [|discriminate]. cbn [negb].
  destruct (forallb (fun p => svg_loads env (snd p)) (svgs opts)) eqn:Ea; [|discriminate].
  cbn [negb]. intros H. injection H as <-. cbn [width height imageSmoothingEnabled download drawn].
  assert (Hlen : length (map (fun ip : nat * (Z * jsstring) =>
                    {| img_svg := snd (snd ip);
                       img_px := tilePx opts * match outScale opts with Some s => s | None => 2 end;
                       dx := Z.rem (Z.of_nat (fst ip)) (cols opts) *
                             (tilePx opts * match outScale opts with Some s => s | None => 2 end +
                              gapPx opts * match outScale opts with Some s => s | None => 2 end);
                       dy := floor_div (Z.of_nat (fst ip)) (cols opts) *
                             (tilePx opts * match outScale opts with Some s => s | None => 2 end +
                              gapPx opts * match outScale opts with Some s => s | None => 2 end);
                       dw := tilePx opts * match outScale opts with Some s => s | None => 2 end;
                       dh := tilePx opts * match outScale opts with Some s => s | None => 2 end |})
                   (combine (seq 0 (length (svgs opts))) (svgs opts)))
                 = length (svgs opts))
    by (now rewrite length_map, length_combine, length_seq, Nat.min_id).
  repeat split; try reflexivity.
  - intros E. rewrite E in En. discriminate.
  - exact Hlen.
  - intros i d Hd.
    assert (Hi : (i < length (svgs opts))%nat).
    { rewrite <- Hlen. apply nth_error_Some. congruence. }
    destruct (nth_error (svgs opts) i) as [p|] eqn:Ep;
      [|apply nth_error_None in Ep; lia].
    exists p. split; [reflexivity|].
    rewrite nth_error_map, (nth_error_indexed _ 0 _ Ep) in Hd.
    cbn [option_map fst snd Nat.add] in Hd. injection Hd as <-. reflexivity.
Qed.

(** X3. Tiles on the sheet.  On a saved sheet made with a positive tile
    size and scale, a gap that is not negative and a positive column count,
    every tile is drawn inside the canvas and no two tiles overlap. *)
Theorem X3_tiles_inside_and_apart (env : browser) (opts : sheet_opts) (c : canvas) :
  downloadVisibleSheetPng env opts = SheetSaved c ->
  0 < cols opts -> 0 < tilePx opts -> 0 <= gapPx opts ->
  0 < match outScale opts with Some s => s | None => 2 end ->
  (forall i d, nth_error (drawn c) i = Some d ->
     0 <= dx d /\ dx d + dw d <= width c /\ 0 <= dy d /\ dy d + dh d <= height c) /\
  (forall i j di dj, i <> j ->
     nth_error (drawn c) i = Some di -> nth_error (drawn c) j = Some dj ->
     dx di + dw di <= dx dj \/ dx dj + dw dj <= dx di \/
     dy di + dh di <= dy dj \/ dy dj + dh dj <= dy di).
Proof.
  intros Hrun Hcols Htile Hgap Hscale.
  pose proof (sheet_saved_inv _ _ Hrun) as H. cbv zeta in H.
  destruct H as (_ & _ & _ & Hw & Hh & _ & _ & Hlen & Hdrawn).
  set (scale := match outScale opts with Some s => s | None => 2 end) in *.
  set (T := tilePx opts * scale) in *. set (G := gapPx opts * scale) in *.
  assert (HT : 0 < T) by (subst T; nia).
  assert (HG : 0 <= G) by (subst G; nia).
  pose proof (ceil_div_spec (Z.of_nat (length (svgs opts))) Hcols) as Hrows.
  set (rows := ceil_div (Z.of_nat (length (svgs opts))) (cols opts)) in *.
  assert (Hpos : forall i, (i < length (svgs opts))%nat ->
             let col := Z.rem (Z.of_nat i) (cols opts) in
             let row := Z.of_nat i / cols opts in
             0 <= col < cols opts /\ 0 <= row < rows /\
             Z.of_nat i = cols opts * row + col).
  { intros i Hi col row. subst col row.
    rewrite Z.rem_mod_nonneg by lia.
    pose proof (Z.div_mod (Z.of_nat i) (cols opts) ltac:(lia)) as Hdm.
    pose proof (Z.mod_pos_bound (Z.of_nat i) (cols opts) Hcols) as Hb.
    assert (0 <= Z.of_nat i / cols opts) by (apply Z.div_pos; lia).
    repeat split; try lia. nia. }
  split.
  - intros i d Hd.
    assert (Hi : (i < length (svgs opts))%nat)
      by (rewrite <- Hlen; apply nth_error_Some; congruence).
    destruct (Hdrawn i d Hd) as (p & _ & ->). cbn [dx dy dw dh].
    destruct (Hpos i Hi) as ((Hc0 & Hc1) & (Hr0 & Hr1) & _).
    rewrite Hw, Hh. repeat split; nia.
  - intros i j di dj Hne Hdi Hdj.
    assert (Hi : (i < length (svgs opts))%nat)
      by (rewrite <- Hlen; apply nth_error_Some; congruence).
    assert (Hj : (j < length (svgs opts))%nat)
      by (rewrite <- Hlen; apply nth_error_Some; congruence).
    destruct (Hdrawn i di Hdi) as (p & _ & ->).
    destruct (Hdrawn j dj Hdj) as (q & _ & ->). cbn [dx dy dw dh].
    destruct (Hpos i Hi) as ((Hc0 & Hc1) & (Hr0 & Hr1) & Ei).
    destruct (Hpos j Hj) as ((Hd0 & Hd1) & (Hs0 & Hs1) & Ej).
    cbv zeta in *.
    set (ci := Z.rem (Z.of_nat i) (cols opts)) in *.
    set (cj := Z.rem (Z.of_nat j) (cols opts)) in *.
    set (ri := Z.of_nat i / cols opts) in *.
    set (rj := Z.of_nat j / cols opts) in *.
    destruct (Z.lt_trichotomy ci cj) as [Hlt|[Heq|Hgt]].
    + left. nia.
    + destruct (Z.lt_trichotomy ri rj) as [Hlt|[Heq'|Hgt]].
      * right. right. left. nia.
      * exfalso. apply Hne. apply Nat2Z.inj. rewrite Ei, Ej, Heq, Heq'. reflexivity.
      * right. right. right. nia.
    + right. left. nia.
Qed.

Lemma X3_tiles_inside_and_apart_witness :
  exists c,
    downloadVisibleSheetPng
      {| has_2d_context := true; svg_loads := fun _ => true |}
      {| svgs := map (fun z => (z, lit "<svg/>")) [1; 2; 3; 4; 5; 6; 7];
         tilePx := 140; gapPx := 0; cols := 3; outScale := Some 3 |}
    = SheetSaved c /\
    forall i d, nth_error (drawn c) i = Some d -> dx d + dw d <= width c.
Proof.
  eexists. split; [reflexivity|].
  intros i d Hd.
  refine (proj1 (proj2 (proj1
    (@X3_tiles_inside_and_apart
       {| has_2d_context := true; svg_loads := fun _ => true |}
       {| svgs := map (fun z => (z, lit "<svg/>")) [1; 2; 3; 4; 5; 6; 7];
          tilePx := 140; gapPx := 0; cols := 3; outScale := Some 3 |}
       _ eq_refl _ _ _ _) i d Hd))); cbn; lia.
Defined.

(** X4. The sheet is all or nothing.  A sheet is saved exactly when there
    is at least one tile, a 2d context is available and every SVG loads as
    an image; it then has one drawn image per tile, smoothing switched off,
    and the file name [letterskull-gallery-<count>.png].  With no tile
    nothing is done at all; without a context, or with one SVG that does
    not load, the export fails and no file is produced. *)
Theorem X4_sheet_all_or_nothing (env : browser) (opts : sheet_opts) :
  ((exists c, downloadVisibleSheetPng env opts = SheetSaved c) <->
   svgs opts <> [] /\ has_2d_context env = true /\
   (forall p, In p (svgs opts) -> svg_loads env (snd p) = true)) /\
  (forall c, downloadVisibleSheetPng env opts = SheetSaved c ->
     length (drawn c) = length (svgs opts) /\
     imageSmoothingEnabled c = false /\
     download c = lit "letterskull-gallery-"
                  ++ toString_radix 10 (N.of_nat (length (svgs opts))) ++ lit ".png") /\
  (downloadVisibleSheetPng env opts = NothingToDo <-> svgs opts = []).
Proof.
  split; [|split].
  - split.
    + intros (c & Hc). pose proof (sheet_saved_inv _ _ Hc) as H. cbv zeta in H.
      destruct H as (Hne & Hctx & Hall & _). rewrite forallb_forall in Hall. auto.
    + intros (Hne & Hctx & Hall). unfold downloadVisibleSheetPng.
      assert (En : (Z.of_nat (length (svgs opts)) =? 0) = false).
      { apply Z.eqb_neq. destruct (svgs opts); [congruence|simpl; lia]. }
      rewrite En, Hctx. cbn [negb].
      assert (Ea : forallb (fun p => svg_loads env (snd p)) (svgs opts) = true)
        by (now apply forallb_forall).
      rewrite Ea. cbn [negb]. eexists. reflexivity.
  - intros c Hc. pose proof (sheet_saved_inv _ _ Hc) as H. cbv zeta in H.
    destruct H as (_ & _ & _ & _ & _ & Hs & Hd & Hl & _). auto.
  - unfold downloadVisibleSheetPng. split.
    + destruct (svgs opts) as [|p l]; [reflexivity|].
      cbn [length]. rewrite Nat2Z.inj_succ.
      destruct (Z.succ (Z.of_nat (length l)) =? 0) eqn:E; [apply Z.eqb_eq in E; lia|].
      destruct (negb (has_2d_context env)); [discriminate|].
      destruct (negb (forallb (fun p0 => svg_loads env (snd p0)) (p :: l))); discriminate.
    + intros ->. reflexivity.
Qed.

End SheetFacts.

Lemma X4_sheet_all_or_nothing_witness :
  exists c,
    Gallery.downloadVisibleSheetPng
      {| Gallery.has_2d_context := true; Gallery.svg_loads := fun _ => true |}
      {| Gallery.svgs := [(1%Z, lit "<svg/>"); (2%Z, lit "<svg/>")];
         Gallery.tilePx := 140; Gallery.gapPx := 0; Gallery.cols := 6;
         Gallery.outScale := None |}
    = Gallery.SheetSaved c /\
    Gallery.download c = lit "letterskull-gallery-2.png".
Proof.
  destruct (@X4_sheet_all_or_nothing
              {| Gallery.has_2d_context := true; Gallery.svg_loads := fun _ => true |}
              {| Gallery.svgs := [(1%Z, lit "<svg/>"); (2%Z, lit "<svg/>")];
                 Gallery.tilePx := 140; Gallery.gapPx := 0; Gallery.cols := 6;
                 Gallery.outScale := None |})
    as (Hsaved & Hshape & _).
  destruct (proj2 Hsaved) as (c & Hc).
  - split; [discriminate|]. split; [reflexivity|]. intros p _. reflexivity.
  - exists c. split; [exact Hc|]. exact (proj2 (proj2 (Hshape c Hc))).
Defined.

(* --------------------------------------------------------------------- *)
(** ** Gallery: paging to the end, merging, what can be downloaded *)

Section GalleryFacts.
Import Gallery GalleryControls.
Local Open Scope Z_scope.

Variable JSON_parse : jsstring -> completion json.
Variable client : PublicClient.

Lemma loadMore_at_end (st : state) :
  maxToLoad st <= loaded st -> loadMore JSON_parse (Some client) st = (st, []).
Proof.
  intros H. unfold loadMore. rewrite Z.geb_leb.
  destruct (Z.leb_spec (maxToLoad st) (loaded st)); [reflexivity|lia].
Qed.

(** X5. Paging to the end.  From the empty gallery, [n] calls of
    [loadMore] in a row leave the watermark at [min(80 n, supply)] and the
    gallery holding the fetched items of the ids from 1 to the watermark, in
    ascending order; the token ids read on the way are these ids, each read
    once and none beyond the supply.  No item is left loading, an item
    with an error carries no SVG, and the "Loaded" figure of the header is
    at most the watermark.  The supply is not touched, and the button
    offers more exactly while [80 n] is below the supply: once the supply
    is reached, further calls read nothing. *)
Theorem X5_paging_to_the_end (st : state) (n : nat) :
  items st = [] -> loaded st = 0 ->
  let r := loadMore_times JSON_parse n (Some client) st in
  let reached := Z.min (80 * Z.of_nat n) (maxToLoad st) in
  loaded (fst r) = reached /\
  mintedCount (fst r) = mintedCount st /\
  items (fst r) = map (fetch_item JSON_parse client) (batch_ids 1 reached) /\
  snd r = batch_ids 1 reached /\
  NoDup (snd r) /\
  (forall id, In id (snd r) -> 1 <= id <= maxToLoad st) /\
  canLoadMore (fst r) = (80 * Z.of_nat n <? maxToLoad st) /\
  (forall x, In x (items (fst r)) ->
     loading x = false /\ (error x <> None -> svg x = None)) /\
  Z.of_nat (loadedCount (items (fst r))) <= reached.
Proof.
  intros Hitems Hloaded. cbv zeta.
  assert (HM : 0 <= maxToLoad st) by (unfold maxToLoad; destruct (Z.ltb_spec (mintedCount st) 0); lia).
  assert (Hinv :
    loaded (fst (loadMore_times JSON_parse n (Some client) st))
      = Z.min (80 * Z.of_nat n) (maxToLoad st) /\
    mintedCount (fst (loadMore_times JSON_parse n (Some client) st)) = mintedCount st /\
    items (fst (loadMore_times JSON_parse n (Some client) st))
      = map (fetch_item JSON_parse client)
            (batch_ids 1 (Z.min (80 * Z.of_nat n) (maxToLoad st))) /\
    snd (loadMore_times JSON_parse n (Some client) st)
      = batch_ids 1 (Z.min (80 * Z.of_nat n) (maxToLoad st))).
  { induction n as [|k IH].
    - cbn [loadMore_times fst snd]. rewrite Hitems, Hloaded.
      replace (Z.min (80 * Z.of_nat 0) (maxToLoad st)) with 0 by lia.
      repeat split.
    - cbn [loadMore_times].
      destruct (loadMore_times JSON_parse k (Some client) st) as [st1 ids1].
      cbn [fst snd] in IH. destruct IH as (Hl & Hm & Hi & Hr).
      assert (HM1 : maxToLoad st1 = maxToLoad st) by (unfold maxToLoad; now rewrite Hm).
      destruct (Z.le_gt_cases (maxToLoad st) (80 * Z.of_nat k)) as [Hend|Hmore].
      + rewrite loadMore_at_end by lia. cbn [fst snd]. rewrite app_nil_r.
        replace (Z.min (80 * Z.of_nat (S k)) (maxToLoad st))
          with (Z.min (80 * Z.of_nat k) (maxToLoad st)) by lia.
        auto.
      + assert (Hl1 : loaded st1 = 80 * Z.of_nat k) by lia.
        assert (Hmc : maxToLoad st = mintedCount st).
        { unfold maxToLoad in *. destruct (Z.ltb_spec (mintedCount st) 0); lia. }
        assert (Hpl : pages_loaded JSON_parse client st1).
        { split; [lia|]. rewrite Hi, Hl. reflexivity. }
        assert (E := @loadMore_page JSON_parse client st1 Hpl ltac:(lia)).
        cbv zeta in E. rewrite E. cbn [fst snd loaded mintedCount items].
        rewrite Hm, Hl1, <- Hmc.
        replace (Z.min (80 * Z.of_nat (S k)) (maxToLoad st))
          with (Z.min (80 * Z.of_nat k + 80) (maxToLoad st)) by lia.
        repeat split.
        rewrite Hr.
        replace (Z.min (80 * Z.of_nat k) (maxToLoad st)) with (80 * Z.of_nat k) by lia.
        apply batch_ids_app; lia. }
  destruct Hinv as (Hl & Hm & Hi & Hr).
  repeat split; try assumption.
  - rewrite Hr. apply sorted_lt_NoDup, batch_ids_sorted.
  - rewrite Hr in H. apply batch_ids_In in H. lia.
  - rewrite Hr in H. apply batch_ids_In in H. lia.
  - unfold canLoadMore. rewrite Hl.
    assert (HM1 : maxToLoad (fst (loadMore_times JSON_parse n (Some client) st)) = maxToLoad st)
      by (unfold maxToLoad; now rewrite Hm).
    rewrite HM1.
    destruct (Z.ltb_spec (80 * Z.of_nat n) (maxToLoad st));
      destruct (Z.ltb_spec (Z.min (80 * Z.of_nat n) (maxToLoad st)) (maxToLoad st)); lia.
  - rewrite Hi in H. apply in_map_iff in H. destruct H as (id & <- & _).
    unfold fetch_item.
    now destruct (let! uri := read_tokenURI client id in
                  Decoder.parseTokenUriToSvg JSON_parse uri).
  - rewrite Hi in H. apply in_map_iff in H. destruct H as (id & <- & _).
    unfold fetch_item.
    destruct (let! uri := read_tokenURI client id in
              Decoder.parseTokenUriToSvg JSON_parse uri); cbn [error svg]; congruence.
  - unfold loadedCount.
    pose proof (filter_length_le
                  (fun x => negb (loading x) &&
                            match svg x with Some (_ :: _) => true | _ => false end)
                  (items (fst (loadMore_times JSON_parse n (Some client) st)))) as Hle.
    rewrite Hi in Hle at 2. rewrite length_map, batch_ids_length in Hle. lia.
Qed.

End GalleryFacts.

Lemma X5_paging_to_the_end_witness :
  let st := Gallery.fetchMintedCount (Some chain_of_200) Gallery.initial in
  let r := GalleryControls.loadMore_times (fun _ => Throw NonError) 3 (Some chain_of_200) st in
  Gallery.loaded (fst r) = 200%Z /\ GalleryControls.canLoadMore (fst r) = false.
Proof.
  intros st r.
  pose proof (@X5_paging_to_the_end (fun _ => Throw NonError) chain_of_200 st 3
                eq_refl eq_refl) as H.
  cbv zeta in H. destruct H as (Hl & _ & _ & _ & _ & _ & Hc & _).
  split; [exact Hl|exact Hc].
Defined.

Section MergeMore.
Import Gallery GalleryControls.
Local Open Scope Z_scope.

Lemma upsert_all_ids (l vs : list SkullItem) (i : Z) :
  In i (map tokenId (upsert_all l vs)) <-> In i (map tokenId l) \/ In i (map tokenId vs).
Proof.
  induction l as [|x l IH] using rev_ind; [simpl; intuition|].
  rewrite upsert_all_snoc, upsert_ids, IH, map_app, in_app_iff. simpl. intuition.
Qed.

Lemma merge_results_NoDup (prev results : list SkullItem) :
  NoDup (map tokenId (merge_results prev results)).
Proof. apply sorted_lt_NoDup, key_lt_map, merge_results_sorted. Qed.

(** X6. The merge loses nothing and can be repeated.  The token ids of the
    merged collection are those of what was shown together with those of
    the results, no more and no fewer; an item that was shown and whose id
    is not among the results is still there; merging the same results a
    second time, or merging no results at all, leaves the merged collection
    as it is. *)
Theorem X6_merge_keeps_ids_and_can_be_repeated (prev results : list SkullItem) :
  (forall i, In i (map tokenId (merge_results prev results)) <->
             In i (map tokenId prev) \/ In i (map tokenId results)) /\
  (forall x, NoDup (map tokenId prev) -> In x prev ->
             ~ In (tokenId x) (map tokenId results) ->
             In x (merge_results prev results)) /\
  merge_results (merge_results prev results) results = merge_results prev results /\
  merge_results (merge_results prev results) [] = merge_results prev results.
Proof.
  split; [|split; [|split]].
  - intros i. rewrite merge_results_eq.
    assert (Hs : In i (map tokenId (Array_sort by_tokenId (upsert_all (prev ++ results) [])))
                 <-> In i (map tokenId (upsert_all (prev ++ results) []))).
    { rewrite !in_map_iff. split; intros (y & E & Hy); exists y; split; auto;
        now apply Array_sort_In in Hy || apply Array_sort_In. }
    rewrite Hs, upsert_all_ids, map_app, in_app_iff. simpl. tauto.
  - intros x Hnd Hx Hn. apply merge_results_In. right. split; [|exact Hn].
    now apply upsert_all_distinct_In.
  - apply strict_sorted_unique with (key := tokenId); try apply merge_results_sorted.
    intros y. rewrite (merge_results_In (merge_results prev results) results y).
    rewrite (@upsert_all_distinct_In (merge_results prev results) y
               (merge_results_NoDup prev results)).
    rewrite merge_results_In. tauto.
  - apply strict_sorted_unique with (key := tokenId); try apply merge_results_sorted.
    intros y. rewrite (merge_results_In (merge_results prev results) [] y).
    rewrite (@upsert_all_distinct_In (merge_results prev results) y
               (merge_results_NoDup prev results)).
    simpl. tauto.
Qed.

Lemma X6_merge_keeps_ids_and_can_be_repeated_witness :
  let shown := {| tokenId := 1; svg := Some (lit "<svg/>"); loading := false;
                  error := None |} in
  let result := {| tokenId := 2; svg := None; loading := false;
                   error := Some (lit "timeout") |} in
  In shown (merge_results [shown; placeholder 2] [result]).
Proof.
  intros shown result.
  destruct (X6_merge_keeps_ids_and_can_be_repeated [shown; placeholder 2] [result])
    as (_ & Hkept & _ & _).
  apply Hkept.
  - simpl. constructor; [intros [H|[]]; discriminate|].
    constructor; [intros []|constructor].
  - now left.
  - simpl. intros [H|[]]. discriminate.
Defined.

Lemma downloadableVisible_In (its : list SkullItem) (id : Z) (s : jsstring) :
  In (id, s) (downloadableVisible its) <->
  exists x, In x its /\ tokenId x = id /\ svg x = Some s /\ s <> [] /\ loading x = false.
Proof.
  unfold downloadableVisible. rewrite in_flat_map. split.
  - intros (x & Hx & Hin). exists x. split; [exact Hx|].
    destruct (svg x) as [[|c t]|]; try contradiction.
    destruct (loading x); simpl in Hin; [contradiction|].
    destruct Hin as [E|[]]. injection E as <- <-. repeat split. discriminate.
  - intros (x & Hx & <- & Hs & Hne & Hl). exists x. split; [exact Hx|].
    rewrite Hs, Hl. destruct s as [|c t]; [congruence|]. simpl. now left.
Qed.

Lemma downloadableVisible_length (its : list SkullItem) :
  length (downloadableVisible its) = loadedCount its.
Proof.
  induction its as [|x its IH]; [reflexivity|].
  assert (E : downloadableVisible (x :: its)
              = downloadableVisible [x] ++ downloadableVisible its).
  { unfold downloadableVisible. simpl. now rewrite app_nil_r. }
  assert (E' : loadedCount (x :: its) = (loadedCount [x] + loadedCount its)%nat).
  { unfold loadedCount. simpl.
    destruct (negb (loading x) && match svg x with Some (_ :: _) => true | _ => false end);
      reflexivity. }
  rewrite E, E', length_app, IH. f_equal.
  unfold downloadableVisible, loadedCount. simpl.
  destruct (svg x) as [[|c t]|]; destruct (loading x); reflexivity.
Qed.

(** X7. The sheet button.  The button is disabled exactly when the
    "Loaded" figure of the header is zero.  When it is enabled, on a browser
    that gives a 2d context and loads the SVGs shown, a click saves a sheet,
    whatever the clicks on the size buttons and the width of the grid were:
    the sheet has as many tiles as the "Loaded" figure says, every tile is
    the SVG of an item that is shown and not loading, rasterised at three
    times the tile size (between 192 and 780 pixels), and the sheet is as
    wide as the columns of the grid at that size, which is at most three
    times the width of the grid when one tile fits into it. *)
Theorem X7_sheet_button
  (env : browser) (its : list SkullItem) (clicks : list click) (w cols0 : Z) :
  let tile := tile_after clicks in
  let cols := recomputeCols (Some w) tile gap cols0 in
  (downloadButton_disabled its = true <-> loadedCount its = 0%nat) /\
  (downloadButton_disabled its = false ->
   has_2d_context env = true ->
   (forall x s, In x its -> svg x = Some s -> svg_loads env s = true) ->
   exists c,
     downloadButton_onClick env its tile cols = SheetSaved c /\
     length (drawn c) = loadedCount its /\
     width c = cols * (3 * tile) /\
     192 * cols <= width c <= 780 * cols /\
     (tile <= w -> width c <= 3 * w) /\
     forall d, In d (drawn c) ->
       img_px d = 3 * tile /\ dw d = 3 * tile /\ dh d = 3 * tile /\
       exists x, In x its /\ loading x = false /\ svg x = Some (img_svg d)).
Proof.
  intros tile cols.
  pose proof (tile_after_range clicks) as Htile. fold tile in Htile.
  pose proof (recomputeCols_positive w tile gap cols0) as Hcols. fold cols in Hcols.
  split.
  - unfold downloadButton_disabled. rewrite downloadableVisible_length. apply Nat.eqb_eq.
  - intros Hen Hctx Hloads. unfold downloadButton_disabled in Hen.
    apply Nat.eqb_neq in Hen.
    unfold downloadButton_onClick, downloadVisibleSheetPng.
    cbn [svgs tilePx gapPx Gallery.cols outScale].
    destruct (Z.eqb_spec (Z.of_nat (length (downloadableVisible its))) 0) as [E|_]; [lia|].
    rewrite Hctx. cbn [negb].
    assert (Ha : forallb (fun p => svg_loads env (snd p)) (downloadableVisible its) = true).
    { apply forallb_forall. intros [id s] Hin. apply downloadableVisible_In in Hin.
      destruct Hin as (x & Hx & _ & Hs & _). cbn [snd]. eauto. }
    rewrite Ha. cbn [negb]. eexists. split; [reflexivity|].
    cbn [drawn width]. unfold gap.
    split; [now rewrite length_map, length_combine, length_seq, Nat.min_id,
                        downloadableVisible_length|].
    split; [lia|]. split; [nia|]. split.
    + intros Hw. subst cols. unfold recomputeCols, floor_div, gap in *.
      rewrite !Z.add_0_r in *.
      pose proof (Z.div_mod w tile ltac:(lia)) as Hdm.
      pose proof (Z.mod_pos_bound w tile ltac:(lia)) as Hb.
      assert (1 <= w / tile) by nia. rewrite Z.max_r by lia. nia.
    + intros d Hd. apply in_map_iff in Hd. destruct Hd as ([i [id s]] & <- & Hin).
      cbn [img_px dw dh img_svg fst snd]. repeat split; try lia.
      apply in_combine_r in Hin. apply downloadableVisible_In in Hin.
      destruct Hin as (x & Hx & _ & Hs & _ & Hl). eauto.
Qed.

Lemma X7_sheet_button_witness :
  let shown := {| tokenId := 1; svg := Some (lit "<svg/>"); loading := false;
                  error := None |} in
  exists c,
    downloadButton_onClick {| has_2d_context := true; svg_loads := fun _ => true |}
      [shown; placeholder 2] (tile_after [Larger]) (recomputeCols (Some 1000) (tile_after [Larger]) gap 6)
    = SheetSaved c /\ length (drawn c) = 1%nat.
Proof.
  intros shown.
  pose proof (@X7_sheet_button {| has_2d_context := true; svg_loads := fun _ => true |}
                [shown; placeholder 2] [Larger] 1000 6) as H.
  cbv zeta in H. destruct H as (_ & H).
  destruct (H eq_refl eq_refl (fun _ _ _ _ => eq_refl)) as (c & Hc & Hn & _).
  exists c. split; [exact Hc|exact Hn].
Defined.

End MergeMore.

(* --------------------------------------------------------------------- *)
(** ** Token-URI decoder and skull detail page *)

Section DecoderFacts.
Local Open Scope N_scope.

Variable JSON_parse : jsstring -> completion json.

Lemma decodeBase64ToString_encode (cps : list N) :
  Forall is_scalar_value cps ->
  Decoder.decodeBase64ToString (base64_encode (utf8_encode cps)) = Ok (utf16_encode cps).
Proof.
  intros H. pose proof (utf8_encode_octets H) as Hoct.
  unfold Decoder.decodeBase64ToString. rewrite (atob_base64_encode Hoct). cbn [bind].
  rewrite (percentEncoded_bytes Hoct). unfold decodeURIComponent.
  now apply Decode_utf8.
Qed.

Lemma startsWith_app (p r : jsstring) : startsWith (p ++ r) p = true.
Proof. apply startsWith_iff. now exists r. Qed.

Lemma slice_from_app (p r : jsstring) : slice_from (length p) (p ++ r) = r.
Proof.
  unfold slice_from. rewrite skipn_app, skipn_all, Nat.sub_diag. reflexivity.
Qed.

Lemma utf16_encode_nil (cps : list N) : utf16_encode cps = [] -> cps = [].
Proof.
  destruct cps as [|cp cps]; [reflexivity|].
  unfold utf16_encode. cbn [flat_map]. unfold UTF16EncodeCodePoint.
  destruct (cp <=? 65535); discriminate.
Qed.

Lemma forallb_Forall_true {A : Type} (f : A -> bool) (l : list A) :
  forallb f l = true <-> Forall (fun x => f x = true) l.
Proof. rewrite forallb_forall, Forall_forall. reflexivity. Qed.

(** On a valid id of the detail page, [BigInt] does not throw and answers
    the number the digits stand for. *)
Lemma isValid_BigInt (digits : jsstring) :
  Detail.isValid digits = true ->
  BigInt_of_string digits = Ok (Z.of_N (numeral_value 10 digits)).
Proof.
  intros Hv. unfold BigInt_of_string, Detail.isValid in *.
  destruct digits as [|c ds]; [discriminate|].
  apply forallb_Forall_true in Hv.
  rewrite StringToBigInt_decimal; [|discriminate|exact Hv].
  unfold parse_numeral.
  rewrite (@parse_digits_value 10 (c :: ds) 0); [reflexivity|].
  eapply Forall_impl; [|exact Hv]. intros a Ha. now apply dec_digit_value.
Qed.

(** X8. A well-formed token URI gives its picture.  Take a metadata text
    and an SVG text, both Unicode strings.  If [JSON.parse] reads the
    metadata text as an object whose [image] is the string
    [data:image/svg+xml;base64,] followed by the base64 of the UTF-8 octets
    of the SVG, then on [data:application/json;base64,] followed by the
    base64 of the UTF-8 octets of the metadata text, [parseTokenUriToSvg]
    returns the SVG text, without throwing; for an SVG text that is not
    empty the gallery item made of it is a finished tile with that SVG and
    no error, and the detail page shows it with no error. *)
Theorem X8_token_uri_gives_its_svg
  (metadata svg_text : list N) (props : list (jsstring * json))
  (client : Gallery.PublicClient) (id : Z) :
  Forall is_scalar_value metadata -> Forall is_scalar_value svg_text ->
  JSON_parse (utf16_encode metadata) = Ok (JObject props) ->
  lookup_prop (lit "image") props
  = Some (JString (lit "data:image/svg+xml;base64,"
                   ++ base64_encode (utf8_encode svg_text))) ->
  let tokenUri := lit "data:application/json;base64,"
                  ++ base64_encode (utf8_encode metadata) in
  Decoder.parseTokenUriToSvg JSON_parse tokenUri = Ok (Some (utf16_encode svg_text)) /\
  (Gallery.read_tokenURI client id = Ok tokenUri ->
   Gallery.fetch_item JSON_parse client id
   = {| Gallery.tokenId := id; Gallery.svg := Some (utf16_encode svg_text);
        Gallery.loading := false; Gallery.error := None |}) /\
  (svg_text <> [] ->
   forall st digits,
     Detail.isValid digits = true ->
     fst (Detail.fetchOne JSON_parse (Some (fun _ => Ok tokenUri)) digits st)
     = {| Detail.svg := Some (utf16_encode svg_text); Detail.loading := false;
          Detail.err := None |}).
Proof.
  intros Hm Hs Hparse Himage tokenUri.
  assert (E : Decoder.parseTokenUriToSvg JSON_parse tokenUri
              = Ok (Some (utf16_encode svg_text))).
  { unfold Decoder.parseTokenUriToSvg. subst tokenUri. cbv zeta.
    rewrite startsWith_app. cbn [negb]. rewrite slice_from_app.
    rewrite (decodeBase64ToString_encode Hm). cbn [bind].
    rewrite Hparse. cbn [bind get_named_property]. rewrite Himage.
    set (image := lit "data:image/svg+xml;base64," ++ base64_encode (utf8_encode svg_text)).
    assert (Hne : exists c t, image = c :: t) by (subst image; cbn; eauto).
    destruct Hne as (c & t & Hne). cbv beta iota. rewrite Hne. cbv beta iota.
    rewrite <- Hne. subst image. rewrite startsWith_app, slice_from_app.
    rewrite (decodeBase64ToString_encode Hs). reflexivity. }
  split; [exact E|]. split.
  - intros Hread. unfold Gallery.fetch_item. rewrite Hread. cbn [bind].
    now rewrite E.
  - intros Hne st digits Hv. unfold Detail.fetchOne. rewrite Hv. cbn [negb].
    rewrite (isValid_BigInt _ Hv). cbn [bind]. rewrite E. cbn [fst].
    destruct (utf16_encode svg_text) as [|c t] eqn:Eu; [|reflexivity].
    apply utf16_encode_nil in Eu. contradiction.
Qed.

End DecoderFacts.

Lemma X8_token_uri_gives_its_svg_witness :
  let image := JString (lit "data:image/svg+xml;base64,"
                        ++ base64_encode (utf8_encode (lit "<svg/>"))) in
  Decoder.parseTokenUriToSvg (fun _ => Ok (JObject [(lit "image", image)]))
    (lit "data:application/json;base64," ++ base64_encode (utf8_encode (lit "metadata")))
  = Ok (Some (lit "<svg/>")).
Proof.
  intros image.
  refine (proj1 (@X8_token_uri_gives_its_svg
                   (fun _ => Ok (JObject [(lit "image", image)]))
                   (lit "metadata") (lit "<svg/>") [(lit "image", image)]
                   chain_of_200 1%Z _ _ eq_refl eq_refl)).
  - cbn. repeat (constructor; [left; lia|]). constructor.
  - cbn. repeat (constructor; [left; lia|]). constructor.
Defined.

Section DetailFacts.
Import Detail.
Local Open Scope Z_scope.

Variable JSON_parse : jsstring -> completion json.

(** X9. One fetch of the detail page.  Without a client, or for a token id
    that is not a non-empty string of decimal digits, [fetchOne] reads
    nothing and leaves the state as it is.  Otherwise [BigInt] does not
    throw on the id, exactly one [tokenURI] is read, for the number the
    digits stand for, and the state that results does not depend on the
    state before: it is not loading, and it carries no error exactly when
    it carries an SVG that is not empty.  When the read rejects, the SVG is
    cleared and the error is the message of the rejection, or
    [Failed to load tokenURI] if what was thrown is not an [Error]. *)
Theorem X9_detail_fetch
  (publicClient : option (Z -> completion jsstring)) (tokenId : jsstring) (st : state) :
  let run := fetchOne JSON_parse publicClient tokenId st in
  (publicClient = None \/ isValid tokenId = false -> run = (st, [])) /\
  (forall readTokenURI,
     publicClient = Some readTokenURI -> isValid tokenId = true ->
     let id := Z.of_N (numeral_value 10 tokenId) in
     snd run = [id] /\
     fst run = fst (fetchOne JSON_parse publicClient tokenId initial) /\
     loading (fst run) = false /\
     (err (fst run) = None <-> exists s, svg (fst run) = Some s /\ s <> []) /\
     (forall e, readTokenURI id = Throw e ->
        svg (fst run) = None /\
        err (fst run) = Some match e with
                             | Err _ m => m
                             | NonError => lit "Failed to load tokenURI"
                             end)).
Proof.
  intros run. subst run. split.
  - intros [->|Hv]; [reflexivity|].
    unfold fetchOne. destruct publicClient; [|reflexivity]. now rewrite Hv.
  - intros readTokenURI -> Hv id. unfold fetchOne. rewrite Hv. cbn [negb].
    rewrite (isValid_BigInt _ Hv). fold id.
    destruct (readTokenURI id) as [uri|e] eqn:Er; cbn [bind].
    + destruct (Decoder.parseTokenUriToSvg JSON_parse uri) as [[[|c s]|]|e];
        cbn [fst snd svg loading err]; repeat split; try discriminate.
      * intros (s & Hs & Hne). injection Hs as <-. congruence.
      * intros _. exists (c :: s). split; [reflexivity|discriminate].
      * intros (s & Hs & _). discriminate.
      * intros (s & Hs & _). discriminate.
    + cbn [fst snd svg loading err]. repeat split; try discriminate.
      * intros (s & Hs & _). discriminate.
      * injection H as <-. reflexivity.
Qed.

End DetailFacts.

Lemma X9_detail_fetch_witness :
  let run := Detail.fetchOne (fun _ => Throw NonError)
               (Some (fun _ => Throw (Err OtherError (lit "HTTP request failed"))))
               (lit "0042")
               {| Detail.svg := Some (lit "<svg/>"); Detail.loading := false;
                  Detail.err := None |} in
  snd run = [42%Z] /\ Detail.svg (fst run) = None /\
  Detail.err (fst run) = Some (lit "HTTP request failed").
Proof.
  intros run.
  pose proof (@X9_detail_fetch (fun _ => Throw NonError)
                (Some (fun _ => Throw (Err OtherError (lit "HTTP request failed"))))
                (lit "0042")
                {| Detail.svg := Some (lit "<svg/>"); Detail.loading := false;
                   Detail.err := None |}) as H.
  cbv zeta in H. destruct H as (_ & H).
  destruct (H _ eq_refl eq_refl) as (Hreads & _ & _ & _ & Hthrow).
  destruct (Hthrow _ eq_refl) as (Hsvg & Herr).
  split; [exact Hreads|]. split; [exact Hsvg|exact Herr].
Defined.

(* --------------------------------------------------------------------- *)
(** ** Indexer route: normal form of token ids, calls made *)

Section RouteFacts.
Import Indexer.
Local Open Scope N_scope.

Lemma toString_10_nonempty (n : N) : toString_radix 10 n <> [].
Proof. apply toString_radix_fuel_nonempty. Qed.

(** A decimal numeral as [BigInt.toString] writes it is already in normal
    form. *)
Lemma parseAlchemyTokenIdToDecimal_canonical (z : Z) :
  parseAlchemyTokenIdToDecimal (BigInt_toString z) = Ok (BigInt_toString z).
Proof.
  assert (Hdigits : forall n,
            parseAlchemyTokenIdToDecimal (toString_radix 10 n)
            = let! v := BigInt_of_string (toString_radix 10 n) in Ok (BigInt_toString v)).
  { intros n. pose proof (toString_10_digits n) as Hd.
    unfold parseAlchemyTokenIdToDecimal.
    rewrite trim_no_space
      by (eapply Forall_impl; [|exact Hd]; intros c; apply dec_digit_not_space).
    apply forallb_Forall_true in Hd.
    rewrite hex_digits_no_0x.
    - now rewrite (dec_digits_no_letter _ Hd), andb_false_r.
    - apply forallb_Forall_true. apply forallb_Forall_true in Hd.
      eapply Forall_impl; [|exact Hd]. intros c. apply dec_digit_is_hex. }
  assert (Hread : BigInt_of_string (BigInt_toString z) = Ok z)
    by (unfold BigInt_of_string; now rewrite StringToBigInt_toString).
  destruct z as [|p|p].
  - reflexivity.
  - cbn [BigInt_toString] in *. rewrite Hdigits, Hread. reflexivity.
  - cbn [BigInt_toString] in *. unfold parseAlchemyTokenIdToDecimal.
    pose proof (toString_10_digits (N.pos p)) as Hd.
    rewrite trim_no_space.
    + cbn [lit list_ascii_of_string map startsWith all_hex_digits forallb].
      change (N_of_ascii "0" =? 45) with false.
      change (is_hex_digit 45) with false. cbn [andb].
      rewrite Hread. reflexivity.
    + constructor; [reflexivity|].
      eapply Forall_impl; [|exact Hd]. intros c. apply dec_digit_not_space.
Qed.

(** X10. Normal form of a token id.  Whatever
    [parseAlchemyTokenIdToDecimal] answers is the decimal numeral of an
    integer as [BigInt.toString] writes it; [BigInt] reads it back as that
    integer, so the comparator of the route and the mint page never throw
    on it; and normalising it again leaves it as it is. *)
Theorem X10_normal_form_is_stable (tokenId d : jsstring) :
  parseAlchemyTokenIdToDecimal tokenId = Ok d ->
  parseAlchemyTokenIdToDecimal d = Ok d /\
  exists z, d = BigInt_toString z /\ BigInt_of_string d = Ok z /\
            forall d', parseAlchemyTokenIdToDecimal d' = Ok d' ->
                       BigInt_of_string d' = Ok z -> d' = d.
Proof.
  intros H. destruct (parseAlchemyTokenIdToDecimal_shape _ H) as (z & ->).
  split; [apply parseAlchemyTokenIdToDecimal_canonical|].
  exists z. split; [reflexivity|]. split.
  - unfold BigInt_of_string. now rewrite StringToBigInt_toString.
  - intros d' Hd' Hz.
    destruct (parseAlchemyTokenIdToDecimal_shape _ Hd') as (z' & ->).
    unfold BigInt_of_string in Hz. rewrite StringToBigInt_toString in Hz.
    now injection Hz as ->.
Qed.

Lemma X10_normal_form_is_stable_witness :
  parseAlchemyTokenIdToDecimal (lit "31") = Ok (lit "31").
Proof.
  exact (proj1 (@X10_normal_form_is_stable (lit " 0x1F ") (lit "31") eq_refl)).
Defined.

Lemma letter_of_tokenId (sdk : Alchemy) (id : jsstring) : tokenId (letter_of sdk id) = id.
Proof. unfold letter_of. now destruct (getNftMetadata sdk id). Qed.

Lemma letters_tokenIds (sdk : Alchemy) (ids : list jsstring) :
  map tokenId (map (letter_of sdk) ids) = ids.
Proof.
  rewrite map_map. rewrite <- (map_id ids) at 2. apply map_ext. apply letter_of_tokenId.
Qed.

(** X11. What the route answers and whom it calls.  Every request ends in
    one of three ways.  400: the body failed validation; the answer lists at
    least one issue and the indexing service was not called.  500: the
    answer is [Failed to fetch NFTs] with a detail text; the indexing
    service was called at most once, for the owner's tokens of a validated
    address, and no metadata was asked for.  200: the address passed
    [isAddress]; the service was asked once for the owner's tokens and then
    once for the metadata of each letter of the answer, in the order of the
    answer, always in the Letter contract.  A request whose body cannot be
    read as JSON ends in 500 without any call. *)
Theorem X11_route_outcomes
  (isAddress : jsstring -> bool) (stringify_thrown : jsstring)
  (sdk : Alchemy) (request_json : completion json) :
  let run := POST isAddress stringify_thrown sdk request_json in
  ((status (fst run) = 400%Z /\ snd run = [] /\
    exists issue issues,
      body (fst run) = ErrorDetails (lit "Validation failed") (issue :: issues))
   \/
   (status (fst run) = 500%Z /\
    (exists details, body (fst run) = ErrorMessage (lit "Failed to fetch NFTs") details) /\
    (snd run = [] \/
     exists address, isAddress address = true /\ snd run = [CallGetNftsForOwner address]))
   \/
   (status (fst run) = 200%Z /\
    exists address letters,
      isAddress address = true /\
      body (fst run) = Letters true address LETTER_CONTRACT_ADDRESS letters /\
      snd run = CallGetNftsForOwner address
                  :: map (fun l => CallGetNftMetadata LETTER_CONTRACT_ADDRESS (tokenId l))
                         letters)) /\
  (forall e, request_json = Throw e ->
     run = ({| status := 500;
               body := ErrorMessage (lit "Failed to fetch NFTs")
                                    (toErrorMessage stringify_thrown e) |}, [])).
Proof.
  intros run. subst run. split; [|intros e ->; reflexivity].
  unfold POST. destruct request_json as [b|e].
  2:{ right. left. cbn. split; [reflexivity|]. split; [eauto|now left]. }
  destruct (safeParse isAddress b) as [address|issues] eqn:Ev.
  - apply safeParse_accepts in Ev. destruct Ev as (props & _ & _ & Ha).
    destruct (getNftsForOwner sdk address) as [owned|e].
    + destruct (mapM parseAlchemyTokenIdToDecimal owned) as [ids|e].
      * right. right. cbn [fst snd status body]. split; [reflexivity|].
        exists address, (map (letter_of sdk) (Array_sort by_value ids)).
        split; [exact Ha|]. split; [reflexivity|].
        f_equal. rewrite map_map. apply map_ext. intros id.
        now rewrite letter_of_tokenId.
      * right. left. cbn [fst snd status body]. split; [reflexivity|].
        split; [eauto|]. right. exists address. now split.
    + right. left. cbn [fst snd status body]. split; [reflexivity|].
      split; [eauto|]. right. exists address. now split.
  - left. cbn [fst snd status body]. split; [reflexivity|]. split; [reflexivity|].
    revert Ev. unfold safeParse.
    destruct b as [| | | |els|props]; try (intros E; injection E as <-; eauto).
    destruct (lookup_prop (lit "address") props) as [[| | |s| |]|];
      try (intros E; injection E as <-; eauto).
    destruct (isAddress s); [discriminate|]. intros E; injection E as <-; eauto.
Qed.

End RouteFacts.

Lemma X11_route_outcomes_witness :
  Indexer.POST (fun _ => true) (lit "{}")
    {| Indexer.getNftsForOwner := fun _ => Ok []; Indexer.getNftMetadata := fun _ => Ok JNull |}
    (Throw (Err SyntaxError (lit "Unexpected end of JSON input")))
  = ({| Indexer.status := 500;
        Indexer.body := Indexer.ErrorMessage (lit "Failed to fetch NFTs")
                                             (lit "Unexpected end of JSON input") |}, []).
Proof.
  exact (proj2 (@X11_route_outcomes (fun _ => true) (lit "{}")
                  {| Indexer.getNftsForOwner := fun _ => Ok [];
                     Indexer.getNftMetadata := fun _ => Ok JNull |}
                  (Throw (Err SyntaxError (lit "Unexpected end of JSON input"))))
               _ eq_refl).
Defined.

(* --------------------------------------------------------------------- *)
(** ** Mint page: what a reconciliation keeps and settles *)

Section ReconcileFacts.
Import Mint.
Local Open Scope Z_scope.

Variable client : PublicClient.


Lemma hydrate_try_settled (it x : Item) (t : list read) :
  hydrate_try client it = (Ok x, t) ->
  letterTokenId x = letterTokenId it /\ letterName x = letterName it /\
  letterImageUrl x = letterImageUrl it /\ loading x = false.
Proof.
  unfold hydrate_try, readContract, await, Promise_all2, ret.
  destruct (usedLetterToken client (letterTokenId it)) as [u|e],
           (skullOfLetter client (letterTokenId it)) as [k|e']; try discriminate.
  destruct (negb (u || negb (k =? ZERO)) || (k =? ZERO)).
  - intros H. injection H as <- _. repeat split.
  - destruct (ownerOf client k), (nonceOf client k) as [n|]; try discriminate.
    destruct (previewSvg client (letterTokenId it) n); try discriminate.
    intros H. injection H as <- _. repeat split.
Qed.

Lemma hydrate_item_identity (it : Item) :
  letterTokenId (fst (hydrate_item client it)) = letterTokenId it /\
  letterName (fst (hydrate_item client it)) = letterName it /\
  letterImageUrl (fst (hydrate_item client it)) = letterImageUrl it /\
  loading (fst (hydrate_item client it)) = false.
Proof.
  unfold hydrate_item, try_catch.
  destruct (hydrate_try client it) as [[x|e] t] eqn:E; cbn [fst].
  - exact (hydrate_try_settled _ E).
  - repeat split.
Qed.

Lemma hydrate_item_reads_bound (it : Item) :
  (2 <= length (snd (hydrate_item client it)) <= 5)%nat.
Proof.
  unfold hydrate_item, hydrate_try, readContract, try_catch, await, Promise_all2, ret.
  destruct (usedLetterToken client (letterTokenId it)) as [u|e],
           (skullOfLetter client (letterTokenId it)) as [k|e']; cbn; try lia.
  destruct (negb (u || negb (k =? ZERO)) || (k =? ZERO)); cbn; [lia|].
  destruct (ownerOf client k), (nonceOf client k) as [n|]; cbn; try lia.
  destruct (previewSvg client (letterTokenId it) n); cbn; lia.
Qed.


Lemma settled_item (x : Item) : loading x = false -> mintable x = negb (minted x).
Proof.
  intros H. unfold mintable, minted. rewrite H. cbn [negb andb].
  destruct (usedLetter x), (skullTokenId x =? ZERO); reflexivity.
Qed.

Lemma settled_partition (l : list Item) :
  Forall (fun x => loading x = false) l ->
  (mintableCount l + length (filter minted l) = length l)%nat.
Proof.
  induction 1 as [|x l Hx Hl IH]; [reflexivity|].
  rewrite mintableCount_cons, (settled_item _ Hx). cbn [filter length].
  destruct (minted x); cbn [negb length]; lia.
Qed.

Lemma hydrateSkulls_small (items : list Item) :
  (length items <= 80)%nat ->
  hydrateSkulls (Some client) items items
  = (map (fun it => fst (hydrate_item client it)) items,
     flat_map (fun it => snd (hydrate_item client it)) items).
Proof.
  intros Hlen. destruct items as [|i0 is0] eqn:Ei; [reflexivity|]. rewrite <- Ei in *.
  assert (Hne : items <> []) by (rewrite Ei; discriminate).
  rewrite (surjective_pairing (hydrateSkulls (Some client) items items)).
  rewrite (hydrateSkulls_items client items Hne), hydrateSkulls_reads.
  rewrite firstn_all2 by lia.
  rewrite skipn_all2 by (rewrite length_map; lia). now rewrite app_nil_r.
Qed.

(** Whatever the callback and the loading mark leave alone is the same,
    item by item, before and after [hydrateSkulls]. *)
Lemma hydrateSkulls_frame (items : list Item) (B : Type) (f : Item -> B) :
  (forall it, f (fst (hydrate_item client it)) = f it) ->
  (forall it, f (set_loading true it) = f it) ->
  map f (fst (hydrateSkulls (Some client) items items)) = map f items.
Proof.
  intros Hh Hs.
  destruct items as [|i0 is0] eqn:Ei; [reflexivity|]. rewrite <- Ei in *.
  assert (Hne : items <> []) by (rewrite Ei; discriminate).
  rewrite (hydrateSkulls_items client items Hne).
  rewrite map_app, map_map, <- skipn_map, map_map.
  rewrite (map_ext _ _ Hh), (map_ext _ _ Hs).
  rewrite <- firstn_map.
  assert (Hl : length (firstn 80 items) = length (firstn 80 (map f items)))
    by (now rewrite !length_firstn, length_map).
  rewrite Hl.
  destruct (Nat.le_gt_cases (length (map f items)) 80) as [Hle|Hgt].
  - rewrite firstn_all2 by exact Hle. rewrite skipn_all. apply app_nil_r.
  - rewrite length_firstn, Nat.min_l by lia. apply firstn_skipn.
Qed.

(** X12. A reconciliation keeps the list and settles it.  [hydrateSkulls]
    run on the items of the page gives back as many items, each for the
    same Letter, with the same name and image, in the same order.  With at
    most 80 items none is left loading: each one is then either shown as
    minted or counted as mintable, never both, the mint button of an item is
    disabled exactly when it is minted or a transaction is under way, and
    the chain was read at least twice and at most five times per item. *)
Theorem X12_reconciliation_settles (items : list Item) :
  let run := hydrateSkulls (Some client) items items in
  length (fst run) = length items /\
  map letterTokenId (fst run) = map letterTokenId items /\
  map letterName (fst run) = map letterName items /\
  map letterImageUrl (fst run) = map letterImageUrl items /\
  ((length items <= 80)%nat ->
   Forall (fun x => loading x = false) (fst run) /\
   (forall x, In x (fst run) -> mintable x = negb (minted x)) /\
   (forall x isPending isConfirming, In x (fst run) ->
      disableMint isPending isConfirming x = minted x || isPending || isConfirming) /\
   (mintableCount (fst run) + length (filter minted (fst run)) = length items)%nat /\
   (2 * length items <= length (snd run) <= 5 * length items)%nat).
Proof.
  intros run.
  assert (Hframe : forall (B : Type) (f : Item -> B),
             (forall it, f (fst (hydrate_item client it)) = f it) ->
             (forall it, f (set_loading true it) = f it) ->
             map f (fst run) = map f items)
    by (intros B f; apply hydrateSkulls_frame).
  split; [|split; [|split; [|split]]].
  - rewrite <- (length_map letterTokenId (fst run)), <- (length_map letterTokenId items).
    f_equal. apply Hframe; [apply hydrate_item_identity|reflexivity].
  - apply Hframe; [apply hydrate_item_identity|reflexivity].
  - apply Hframe; [apply hydrate_item_identity|reflexivity].
  - apply Hframe; [apply hydrate_item_identity|reflexivity].
  - intros Hlen. subst run. rewrite (hydrateSkulls_small _ Hlen). cbn [fst snd].
    assert (Hsettled : Forall (fun x => loading x = false)
                         (map (fun it => fst (hydrate_item client it)) items)).
    { apply Forall_map, Forall_forall. intros it _. apply hydrate_item_identity. }
    split; [exact Hsettled|]. rewrite Forall_forall in Hsettled.
    split; [intros x Hx; apply settled_item; auto|].
    split.
    { intros x p c Hx. unfold disableMint. rewrite (Hsettled x Hx).
      now rewrite orb_false_r. }
    split.
    + rewrite <- (length_map (fun it => fst (hydrate_item client it)) items).
      apply settled_partition. apply Forall_forall. exact Hsettled.
    + clear Hlen Hsettled Hframe. induction items as [|it its IH]; [cbn; lia|].
      cbn [flat_map length]. rewrite length_app.
      pose proof (hydrate_item_reads_bound it). lia.
Qed.


End ReconcileFacts.

Lemma X12_reconciliation_settles_witness :
  let letter id := Mint.fresh_item (id, None, None) in
  let run := Mint.hydrateSkulls (Some owner_unreadable) [letter 7%Z; letter 9%Z]
                                [letter 7%Z; letter 9%Z] in
  Forall (fun x => Mint.loading x = false) (fst run) /\
  (length (snd run) <= 10)%nat.
Proof.
  intros letter run.
  pose proof (@X12_reconciliation_settles owner_unreadable [letter 7%Z; letter 9%Z]) as H.
  cbv zeta in H. destruct H as (_ & _ & _ & _ & H).
  destruct (H ltac:(cbn; lia)) as (Hsettled & _ & _ & _ & Hreads).
  split; [exact Hsettled|exact (proj2 Hreads)].
Defined.


(* --------------------------------------------------------------------- *)
(** ** From the answer of the route to the items of the mint page *)

Section AnswerFacts.
Local Open Scope Z_scope.

Lemma sorted_le_unique (l1 l2 : list Z) :
  StronglySorted Z.le l1 -> StronglySorted Z.le l2 -> Permutation l1 l2 -> l1 = l2.
Proof.
  intros H1. revert l2. induction H1 as [|x l1 Hs1 IH Hx]; intros l2 H2 Hp.
  - now apply Permutation_nil in Hp.
  - destruct H2 as [|y l2 Hs2 Hy].
    + symmetry in Hp. now apply Permutation_nil in Hp.
    + assert (E : x = y).
      { rewrite Forall_forall in Hx, Hy.
        assert (Hxin : In x (y :: l2)) by (eapply Permutation_in; [exact Hp|now left]).
        assert (Hyin : In y (x :: l1))
          by (eapply Permutation_in; [symmetry; exact Hp|now left]).
        destruct Hxin as [->|Hxin]; [reflexivity|].
        destruct Hyin as [->|Hyin]; [reflexivity|].
        specialize (Hx y Hyin). specialize (Hy x Hxin). lia. }
      subst y. f_equal. apply IH; [exact Hs2|].
      now apply Permutation_cons_inv in Hp.
Qed.

Lemma key_le_map {A : Type} (key : A -> Z) (l : list A) :
  StronglySorted (key_le key) l -> StronglySorted Z.le (map key l).
Proof.
  induction 1 as [|x l Hs IH Hx]; simpl; constructor; [exact IH|].
  rewrite Forall_map. exact Hx.
Qed.

(** The letters of a successful answer carry the decimal numerals of
    integers in ascending order. *)
Lemma POST_letters_values
  (isAddress : jsstring -> bool) (stringify_thrown : jsstring) (sdk : Indexer.Alchemy)
  (request : completion json) (status : Z) (address contract : jsstring)
  (letters : list Indexer.LetterItem) :
  fst (Indexer.POST isAddress stringify_thrown sdk request)
  = {| Indexer.status := status;
       Indexer.body := Indexer.Letters true address contract letters |} ->
  exists values,
    map Indexer.tokenId letters = map BigInt_toString values /\
    StronglySorted Z.le values.
Proof.
  unfold Indexer.POST.
  destruct request as [b|e]; [|discriminate].
  destruct (Indexer.safeParse isAddress b) as [a|issues]; [|discriminate].
  destruct (Indexer.getNftsForOwner sdk a) as [owned|e]; [|discriminate].
  destruct (mapM Indexer.parseAlchemyTokenIdToDecimal owned) as [ids|e] eqn:Hids;
    [|discriminate].
  cbn [fst]. intros H. injection H as _ _ _ <-.
  assert (Hok : Forall (fun s => exists z, s = BigInt_toString z) ids).
  { apply mapM_Forall2 in Hids. clear -Hids.
    induction Hids as [|x d l l' Hxd _ IH]; constructor; [|exact IH].
    now apply parseAlchemyTokenIdToDecimal_shape in Hxd. }
  rewrite letters_tokenIds. apply sorted_ids_values.
  - apply (Permutation_Forall (Permutation_sym (Array_sort_perm _ ids))). exact Hok.
  - apply Array_sort_sorted with (ok := fun s => exists z, s = BigInt_toString z);
      [|exact Hok].
    intros x y Hx Hy. now apply by_value_key.
Qed.

Lemma parsed_letters (letters : list Mint.Letter) (values : list Z) :
  map Mint.tokenId letters = map BigInt_toString values ->
  mapM (fun l => let! id := BigInt_of_string (Mint.tokenId l) in
                 Ok (id, Mint.name l, Mint.imageUrl l)) letters
  = Ok (map (fun lv => (snd lv, Mint.name (fst lv), Mint.imageUrl (fst lv)))
            (combine letters values)).
Proof.
  revert values. induction letters as [|l ls IH]; intros [|v vs] H; try discriminate.
  - reflexivity.
  - cbn [map] in H. injection H as Hl Hls.
    cbn [mapM combine map fst snd]. rewrite Hl.
    unfold BigInt_of_string at 1. rewrite StringToBigInt_toString. cbn [bind].
    now rewrite (IH vs Hls).
Qed.

Lemma snd_combine {A B : Type} (l : list A) (l' : list B) :
  length l = length l' -> map snd (combine l l') = l'.
Proof.
  revert l'. induction l as [|a l IH]; intros [|b l'] H; try discriminate; [reflexivity|].
  cbn [combine map snd]. f_equal. apply IH. now injection H.
Qed.

Lemma by_letterTokenId_key (a b : Z * option jsstring * option jsstring) :
  (Mint.by_letterTokenId a b <=? 0) = (fst (fst a) <? fst (fst b)).
Proof. unfold Mint.by_letterTokenId. now destruct (fst (fst a) <? fst (fst b)). Qed.

(** X14. The answer of the route feeds the mint page.  On the letters of
    any successful answer of the route, the mint page's [BigInt] never
    throws: the page builds one item per letter, keeping the ascending order
    of the answer, each item for the number its letter names, with the name
    and the image of a letter of that number.  Every item starts out
    loading, unused and without a Skull, so that before the reconciliation
    nothing counts as mintable and every mint button is disabled. *)
Theorem X14_answer_feeds_the_mint_page
  (isAddress : jsstring -> bool) (stringify_thrown : jsstring) (sdk : Indexer.Alchemy)
  (request : completion json) (status : Z) (address contract : jsstring)
  (letters : list Indexer.LetterItem) :
  fst (Indexer.POST isAddress stringify_thrown sdk request)
  = {| Indexer.status := status;
       Indexer.body := Indexer.Letters true address contract letters |} ->
  exists its,
    Mint.nextItems (map letter_on_page letters) = Ok its /\
    map (fun it => BigInt_toString (Mint.letterTokenId it)) its
    = map Indexer.tokenId letters /\
    StronglySorted Z.le (map Mint.letterTokenId its) /\
    (forall it, In it its ->
       exists l, In l letters /\
                 Indexer.tokenId l = BigInt_toString (Mint.letterTokenId it) /\
                 Indexer.name l = Mint.letterName it /\
                 Indexer.imageUrl l = Mint.letterImageUrl it) /\
    (forall it, In it its ->
       Mint.loading it = true /\ Mint.usedLetter it = false /\
       Mint.skullTokenId it = 0 /\ Mint.skullSvg it = None /\ Mint.skullOwner it = None /\
       forall isPending isConfirming, Mint.disableMint isPending isConfirming it = true) /\
    Mint.mintableCount its = 0%nat.
Proof.
  intros Hrun. destruct (POST_letters_values _ _ _ _ Hrun) as (values & Hids & Hsorted).
  assert (Hids' : map Mint.tokenId (map letter_on_page letters) = map BigInt_toString values)
    by (now rewrite map_map).
  assert (Hlen : length letters = length values)
    by (rewrite <- (length_map Indexer.tokenId), Hids; apply length_map).
  unfold Mint.nextItems. rewrite (parsed_letters _ _ Hids'). cbn [bind].
  set (parsed := map (fun lv => (snd lv, Mint.name (fst lv), Mint.imageUrl (fst lv)))
                     (combine (map letter_on_page letters) values)).
  set (sorted := Array_sort Mint.by_letterTokenId parsed).
  assert (Hkeys : map (fun p => fst (fst p)) parsed = values).
  { subst parsed. rewrite map_map. cbn [fst].
    rewrite <- (map_map snd (fun v => v)), map_id.
    apply snd_combine. rewrite length_map. exact Hlen. }
  assert (Hperm : Permutation sorted parsed) by apply Array_sort_perm.
  assert (Hs : StronglySorted Z.le (map (fun p => fst (fst p)) sorted)).
  { apply key_le_map.
    apply Array_sort_sorted with (ok := fun _ => True).
    - intros a b _ _. apply by_letterTokenId_key.
    - apply Forall_forall. trivial. }
  assert (Hsame : map (fun p => fst (fst p)) sorted = values).
  { apply sorted_le_unique; [exact Hs|exact Hsorted|].
    rewrite <- Hkeys. now apply Permutation_map. }
  exists (map Mint.fresh_item sorted).
  split; [reflexivity|]. split; [|split; [|split; [|split]]].
  - rewrite Hids, <- Hsame, !map_map. reflexivity.
  - rewrite map_map. exact Hs.
  - intros it Hit. apply in_map_iff in Hit. destruct Hit as (p & <- & Hp).
    apply (Permutation_in _ Hperm) in Hp. subst parsed.
    apply in_map_iff in Hp. destruct Hp as ([l v] & <- & Hlv).
    assert (Hv : Mint.tokenId l = BigInt_toString v).
    { clear -Hlv Hids'. revert values Hids' Hlv.
      induction (map letter_on_page letters) as [|l0 ls IH]; intros [|v0 vs] H Hin;
        try contradiction; try discriminate.
      cbn [map] in H. injection H as H0 Hs. destruct Hin as [E|Hin].
      - now injection E as <- <-.
      - exact (IH vs Hs Hin). }
    apply in_combine_l in Hlv. apply in_map_iff in Hlv.
    destruct Hlv as (l0 & <- & Hl0). exists l0.
    split; [exact Hl0|]. cbn in *. repeat split. exact Hv.
  - intros it Hit. apply in_map_iff in Hit. destruct Hit as (p & <- & _).
    repeat split. intros p' c'. apply disableMint_loading. reflexivity.
  - unfold Mint.mintableCount. generalize sorted. intros l.
    induction l as [|p ps IH]; [reflexivity|]. exact IH.
Qed.

End AnswerFacts.

Lemma X14_answer_feeds_the_mint_page_witness :
  let sdk := {| Indexer.getNftsForOwner := fun _ => Ok [lit "0x0b"; lit " 7 "];
                Indexer.getNftMetadata := fun _ => Throw NonError |} in
  let request := Ok (JObject [(lit "address", JString (lit "0xabc"))]) in
  exists its,
    Mint.nextItems
      (map letter_on_page
         [{| Indexer.tokenId := lit "7"; Indexer.name := None; Indexer.imageUrl := None;
             Indexer.tokenUri := None |};
          {| Indexer.tokenId := lit "11"; Indexer.name := None; Indexer.imageUrl := None;
             Indexer.tokenUri := None |}]) = Ok its /\
    Mint.mintableCount its = 0%nat.
Proof.
  intros sdk request.
  destruct (@X14_answer_feeds_the_mint_page (fun _ => true) [] sdk request
              200%Z (lit "0xabc") Indexer.LETTER_CONTRACT_ADDRESS _ eq_refl)
    as (its & Hnext & _ & _ & _ & _ & Hcount).
  exists its. split; [exact Hnext|exact Hcount].
Defined.

(* --------------------------------------------------------------------- *)
(** ** Mint page: labels *)

Section LabelFacts.
Import MintLabels.
Local Open Scope nat_scope.



End LabelFacts.


(* --------------------------------------------------------------------- *)
(** ** What the decoder returns is the UTF-8 reading of the octets *)

Section DecodeSound.
Local Open Scope N_scope.

Lemma list_ind4 {A : Type} (P : list A -> Prop) :
  P [] -> (forall x, P [x]) -> (forall x y, P [x; y]) -> (forall x y z, P [x; y; z]) ->
  (forall x y z w l, P l -> P (x :: y :: z :: w :: l)) ->
  forall l, P l.
Proof.
  intros H0 H1 H2 H3 H4.
  fix IH 1. intros [|x [|y [|z [|w l]]]]; [exact H0|apply H1|apply H2|apply H3|].
  apply H4. apply IH.
Qed.

Lemma b64_value_bound (c v : N) : b64_value c = Some v -> v < 64.
Proof.
  unfold b64_value.
  repeat match goal with
         | |- context [if ?b then _ else _] => destruct b eqn:?
         end;
    intros H; try discriminate; injection H as <-; bool_bounds; lia.
Qed.

Lemma sextets_bound (d : jsstring) (v : list N) :
  sextets d = Some v -> Forall (fun x => x < 64) v.
Proof.
  revert v. induction d as [|c d IH]; intros v; cbn [sextets].
  - intros H. injection H as <-. constructor.
  - destruct (b64_value c) as [x|] eqn:Ec; [|discriminate].
    destruct (sextets d) as [xs|]; [|discriminate].
    intros H. injection H as <-. constructor; [now apply b64_value_bound in Ec|].
    now apply IH.
Qed.

Lemma bytes_of_sextets_bound (v : list N) :
  Forall (fun x => x < 64) v -> Forall (fun b => b < 256) (bytes_of_sextets v).
Proof.
  induction v as [|x|x y|x y z|x y z w l IH] using list_ind4; intros H;
    cbn [bytes_of_sextets].
  - constructor.
  - constructor.
  - inversion H as [|? ? Hx H']; subst. inversion H' as [|? ? Hy _]; subst.
    repeat constructor. lia_div.
  - inversion H as [|? ? Hx H']; subst. inversion H' as [|? ? Hy H'']; subst.
    inversion H'' as [|? ? Hz _]; subst.
    repeat constructor; lia_div.
  - inversion H as [|? ? Hx H']; subst. inversion H' as [|? ? Hy H'']; subst.
    inversion H'' as [|? ? Hz H3]; subst. inversion H3 as [|? ? Hw Hl]; subst.
    cbv zeta. repeat (constructor; [lia_div|]). now apply IH.
Qed.

(** [atob] answers a binary string. *)
Lemma atob_bytes (data bin : jsstring) :
  atob data = Ok bin -> Forall (fun b => b < 256) bin.
Proof.
  unfold atob.
  destruct (_ mod 4 =? 1); [discriminate|].
  destruct (sextets _) as [v|] eqn:E; [|discriminate].
  intros H. injection H as <-. apply bytes_of_sextets_bound. now apply sextets_bound in E.
Qed.

Lemma is_continuation_bounds (b : N) : is_continuation b = true -> 128 <= b < 192.
Proof.
  unfold is_continuation. rewrite andb_true_iff, !N.leb_le. lia.
Qed.

(** Reading a two-, three- or four-octet sequence back: what
    [utf8_code_point] accepts is a scalar value whose encoding is the
    sequence. *)
Lemma utf8_code_point_two (b0 b1 V : N) :
  192 <= b0 < 224 ->
  utf8_code_point [b0; b1] = Some V ->
  is_scalar_value V /\ utf8_encode_code_point V = [b0; b1].
Proof.
  intros H0. cbn [utf8_code_point]. cbv zeta.
  destruct (is_continuation b1) eqn:E1; [|discriminate].
  apply is_continuation_bounds in E1. cbn [andb].
  destruct (N.leb_spec 128 ((b0 mod 32) * 64 + b1 mod 64)) as [Hmin|_]; [|discriminate].
  intros H. injection H as <-.
  assert (Ea : b0 mod 32 = b0 - 192) by lia_div.
  assert (Ex : b1 mod 64 = b1 - 128) by lia_div.
  rewrite Ea, Ex in *.
  set (a := b0 - 192) in *. set (x := b1 - 128) in *.
  assert (Ha : a < 32) by lia. assert (Hx : x < 64) by lia.
  assert (Hb0 : b0 = 192 + a) by lia. assert (Hb1 : b1 = 128 + x) by lia.
  split; [left; lia|].
  unfold utf8_encode_code_point.
  destruct (N.ltb_spec (a * 64 + x) 128); [lia|].
  destruct (N.ltb_spec (a * 64 + x) 2048); [|lia].
  rewrite Hb0, Hb1. f_equal; [f_equal; lia_div|]. f_equal. f_equal. lia_div.
Qed.

Lemma radix64_compose3 (a x y : N) :
  x < 64 -> y < 64 ->
  (a * 4096 + x * 64 + y) / 4096 = a /\
  ((a * 4096 + x * 64 + y) / 64) mod 64 = x /\
  (a * 4096 + x * 64 + y) mod 64 = y.
Proof. intros Hx Hy. repeat split; lia_div. Qed.

Lemma radix64_compose4 (a w x y : N) :
  w < 64 -> x < 64 -> y < 64 ->
  (a * 262144 + w * 4096 + x * 64 + y) / 262144 = a /\
  ((a * 262144 + w * 4096 + x * 64 + y) / 4096) mod 64 = w /\
  ((a * 262144 + w * 4096 + x * 64 + y) / 64) mod 64 = x /\
  (a * 262144 + w * 4096 + x * 64 + y) mod 64 = y.
Proof. intros Hw Hx Hy. repeat split; lia_div. Qed.

Lemma utf8_code_point_three (b0 b1 b2 V : N) :
  224 <= b0 < 240 ->
  utf8_code_point [b0; b1; b2] = Some V ->
  is_scalar_value V /\ utf8_encode_code_point V = [b0; b1; b2].
Proof.
  intros H0. cbn [utf8_code_point]. cbv zeta.
  destruct (is_continuation b1) eqn:E1; [|discriminate].
  destruct (is_continuation b2) eqn:E2; [|discriminate].
  apply is_continuation_bounds in E1, E2. cbn [andb].
  assert (Ea : b0 mod 16 = b0 - 224) by lia_div.
  assert (Ex : b1 mod 64 = b1 - 128) by lia_div.
  assert (Ey : b2 mod 64 = b2 - 128) by lia_div.
  rewrite Ea, Ex, Ey.
  set (a := b0 - 224) in *. set (x := b1 - 128) in *. set (y := b2 - 128) in *.
  assert (Ha : a < 16) by lia. assert (Hx : x < 64) by lia. assert (Hy : y < 64) by lia.
  assert (Hb0 : b0 = 224 + a) by lia. assert (Hb1 : b1 = 128 + x) by lia.
  assert (Hb2 : b2 = 128 + y) by lia.
  destruct (@radix64_compose3 a x y Hx Hy) as (Q1 & Q2 & Q3).
  set (W := a * 4096 + x * 64 + y) in *.
  assert (HW : W < 65536) by (subst W; lia).
  destruct (N.leb_spec 2048 W) as [Hmin|_]; [|discriminate]. cbn [andb].
  destruct (N.leb_spec 55296 W), (N.leb_spec W 57343); cbn [andb negb];
    try discriminate; intros HV; injection HV as <-.
  all: (split; [unfold is_scalar_value; lia|]).
  all: unfold utf8_encode_code_point.
  all: destruct (N.ltb_spec W 128); [lia|].
  all: destruct (N.ltb_spec W 2048); [lia|].
  all: destruct (N.ltb_spec W 65536); [|lia].
  all: rewrite Q1, Q2, Q3, Hb0, Hb1, Hb2; reflexivity.
Qed.

Lemma utf8_code_point_four (b0 b1 b2 b3 V : N) :
  240 <= b0 < 248 ->
  utf8_code_point [b0; b1; b2; b3] = Some V ->
  is_scalar_value V /\ utf8_encode_code_point V = [b0; b1; b2; b3].
Proof.
  intros H0. cbn [utf8_code_point]. cbv zeta.
  destruct (is_continuation b1) eqn:E1; [|discriminate].
  destruct (is_continuation b2) eqn:E2; [|discriminate].
  destruct (is_continuation b3) eqn:E3; [|discriminate].
  apply is_continuation_bounds in E1, E2, E3. cbn [andb].
  assert (Ea : b0 mod 8 = b0 - 240) by lia_div.
  assert (Ew : b1 mod 64 = b1 - 128) by lia_div.
  assert (Ex : b2 mod 64 = b2 - 128) by lia_div.
  assert (Ey : b3 mod 64 = b3 - 128) by lia_div.
  rewrite Ea, Ew, Ex, Ey.
  set (a := b0 - 240) in *. set (w := b1 - 128) in *.
  set (x := b2 - 128) in *. set (y := b3 - 128) in *.
  assert (Ha : a < 8) by lia. assert (Hw : w < 64) by lia.
  assert (Hx : x < 64) by lia. assert (Hy : y < 64) by lia.
  assert (Hb0 : b0 = 240 + a) by lia. assert (Hb1 : b1 = 128 + w) by lia.
  assert (Hb2 : b2 = 128 + x) by lia. assert (Hb3 : b3 = 128 + y) by lia.
  destruct (@radix64_compose4 a w x y Hw Hx Hy) as (Q1 & Q2 & Q3 & Q4).
  set (W := a * 262144 + w * 4096 + x * 64 + y) in *.
  destruct (N.leb_spec 65536 W) as [Hmin|_]; [|discriminate].
  destruct (N.leb_spec W 1114111) as [Hmax|_]; [|discriminate].
  cbn [andb]. intros H; injection H as <-.
  split; [unfold is_scalar_value; lia|].
  unfold utf8_encode_code_point.
  destruct (N.ltb_spec W 128); [lia|].
  destruct (N.ltb_spec W 2048); [lia|].
  destruct (N.ltb_spec W 65536); [lia|].
  rewrite Q1, Q2, Q3, Q4, Hb0, Hb1, Hb2, Hb3; reflexivity.
Qed.

Lemma Decode_sound (n : nat) (bs : list N) (s : jsstring) :
  (length bs <= n)%nat -> Forall (fun b => b < 256) bs ->
  Decode 0 [] (flat_map percent_escape bs) = Ok s -> utf8_text bs s.
Proof.
  revert bs s. induction n as [|n IH]; intros bs s Hlen Hb HD.
  { destruct bs; [|cbn in Hlen; lia]. cbn in HD. injection HD as <-.
    exists []. repeat split. constructor. }
  destruct bs as [|b0 bs].
  { cbn in HD. injection HD as <-. exists []. repeat split. constructor. }
  inversion Hb as [|? ? Hb0 Hbs]; subst.
  assert (Hrest : forall bs' r, (length bs' <= length bs)%nat ->
            Forall (fun b => b < 256) bs' ->
            Decode 0 [] (flat_map percent_escape bs') = Ok r -> utf8_text bs' r).
  { intros bs' r Hl. apply IH. cbn [length] in Hlen. lia. }
  cbn [flat_map] in HD. rewrite Decode_start in HD by exact Hb0.
  rewrite (leading_ones_spec Hb0) in HD. unfold leading_ones_by_range in HD.
  destruct (N.ltb_spec b0 128) as [H1|H1].
  { destruct (Decode 0 [] (flat_map percent_escape bs)) as [r|e] eqn:Er; [|discriminate].
    cbn [bind] in HD. injection HD as <-.
    destruct (Hrest bs r (Nat.le_refl _) Hbs Er) as (cps & Hc & -> & ->).
    exists (b0 :: cps). split; [constructor; [left; lia|exact Hc]|].
    unfold utf8_encode, utf16_encode. cbn [flat_map].
    unfold utf8_encode_code_point, UTF16EncodeCodePoint.
    destruct (N.ltb_spec b0 128); [|lia]. destruct (N.leb_spec b0 65535); [|lia].
    split; reflexivity. }
  destruct (N.ltb_spec b0 192) as [H2|H2]; [discriminate|].
  destruct (N.ltb_spec b0 224) as [H3|H3].
  { destruct bs as [|b1 bs]; [discriminate|].
    inversion Hbs as [|? ? Hb1 Hbs1]; subst.
    cbn [flat_map] in HD. rewrite Decode_finish in HD by exact Hb1.
    cbn [app] in HD.
    destruct (utf8_code_point [b0; b1]) as [V|] eqn:EV; [|discriminate].
    destruct (Decode 0 [] (flat_map percent_escape bs)) as [r|e] eqn:Er; [|discriminate].
    cbn [bind] in HD. injection HD as <-.
    destruct (@utf8_code_point_two b0 b1 V ltac:(lia) EV) as (HV & HE).
    destruct (Hrest bs r ltac:(cbn [length]; lia) Hbs1 Er) as (cps & Hc & -> & ->).
    exists (V :: cps). split; [constructor; assumption|].
    unfold utf8_encode, utf16_encode. cbn [flat_map]. rewrite HE. split; reflexivity. }
  destruct (N.ltb_spec b0 240) as [H4|H4].
  { destruct bs as [|b1 [|b2 bs]]; [discriminate| |].
    { inversion Hbs as [|? ? Hb1 _]; subst. cbn [flat_map] in HD.
      rewrite Decode_continue in HD by exact Hb1. discriminate. }
    inversion Hbs as [|? ? Hb1 Hbs1]; subst. inversion Hbs1 as [|? ? Hb2 Hbs2]; subst.
    cbn [flat_map] in HD. rewrite Decode_continue in HD by exact Hb1.
    rewrite Decode_finish in HD by exact Hb2. cbn [app] in HD.
    destruct (utf8_code_point [b0; b1; b2]) as [V|] eqn:EV; [|discriminate].
    destruct (Decode 0 [] (flat_map percent_escape bs)) as [r|e] eqn:Er; [|discriminate].
    cbn [bind] in HD. injection HD as <-.
    destruct (@utf8_code_point_three b0 b1 b2 V ltac:(lia) EV) as (HV & HE).
    destruct (Hrest bs r ltac:(cbn [length]; lia) Hbs2 Er) as (cps & Hc & -> & ->).
    exists (V :: cps). split; [constructor; assumption|].
    unfold utf8_encode, utf16_encode. cbn [flat_map]. rewrite HE. split; reflexivity. }
  destruct (N.ltb_spec b0 248) as [H5|H5]; [|discriminate].
  destruct bs as [|b1 [|b2 [|b3 bs]]]; [discriminate| | |].
  { inversion Hbs as [|? ? Hb1 _]; subst. cbn [flat_map] in HD.
    rewrite Decode_continue in HD by exact Hb1. discriminate. }
  { inversion Hbs as [|? ? Hb1 Hbs1]; subst. inversion Hbs1 as [|? ? Hb2 _]; subst.
    cbn [flat_map] in HD. rewrite !Decode_continue in HD by assumption. discriminate. }
  inversion Hbs as [|? ? Hb1 Hbs1]; subst. inversion Hbs1 as [|? ? Hb2 Hbs2]; subst.
  inversion Hbs2 as [|? ? Hb3 Hbs3]; subst.
  cbn [flat_map] in HD. rewrite !Decode_continue in HD by assumption.
  rewrite Decode_finish in HD by exact Hb3. cbn [app] in HD.
  destruct (utf8_code_point [b0; b1; b2; b3]) as [V|] eqn:EV; [|discriminate].
  destruct (Decode 0 [] (flat_map percent_escape bs)) as [r|e] eqn:Er; [|discriminate].
  cbn [bind] in HD. injection HD as <-.
  destruct (@utf8_code_point_four b0 b1 b2 b3 V ltac:(lia) EV) as (HV & HE).
  destruct (Hrest bs r ltac:(cbn [length]; lia) Hbs3 Er) as (cps & Hc & -> & ->).
  exists (V :: cps). split; [constructor; assumption|].
  unfold utf8_encode, utf16_encode. cbn [flat_map]. rewrite HE. split; reflexivity.
Qed.

(** X16. What the decoder returns is the UTF-8 reading of the octets.
    Whenever [decodeBase64ToString] returns a string, [atob] has read the
    input as a sequence of octets, and the string is the text these octets
    encode in UTF-8: there is a sequence of Unicode scalar values whose
    UTF-8 encoding is exactly the octets and whose UTF-16 encoding is the
    string returned.  On octets that are not well-formed UTF-8 (a stray
    continuation octet, a truncated or overlong sequence, an encoded
    surrogate, a value above U+10FFFF) the function therefore does not
    return: it throws. *)
Theorem X16_decoded_text_is_the_utf8_reading (b64 s : jsstring) :
  Decoder.decodeBase64ToString b64 = Ok s ->
  exists octets,
    atob b64 = Ok octets /\ Forall (fun b => b < 256) octets /\ utf8_text octets s.
Proof.
  unfold Decoder.decodeBase64ToString.
  destruct (atob b64) as [bin|e] eqn:Ea; [|discriminate]. cbn [bind].
  pose proof (@atob_bytes _ _ Ea) as Hb.
  rewrite (percentEncoded_bytes Hb). unfold decodeURIComponent. intros HD.
  exists bin. split; [reflexivity|]. split; [exact Hb|].
  exact (@Decode_sound _ bin s (Nat.le_refl _) Hb HD).
Qed.

End DecodeSound.

Lemma X16_decoded_text_is_the_utf8_reading_witness :
  exists octets,
    atob (lit "aMOp4oKs8J+YgA==") = Ok octets /\
    utf8_text octets [104; 233; 8364; 55357; 56832].
Proof.
  destruct (@X16_decoded_text_is_the_utf8_reading
              (lit "aMOp4oKs8J+YgA==") [104; 233; 8364; 55357; 56832] eq_refl)
    as (octets & Ha & _ & Ht).
  exists octets. split; [exact Ha|exact Ht].
Defined.

(* --------------------------------------------------------------------- *)
(** ** Gallery: the first page *)

Section MountFacts.
Import Gallery GalleryControls.
Local Open Scope Z_scope.

Variable JSON_parse : jsstring -> completion json.
Variable client : PublicClient.

(** X17. The first page.  After the supply has been read, the effect that
    watches it loads the first page, of [min(80, supply)] skulls, exactly
    when the supply is positive; run again on the state it leaves, it does
    nothing, so the first page is never loaded twice.  When the supply
    cannot be read, the supply stays 0, the loading mark is cleared all the
    same, and nothing is loaded. *)
Theorem X17_first_page_on_mount :
  let st := fetchMintedCount (Some client) initial in
  let run := autoLoad JSON_parse (Some client) st in
  (forall next, read_nextTokenId client = Ok next ->
     let first := Z.min 80 (next - 1) in
     snd run = batch_ids 1 first /\
     items (fst run) = map (fetch_item JSON_parse client) (batch_ids 1 first) /\
     loaded (fst run) = Z.max 0 first /\
     autoLoad JSON_parse (Some client) (fst run) = (fst run, [])) /\
  (forall e, read_nextTokenId client = Throw e ->
     run = (st, []) /\ mintedCount st = 0 /\ loadingCount st = false /\ items st = []).
Proof.
  intros st run. subst st run. unfold fetchMintedCount. split.
  - intros next Hnext. set (first := Z.min 80 (next - 1)).
    rewrite Hnext. unfold initial, ZERO. cbn [items loaded].
    destruct (Z.gtb_spec next 0) as [Hpos|Hnon].
    + destruct (Z.eq_dec next 1) as [->|Hne].
      * cbn. repeat split.
      * set (st := {| mintedCount := next - 1; items := []; loadingCount := false;
                      loaded := 0 |}).
        assert (Hpl : pages_loaded JSON_parse client st) by (split; [cbn; lia|reflexivity]).
        assert (E := @loadMore_page JSON_parse client st Hpl ltac:(cbn; lia)).
        cbv zeta in E. cbn [loaded mintedCount loadingCount st] in E.
        change (0 + 80) with 80 in E. change (0 + 1) with 1 in E. fold first in E.
        assert (Ea : autoLoad JSON_parse (Some client) st
                     = loadMore JSON_parse (Some client) st).
        { unfold autoLoad. cbn [loadingCount mintedCount items st length negb andb].
          unfold ZERO. destruct (Z.gtb_spec (next - 1) 0); [reflexivity|lia]. }
        rewrite Ea, E. cbn [fst snd items loaded].
        split; [reflexivity|]. split; [reflexivity|]. split; [lia|].
        unfold autoLoad. cbn [loadingCount mintedCount items negb andb].
        rewrite length_map, batch_ids_length.
        destruct (Nat.eqb_spec (Z.to_nat (first - 1 + 1)) 0) as [E0|_]; [lia|].
        now rewrite andb_false_r.
    + assert (Hb : batch_ids 1 first = []).
      { unfold batch_ids. replace (Z.to_nat (first - 1 + 1)) with 0%nat by lia. reflexivity. }
      rewrite Hb. cbn. repeat split. lia.
  - intros e He. rewrite He. cbn. repeat split.
Qed.

End MountFacts.

Lemma X17_first_page_on_mount_witness :
  let st := Gallery.fetchMintedCount (Some chain_of_200) Gallery.initial in
  let run := GalleryControls.autoLoad (fun _ => Throw NonError) (Some chain_of_200) st in
  Gallery.loaded (fst run) = 80%Z /\
  GalleryControls.autoLoad (fun _ => Throw NonError) (Some chain_of_200) (fst run)
  = (fst run, []).
Proof.
  intros st run.
  pose proof (@X17_first_page_on_mount (fun _ => Throw NonError) chain_of_200) as H.
  cbv zeta in H. destruct H as (H & _).
  destruct (H 201%Z eq_refl) as (_ & _ & Hl & Hagain).
  split; [exact Hl|exact Hagain].
Defined.

(* --------------------------------------------------------------------- *)
(** ** Mint page: the Letters of an answer, all or none *)

Section LettersFacts.
Import Mint.
Local Open Scope Z_scope.

Lemma mapM_ok_map {A B : Type} (f : A -> completion B) (g : A -> B) (l : list A) :
  (forall a, In a l -> f a = Ok (g a)) -> mapM f l = Ok (map g l).
Proof.
  induction l as [|a l IH]; intros H; [reflexivity|].
  cbn [mapM map]. rewrite (H a (or_introl eq_refl)). cbn [bind].
  rewrite IH by (intros b Hb; apply H; now right). reflexivity.
Qed.

Lemma mapM_throws {A B : Type} (f : A -> completion B) (l : list A) (a : A) :
  In a l -> (exists e, f a = Throw e) -> exists e, mapM f l = Throw e.
Proof.
  induction l as [|b l IH]; intros Hin (e & He); [destruct Hin|].
  cbn [mapM]. destruct (f b) as [y|e'] eqn:Eb; cbn [bind]; [|eauto].
  destruct Hin as [->|Hin]; [congruence|].
  destruct (IH Hin (ex_intro _ e He)) as (e'' & ->). cbn [bind]. eauto.
Qed.

(** X18. The Letters of an answer, all or none.  If the token id of one
    letter is not a numeral [BigInt] reads, [loadLettersFromApi] leaves the
    page without any item and reads nothing from the chain.  Otherwise it
    leaves one item per letter, for exactly the numbers the letters name,
    in ascending order; and while there is no public client nothing is read
    and every item stays loading, with its mint button disabled. *)
Theorem X18_letters_all_or_none (publicClient : option PublicClient) (letters : list Letter) :
  let run := loadLettersFromApi publicClient letters in
  ((exists l, In l letters /\ StringToBigInt (tokenId l) = None) -> run = ([], [])) /\
  ((forall l, In l letters -> StringToBigInt (tokenId l) <> None) ->
   length (fst run) = length letters /\
   StronglySorted Z.le (map letterTokenId (fst run)) /\
   Permutation (map letterTokenId (fst run))
               (map (fun l => numeric_value (tokenId l)) letters) /\
   (publicClient = None ->
    snd run = [] /\
    forall it, In it (fst run) ->
      loading it = true /\ mintable it = false /\
      forall isPending isConfirming, disableMint isPending isConfirming it = true)).
Proof.
  intros run. subst run. unfold loadLettersFromApi, nextItems. split.
  - intros (l & Hl & Hbad).
    destruct (@mapM_throws _ _
                (fun l => let! id := BigInt_of_string (tokenId l) in
                          Ok (id, name l, imageUrl l)) letters l Hl) as (e & ->).
    + unfold BigInt_of_string. rewrite Hbad. cbn [bind]. eauto.
    + reflexivity.
  - intros Hall.
    rewrite (@mapM_ok_map _ _
               (fun l => let! id := BigInt_of_string (tokenId l) in
                         Ok (id, name l, imageUrl l))
               (fun l => (numeric_value (tokenId l), name l, imageUrl l))).
    2:{ intros l Hl. specialize (Hall l Hl). unfold BigInt_of_string, numeric_value.
        destruct (StringToBigInt (tokenId l)); [reflexivity|congruence]. }
    cbn [bind].
    set (parsed := map (fun l => (numeric_value (tokenId l), name l, imageUrl l)) letters).
    set (sorted := Array_sort by_letterTokenId parsed).
    assert (Hperm : Permutation sorted parsed) by apply Array_sort_perm.
    assert (Hs : StronglySorted Z.le (map (fun p => fst (fst p)) sorted)).
    { apply key_le_map.
      apply Array_sort_sorted with (ok := fun _ => True).
      - intros a b _ _. apply by_letterTokenId_key.
      - apply Forall_forall. trivial. }
    assert (Hids : map letterTokenId (map fresh_item sorted) = map (fun p => fst (fst p)) sorted)
      by (rewrite map_map; reflexivity).
    assert (Hkeys : Permutation (map (fun p => fst (fst p)) sorted)
                                (map (fun l => numeric_value (tokenId l)) letters)).
    { rewrite (Permutation_map _ Hperm). subst parsed. rewrite map_map. reflexivity. }
    assert (Hlen : length (map fresh_item sorted) = length letters).
    { rewrite length_map. subst sorted. rewrite Array_sort_length. subst parsed.
      apply length_map. }
    destruct publicClient as [client|].
    + assert (Hframe : map letterTokenId
                         (fst (hydrateSkulls (Some client) (map fresh_item sorted)
                                 (map fresh_item sorted)))
                       = map letterTokenId (map fresh_item sorted)).
      { apply hydrateSkulls_frame; [apply hydrate_item_identity|reflexivity]. }
      split; [|split; [|split; [|discriminate]]].
      * rewrite <- (length_map letterTokenId), Hframe, length_map. exact Hlen.
      * rewrite Hframe, Hids. exact Hs.
      * rewrite Hframe, Hids. exact Hkeys.
    + cbn [hydrateSkulls fst snd].
      split; [exact Hlen|]. split; [rewrite Hids; exact Hs|].
      split; [rewrite Hids; exact Hkeys|]. intros _. split; [reflexivity|].
      intros it Hit. apply in_map_iff in Hit. destruct Hit as (p & <- & _).
      repeat split. intros p' c'. apply disableMint_loading. reflexivity.
Qed.

End LettersFacts.

Lemma X18_letters_all_or_none_witness :
  let letter s := {| Mint.tokenId := lit s; Mint.name := None; Mint.imageUrl := None |} in
  Mint.loadLettersFromApi (Some used_without_skull) [letter "7"%string; letter "seven"%string] = ([], []) /\
  length (fst (Mint.loadLettersFromApi (Some used_without_skull) [letter "11"%string; letter "7"%string]))
  = 2%nat.
Proof.
  intros letter. split.
  - refine (proj1 (@X18_letters_all_or_none (Some used_without_skull)
                     [letter "7"%string; letter "seven"%string]) _).
    exists (letter "seven"%string). split; [right; now left|reflexivity].
  - refine (proj1 (proj2 (@X18_letters_all_or_none (Some used_without_skull)
                            [letter "11"%string; letter "7"%string]) _)).
    intros l [<-|[<-|[]]]; discriminate.
Defined.
